(** * pyglotaran: data providers, parameter groups and relations

    A shallow embedding of
    - [glotaran/optimization/data_provider.py]: the classes [DataProvider]
      and [DataProviderLinked];
    - [glotaran/parameter/parameter_group.py]: the class [ParameterGroup];
    - what the specification says of the class [Parameter] and of the
      relations between conditionally linear parameters, whose modules are
      not part of the sources;
    followed by the properties established about them.

    Numbers.  The code computes with floating-point numbers.  Axis
    coordinates, interval bounds and the tolerance of the alignment are
    modelled by exact numbers of one grid, the integers [Z]: the code only
    subtracts, takes absolute values, compares and sorts them.  Data,
    weights and parameter values are modelled by the rationals [Q], and
    the logarithmic transformation of parameters by the reals [R].
    Rounding, infinities inside arrays and NaN are not modelled.

    Mutable objects.  NumPy arrays and parameters are objects that the
    code changes in place and shares; they live in a store and are
    referred to by their position.  A computation on a store returns its
    result, or the exception it raises, together with the store it
    leaves. *)

From Stdlib Require Import ZArith QArith Bool Ascii String Lia.
From Stdlib Require Import Reals Lra.
From Stdlib Require Import List Sorted.
Import ListNotations.
Close Scope Q_scope.
Close Scope R_scope.

(** ** Exceptions and results *)

Inductive exception : Type :=
| AlignDatasetError
| ValueError
| KeyError
| AttributeError
| StopIteration.

Definition result (A : Type) : Type := (exception + A)%type.

Definition raise {A : Type} (e : exception) : result A := inl e.
Definition ret {A : Type} (a : A) : result A := inr a.

Definition bind {A B : Type} (r : result A) (k : A -> result B) : result B :=
  match r with
  | inl e => inl e
  | inr a => k a
  end.

Declare Scope result_scope.
Delimit Scope result_scope with result.
Notation "x <- r ;; k" := (bind r (fun x => k))
  (at level 61, r at next level, right associativity) : result_scope.

(** ** Insertion-ordered dictionaries with string keys

    A Python [dict] keeps its keys in insertion order; assigning to a key
    that is present replaces the value in place. *)

Definition dict (V : Type) : Type := list (string * V).

Fixpoint dict_get {V : Type} (k : string) (d : dict V) : option V :=
  match d with
  | [] => None
  | (k', v) :: rest => if String.eqb k k' then Some v else dict_get k rest
  end.

Fixpoint dict_set {V : Type} (k : string) (v : V) (d : dict V) : dict V :=
  match d with
  | [] => [(k, v)]
  | (k', v') :: rest =>
      if String.eqb k k' then (k, v) :: rest else (k', v') :: dict_set k v rest
  end.

Definition keys {V : Type} (d : dict V) : list string := map fst d.
Definition values {V : Type} (d : dict V) : list V := map snd d.

(** ** The NumPy operations used on one-dimensional axes *)

Module np.
Local Open Scope Z_scope.

Fixpoint insert_sorted (x : Z) (l : list Z) : list Z :=
  match l with
  | [] => [x]
  | y :: rest =>
      match x ?= y with
      | Lt => x :: l
      | Eq => l
      | Gt => y :: insert_sorted x rest
      end
  end.

(** [np.unique]: the sorted distinct elements. *)
Definition unique (l : list Z) : list Z := fold_right insert_sorted [] l.

Fixpoint argmin_from (best_i : nat) (best : Z) (i : nat) (l : list Z) : nat :=
  match l with
  | [] => best_i
  | x :: rest =>
      if x <? best then argmin_from i x (S i) rest
      else argmin_from best_i best (S i) rest
  end.

(** [a.argmin()]: the position of the first occurrence of the smallest
    element; NumPy raises [ValueError] on an empty array. *)
Definition argmin (l : list Z) : result nat :=
  match l with
  | [] => raise ValueError
  | x :: rest => ret (argmin_from 0%nat x 1%nat rest)
  end.

(** [a.min()]. *)
Definition amin (l : list Z) : result Z :=
  match l with
  | [] => raise ValueError
  | x :: rest => ret (fold_left Z.min rest x)
  end.

End np.

(** ** Two-dimensional NumPy arrays

    An array is its shape and its elements by position.  [T] is the
    transposed view.  [multiply] is the elementwise product with NumPy's
    broadcasting of the right operand: a dimension of length one is
    repeated. *)

Module ndarray.
Local Open Scope Q_scope.

Record t : Type := { nrow : nat; ncol : nat; item : nat -> nat -> Q }.

Definition T (a : t) : t :=
  {| nrow := ncol a; ncol := nrow a; item := fun i j => item a j i |}.

Definition size (a : t) : nat := nrow a * ncol a.

Definition ones (rows cols : nat) : t :=
  {| nrow := rows; ncol := cols; item := fun _ _ => 1 |}.

Definition of_rows (rows : list (list Q)) : t :=
  {| nrow := length rows;
     ncol := match rows with [] => 0 | r :: _ => length r end;
     item := fun i j => nth j (nth i rows []) 0 |}.

Definition to_rows (a : t) : list (list Q) :=
  map (fun i => map (fun j => item a i j) (seq 0 (ncol a))) (seq 0 (nrow a)).

(** [a.flatten()], in row-major order. *)
Definition flatten (a : t) : list Q := concat (to_rows a).

Definition broadcastable (a b : t) : bool :=
  ((nrow b =? nrow a)%nat || (nrow b =? 1)%nat) &&
  ((ncol b =? ncol a)%nat || (ncol b =? 1)%nat).

Definition multiply (a b : t) : t :=
  {| nrow := nrow a;
     ncol := ncol a;
     item := fun i j =>
       item a i j *
       item b (if (nrow b =? 1)%nat then 0%nat else i)
              (if (ncol b =? 1)%nat then 0%nat else j) |}.

(** [a[rows, cols] * value] written back to the same positions; a slice
    is a half-open range of positions. *)
Definition scale_slice (a : t) (rows cols : nat * nat) (value : Q) : t :=
  {| nrow := nrow a;
     ncol := ncol a;
     item := fun i j =>
       if ((fst rows <=? i)%nat && (i <? snd rows)%nat &&
           (fst cols <=? j)%nat && (j <? snd cols)%nat)%bool
       then item a i j * value else item a i j |}.

(** [bool(a)]: NumPy refuses to give a truth value to an array of more
    than one element; an array of one element is true when the element
    is not zero, an empty array is false. *)
Definition truth_value (a : t) : result bool :=
  match size a with
  | O => ret false
  | S O => ret (negb (Qeq_bool (item a 0 0) 0))
  | _ => raise ValueError
  end.

End ndarray.

(** ** The store of array buffers

    Arrays are mutable objects.  The buffers live in a store; an array
    object is a view on one buffer, possibly transposed.  Warnings issued
    through [warnings.warn] are collected in the store as well.  A
    computation returns its result or exception together with the store it
    leaves behind. *)

Record ref : Type := { base : nat; transposed : bool }.

Record world : Type := { buffers : list ndarray.t; warnings : list string }.

(** Computations on a mutable state [S]. *)
Definition State (S A : Type) : Type := S -> result A * S.

Definition mret {S A : Type} (a : A) : State S A := fun s => (inr a, s).
Definition mraise {S A : Type} (e : exception) : State S A := fun s => (inl e, s).
Definition mbind {S A B : Type} (m : State S A) (k : A -> State S B) : State S B :=
  fun s => match m s with
           | (inl e, s') => (inl e, s')
           | (inr a, s') => k a s'
           end.
Definition lift {S A : Type} (r : result A) : State S A := fun s => (r, s).

Declare Scope M_scope.
Delimit Scope M_scope with M.
Notation "x <- m ;; k" := (mbind m (fun x => k))
  (at level 61, m at next level, right associativity) : M_scope.
Notation "m ;;; k" := (mbind m (fun _ => k))
  (at level 61, right associativity) : M_scope.

Abbreviation M := (State world).

Definition empty_array : ndarray.t := ndarray.of_rows [].

Definition buffer (w : world) (b : nat) : ndarray.t := nth b (buffers w) empty_array.

(** The array seen through a view. *)
Definition view (r : ref) (buf : ndarray.t) : ndarray.t :=
  if transposed r then ndarray.T buf else buf.

Definition contents (w : world) (r : ref) : ndarray.t := view r (buffer w (base r)).

Definition read (r : ref) : M ndarray.t := fun w => (inr (contents w r), w).

Fixpoint list_update {A : Type} (i : nat) (x : A) (l : list A) : list A :=
  match l, i with
  | [], _ => []
  | _ :: rest, O => x :: rest
  | y :: rest, S i' => y :: list_update i' x rest
  end.

(** Store [a] as what is seen through the view [r]. *)
Definition write (r : ref) (a : ndarray.t) : M unit :=
  fun w => (inr tt, {| buffers := list_update (base r) (view r a) (buffers w);
                       warnings := warnings w |}).

Definition alloc (a : ndarray.t) : M ref :=
  fun w => (inr {| base := length (buffers w); transposed := false |},
            {| buffers := buffers w ++ [a]; warnings := warnings w |}).

Definition warn (message : string) : M unit :=
  fun w => (inr tt, {| buffers := buffers w; warnings := warnings w ++ [message] |}).

(** [a.copy()] *)
Definition copy (r : ref) : M ref := (a <- read r ;; alloc a)%M.

(** [a.T] *)
Definition transpose (r : ref) : ref :=
  {| base := base r; transposed := negb (transposed r) |}.

(** [a *= b], in place. *)
Definition imul (r : ref) (b : ndarray.t) : M unit :=
  (a <- read r ;;
   if ndarray.broadcastable a b then write r (ndarray.multiply a b)
   else mraise ValueError)%M.

(** ** Schemes, datasets and models as far as the data provider reads them *)

(** The methods of the alignment: [Literal["nearest", "backward", "forward"]] *)
Inductive link_method : Type := nearest | backward | forward.

(** An end point of an interval: a number or an infinity. *)
Inductive bound (A : Type) : Type := neg_inf | finite (a : A) | pos_inf.
Arguments neg_inf {A}.
Arguments finite {A} a.
Arguments pos_inf {A}.

Definition bound_gtb (a b : bound Z) : bool :=
  match a, b with
  | neg_inf, _ => false
  | finite _, neg_inf => true
  | finite x, finite y => (x >? y)%Z
  | finite _, pos_inf => false
  | pos_inf, pos_inf => false
  | pos_inf, _ => true
  end.

(** Modelled from the spec: [glotaran.model.Weight], whose class is missing
    from the sources: "{datasets: set of dataset labels, model_interval,
    global_interval, value: float}"; [add_model_weight] reads these four
    attributes, and an interval may be [None]. *)
Record Weight : Type := {
  datasets : list string;
  global_interval : option (bound Z * bound Z);
  model_interval : option (bound Z * bound Z);
  value : Q
}.

(** A variable of an [xr.Dataset]: its two dimensions and its array
    ("a dataset's raw data has exactly two dimensions"). *)
Record DataArray : Type := { dims : string * string; data : ref }.

(** An [xr.Dataset]: its two-dimensional variables by name, and its
    coordinates, one axis per dimension. *)
Record Dataset : Type := {
  variables : dict DataArray;
  coords : dict (list Z)
}.

(** Modelled from the spec: a dataset model, whose class is missing from
    the sources, as far as [__init__] asks: its model dimension ("every
    dataset has exactly one model dimension") and whether it has a global
    model. *)
Record DatasetModel : Type := {
  get_model_dimension : string;
  has_global_model : bool
}.

(** Modelled from the spec: the scheme, whose class is missing from the
    sources, "aggregating {model, parameters, datasets, ..., alignment
    tolerance, alignment method}", as far as the providers read it. *)
Record Scheme : Type := {
  weights : list Weight;           (* scheme.model.weights *)
  scheme_data : dict Dataset;      (* scheme.data *)
  clp_link_tolerance : Z;
  clp_link_method : link_method
}.

(** ** [DataProvider] *)

Module DataProvider.
Local Open Scope string_scope.

Record t : Type := {
  _data : dict ref;
  _weight : dict (option ref);
  _flattened_data : dict (list Q);
  _flattened_weight : dict (option (list Q));
  _model_axes : dict (list Z);
  _model_dimensions : dict string;
  _global_axes : dict (list Z);
  _global_dimensions : dict string
}.

Definition empty : t :=
  {| _data := []; _weight := []; _flattened_data := []; _flattened_weight := [];
     _model_axes := []; _model_dimensions := []; _global_axes := [];
     _global_dimensions := [] |}.

Definition set_data (self : t) (d : dict ref) : t :=
  {| _data := d; _weight := _weight self;
     _flattened_data := _flattened_data self;
     _flattened_weight := _flattened_weight self;
     _model_axes := _model_axes self; _model_dimensions := _model_dimensions self;
     _global_axes := _global_axes self; _global_dimensions := _global_dimensions self |}.

Definition set_weight (self : t) (d : dict (option ref)) : t :=
  {| _data := _data self; _weight := d;
     _flattened_data := _flattened_data self;
     _flattened_weight := _flattened_weight self;
     _model_axes := _model_axes self; _model_dimensions := _model_dimensions self;
     _global_axes := _global_axes self; _global_dimensions := _global_dimensions self |}.

Definition set_flattened (self : t) (fd : dict (list Q)) (fw : dict (option (list Q))) : t :=
  {| _data := _data self; _weight := _weight self;
     _flattened_data := fd; _flattened_weight := fw;
     _model_axes := _model_axes self; _model_dimensions := _model_dimensions self;
     _global_axes := _global_axes self; _global_dimensions := _global_dimensions self |}.

Definition set_axes (self : t) (label : string)
    (model_dimension : string) (model_axis : list Z)
    (global_dimension : string) (global_axis : list Z) : t :=
  {| _data := _data self; _weight := _weight self;
     _flattened_data := _flattened_data self;
     _flattened_weight := _flattened_weight self;
     _model_axes := dict_set label model_axis (_model_axes self);
     _model_dimensions := dict_set label model_dimension (_model_dimensions self);
     _global_axes := dict_set label global_axis (_global_axes self);
     _global_dimensions := dict_set label global_dimension (_global_dimensions self) |}.

(** [d[k]], raising [KeyError] for a missing key. *)
Definition getitem {V : Type} (k : string) (d : dict V) : result V :=
  match dict_get k d with
  | Some v => ret v
  | None => raise KeyError
  end.

(** [next(dim for dim in dimensions if dim != model_dimension)] *)
Definition infer_global_dimension (model_dimension : string)
    (dimensions : string * string) : result string :=
  if negb (String.eqb (fst dimensions) model_dimension) then ret (fst dimensions)
  else if negb (String.eqb (snd dimensions) model_dimension) then ret (snd dimensions)
  else raise StopIteration.

Definition dims_eqb (a b : string * string) : bool :=
  String.eqb (fst a) (fst b) && String.eqb (snd a) (snd b).

Definition get_from_dataset (dataset : Dataset) (name : string)
    (model_dimension global_dimension : string) : M (option ref) :=
  match dict_get name (variables dataset) with
  | None => mret None
  | Some variable =>
      (data <- copy (data variable) ;;
       if negb (dims_eqb (dims variable) (model_dimension, global_dimension))
       then mret (Some (transpose data))
       else mret (Some data))%M
  end.

Definition abs_distance (axis : list Z) (x : Z) : list Z :=
  map (fun a => Z.abs (a - x)) axis.

(** The slice [slice(minimum, maximum)], as the two integers; an end point
    that is not [finite] is one for which [np.isinf] holds. *)
Definition get_axis_slice_from_interval (interval : bound Z * bound Z)
    (axis : list Z) : result (Z * Z) :=
  let (interval_min, interval_max) := interval in
  let (interval_min, interval_max) :=
    if bound_gtb interval_min interval_max
    then (interval_max, interval_min) else (interval_min, interval_max) in
  (minimum <-
     match interval_min with
     | finite x => i <- np.argmin (abs_distance axis x) ;; ret (Z.of_nat i)
     | _ => ret 0%Z
     end ;;
   maximum <-
     match interval_max with
     | finite x => i <- np.argmin (abs_distance axis x) ;; ret (Z.of_nat i + 1)%Z
     | _ => ret (Z.of_nat (length axis) - 1)%Z
     end ;;
   ret (minimum, maximum))%result.

(** The positions selected by [slice(start, stop)] in a dimension of
    length [n], as a half-open range: a negative bound counts from the
    end, and both bounds are clipped to the dimension. *)
Definition slice_indices (sl : Z * Z) (n : nat) : nat * nat :=
  let clip (x : Z) : nat :=
    if (x <? 0)%Z then Z.to_nat (Z.max (x + Z.of_nat n) 0)
    else Nat.min (Z.to_nat x) n in
  (clip (fst sl), clip (snd sl)).

(** One iteration of the loop over [model_weights]: [weight[idx] *= value]. *)
Definition apply_model_weight (weight : ref) (model_axis global_axis : list Z)
    (model_weight : Weight) : M unit :=
  (global_slice <-
     match global_interval model_weight with
     | Some interval =>
         sl <- lift (get_axis_slice_from_interval interval global_axis) ;;
         mret (slice_indices sl (length global_axis))
     | None => mret (0, length global_axis)%nat
     end ;;
   model_slice <-
     match model_interval model_weight with
     | Some interval =>
         sl <- lift (get_axis_slice_from_interval interval model_axis) ;;
         mret (slice_indices sl (length model_axis))
     | None => mret (0, length model_axis)%nat
     end ;;
   a <- read weight ;;
   write weight (ndarray.scale_slice a model_slice global_slice (value model_weight)))%M.

Fixpoint apply_model_weights (weight : ref) (model_axis global_axis : list Z)
    (model_weights : list Weight) : M unit :=
  match model_weights with
  | [] => mret tt
  | model_weight :: rest =>
      (apply_model_weight weight model_axis global_axis model_weight ;;;
       apply_model_weights weight model_axis global_axis rest)%M
  end.

(** The truth value of [self._weight[dataset_label]]: [None] is false, an
    array has NumPy's truth value. *)
Definition weight_truth_value (weight : option ref) : M bool :=
  match weight with
  | None => mret false
  | Some r => (a <- read r ;; lift (ndarray.truth_value a))%M
  end.

Definition ignoring_model_weight (dataset_label : string) : string :=
  "Ignoring model weight for dataset '" ++ dataset_label ++
  "' because weight is already supplied by dataset.".

Definition targets (dataset_label : string) (weight : Weight) : bool :=
  existsb (String.eqb dataset_label) (datasets weight).

Definition add_model_weight (self : t) (model_weights_of_model : list Weight)
    (dataset_label : string) (model_dimension global_dimension : string) : M t :=
  let model_weights := filter (targets dataset_label) model_weights_of_model in
  match model_weights with
  | [] => mret self
  | _ :: _ =>
      (current <- lift (getitem dataset_label (_weight self)) ;;
       supplied <- weight_truth_value current ;;
       if supplied : bool then
         warn (ignoring_model_weight dataset_label) ;;; mret self
       else
         model_axis <- lift (getitem dataset_label (_model_axes self)) ;;
         global_axis <- lift (getitem dataset_label (_global_axes self)) ;;
         weight <- alloc (ndarray.ones (length model_axis) (length global_axis)) ;;
         apply_model_weights weight model_axis global_axis model_weights ;;;
         mret (set_weight self (dict_set dataset_label (Some weight) (_weight self))))%M
  end.

(** The body of the loop of [__init__] for one dataset. *)
Definition init_dataset (scheme : Scheme) (self : t)
    (item : string * DatasetModel) : M t :=
  let (label, dataset_model) := item in
  (dataset <- lift (getitem label (scheme_data scheme)) ;;
   let model_dimension := get_model_dimension dataset_model in
   model_axis <- lift (getitem model_dimension (coords dataset)) ;;
   data_variable <-                                  (* dataset.data *)
     lift (match dict_get "data" (variables dataset) with
           | Some variable => ret variable
           | None => raise AttributeError
           end) ;;
   global_dimension <-
     lift (infer_global_dimension model_dimension (dims data_variable)) ;;
   global_axis <- lift (getitem global_dimension (coords dataset)) ;;
   let self :=
     set_axes self label model_dimension model_axis global_dimension global_axis in
   weight <- get_from_dataset dataset "weight" model_dimension global_dimension ;;
   let self := set_weight self (dict_set label weight (_weight self)) in
   self <- add_model_weight self (weights scheme) label model_dimension global_dimension ;;
   data <- get_from_dataset dataset "data" model_dimension global_dimension ;;
   match data with
   | None => mraise AttributeError   (* not reached: "data" is in the dataset *)
   | Some data =>
       let self := set_data self (dict_set label data (_data self)) in
       weight <- lift (getitem label (_weight self)) ;;
       match weight with
       | Some weight => b <- read weight ;; imul data b
       | None => mret tt
       end ;;;
       if has_global_model dataset_model then
         a <- read data ;;
         flattened_weight <-
           match weight with
           | Some weight =>
               b <- read weight ;; mret (Some (ndarray.flatten (ndarray.T b)))
           | None => mret None
           end ;;
         mret (set_flattened self
                 (dict_set label (ndarray.flatten (ndarray.T a)) (_flattened_data self))
                 (dict_set label flattened_weight (_flattened_weight self)))
       else mret self
   end)%M.

Fixpoint init_loop (scheme : Scheme) (items : dict DatasetModel) (self : t) : M t :=
  match items with
  | [] => mret self
  | item :: rest =>
      (self <- init_dataset scheme self item ;; init_loop scheme rest self)%M
  end.

(** [DataProvider.__init__(scheme, dataset_group)]; [dataset_models] is
    [dataset_group.dataset_models]. *)
Definition init (scheme : Scheme) (dataset_models : dict DatasetModel) : M t :=
  init_loop scheme dataset_models empty.

Definition get_data (self : t) (dataset_label : string) : result ref :=
  getitem dataset_label (_data self).

Definition get_weight (self : t) (dataset_label : string) : result (option ref) :=
  getitem dataset_label (_weight self).

End DataProvider.

(** The other accessors of [DataProvider]; [get_model_dimension] is also the
    name of the method of a dataset model. *)

Module DataProviderGetters.
Import DataProvider.

Definition get_flattened_data (self : t) (dataset_label : string) : result (list Q) :=
  getitem dataset_label (_flattened_data self).

Definition get_flattened_weight (self : t) (dataset_label : string)
    : result (option (list Q)) :=
  getitem dataset_label (_flattened_weight self).

Definition get_model_axis (self : t) (dataset_label : string) : result (list Z) :=
  getitem dataset_label (_model_axes self).

Definition get_model_dimension (self : t) (dataset_label : string) : result string :=
  getitem dataset_label (_model_dimensions self).

Definition get_global_axis (self : t) (dataset_label : string) : result (list Z) :=
  getitem dataset_label (_global_axes self).

Definition get_global_dimension (self : t) (dataset_label : string) : result string :=
  getitem dataset_label (_global_dimensions self).

End DataProviderGetters.

(** ** [DataProviderLinked]: alignment of the global axes *)

Module DataProviderLinked.
Local Open Scope Z_scope.

(** [align_index]: [diff] is filtered for the directed methods, and the
    position found in the filtered [diff] is then used on [target_axis]. *)
Definition align_index (index : Z) (target_axis : list Z) (tolerance : Z)
    (method : link_method) : Z :=
  let diff := map (fun a => a - index) target_axis in
  let diff :=
    match method with
    | forward => filter (fun d => d >=? 0) diff
    | backward => filter (fun d => d <=? 0) diff
    | nearest => diff
    end in
  let diff := map Z.abs diff in
  match np.amin diff, np.argmin diff with
  | inr m, inr i => if m <=? tolerance then nth i target_axis index else index
  | _, _ => index
  end.

(** The two local variables of the loop of [create_aligned_global_axes]. *)
Record align_state : Type := {
  aligned_axis_values : option (list Z);
  aligned_global_axes : dict (list Z)
}.

Definition align_step (tolerance : Z) (method : link_method)
    (st : align_state) (item : string * list Z) : result align_state :=
  let (label, global_axis) := item in
  match aligned_axis_values st with
  | None =>
      ret {| aligned_axis_values := Some global_axis;
             aligned_global_axes := dict_set label global_axis (aligned_global_axes st) |}
  | Some axis_values =>
      let aligned_global_axis :=
        map (fun index => align_index index axis_values tolerance method) global_axis in
      if negb (length (np.unique aligned_global_axis) =? length aligned_global_axis)%nat
      then raise AlignDatasetError
      else
        ret {| aligned_axis_values := Some (np.unique (axis_values ++ aligned_global_axis));
               aligned_global_axes :=
                 dict_set label aligned_global_axis (aligned_global_axes st) |}
  end.

Fixpoint align_loop (tolerance : Z) (method : link_method)
    (items : list (string * list Z)) (st : align_state) : result align_state :=
  match items with
  | [] => ret st
  | item :: rest =>
      match align_step tolerance method st item with
      | inl e => inl e
      | inr st' => align_loop tolerance method rest st'
      end
  end.

Definition align_init : align_state :=
  {| aligned_axis_values := None; aligned_global_axes := [] |}.

(** [create_aligned_global_axes]; [global_axes] is [self._global_axes],
    [tolerance] and [method] are [scheme.clp_link_tolerance] and
    [scheme.clp_link_method]. *)
Definition create_aligned_global_axes (tolerance : Z) (method : link_method)
    (global_axes : dict (list Z)) : result (dict (list Z)) :=
  match align_loop tolerance method global_axes align_init with
  | inl e => inl e
  | inr st => ret (aligned_global_axes st)
  end.

Definition is_empty (a : list Z) : bool :=
  match a with [] => true | _ => false end.

Fixpoint array_equal (a b : list Z) : bool :=
  match a, b with
  | [], [] => true
  | x :: a', y :: b' => (x =? y) && array_equal a' b'
  | _, _ => false
  end.

Fixpoint is_unique (a : list Z) : bool :=
  match a with
  | [] => true
  | x :: rest => negb (existsb (Z.eqb x) rest) && is_unique rest
  end.

(** [pandas.Index.union] on indexes without repeated labels: an empty or
    equal operand leaves the other one as it is, otherwise the labels of
    both are returned sorted. *)
Definition index_union (a b : list Z) : list Z :=
  if is_empty b || array_equal a b then a
  else if is_empty a then b
  else np.unique (a ++ b).

(** The ["global"] coordinate of [xr.concat(arrays, dim="model")].  The
    arrays are aligned along "global" with an outer join: indexes that are
    all equal are kept as they are; otherwise the joined index is the
    union of the indexes, and every array is reindexed to it, which xarray
    refuses ([ValueError]) for an index with repeated labels.  Concatenating
    no array at all is a [ValueError] as well. *)
Definition concat_global_coordinate (axes : list (list Z)) : result (list Z) :=
  match axes with
  | [] => raise ValueError
  | first :: others =>
      if forallb (array_equal first) others then ret first
      else if forallb is_unique axes then ret (fold_left index_union others first)
      else raise ValueError
  end.

(** The first component of [align_data]: the aligned global axis. *)
Definition align_data_axis (aligned_global_axes : dict (list Z)) : result (list Z) :=
  concat_global_coordinate (values aligned_global_axes).

(** [DataProviderLinked.__init__], up to the aligned global axis: the
    provider itself, the aligned global axes of the datasets and the
    aligned global axis of the group. *)
Definition init (scheme : Scheme) (dataset_models : dict DatasetModel)
    : M (DataProvider.t * dict (list Z) * list Z) :=
  (self <- DataProvider.init scheme dataset_models ;;
   aligned_global_axes <-
     lift (create_aligned_global_axes (clp_link_tolerance scheme)
             (clp_link_method scheme) (DataProvider._global_axes self)) ;;
   aligned_global_axis <- lift (align_data_axis aligned_global_axes) ;;
   mret (self, aligned_global_axes, aligned_global_axis))%M.



(** *** The rest of [DataProviderLinked]

    The methods below index lists and arrays by position, which raises
    [IndexError] out of range; the exceptions above are kept apart. *)
Inductive aligned_exception : Type :=
| IndexError
| Raised (e : exception).

Definition aligned_result (A : Type) : Type := (aligned_exception + A)%type.

Definition raised {A : Type} (r : result A) : aligned_result A :=
  match r with
  | inl e => inl (Raised e)
  | inr a => inr a
  end.

Definition abind {A B : Type} (r : aligned_result A) (k : A -> aligned_result B)
    : aligned_result B :=
  match r with
  | inl e => inl e
  | inr a => k a
  end.

Declare Scope aligned_scope.
Delimit Scope aligned_scope with aligned.
Notation "x <- r ;; k" := (abind r (fun x => k))
  (at level 61, r at next level, right associativity) : aligned_scope.

(** The results of a list comprehension: the first exception ends it. *)
Fixpoint traverse {A B : Type} (f : A -> aligned_result B) (l : list A)
    : aligned_result (list B) :=
  match l with
  | [] => inr []
  | a :: rest =>
      (b <- f a ;; bs <- traverse f rest ;; inr (b :: bs))%aligned
  end.

(** [index.get_loc(x)] on an index without repeated labels: the position
    of the label, [None] for a label that is not in the index. *)
Fixpoint get_loc (x : Z) (index : list Z) : option nat :=
  match index with
  | [] => None
  | y :: rest => if x =? y then Some 0%nat else option_map S (get_loc x rest)
  end.

(** [index.get_indexer(target)]: the position in [index] of each label of
    [target]; pandas writes -1 where [None] stands here. *)
Definition get_indexer (index target : list Z) : list (option nat) :=
  map (fun x => get_loc x index) target.

(** [xr.concat(arrays, dim)] of arrays with a coordinate "global" each,
    along another dimension: the joined coordinate, and for every array
    the positions from which the columns of the joined coordinate are
    taken, [None] where the array is filled.  Arrays whose indexes are all
    equal are taken as they are. *)
Definition concat_indexers (axes : list (list Z))
    : result (list Z * list (list (option nat))) :=
  (axis <- concat_global_coordinate axes ;;
   ret (axis,
        match axes with
        | [] => []
        | first :: others =>
            if forallb (array_equal first) others
            then map (fun a => map Some (seq 0 (length a))) axes
            else map (fun a => get_indexer a axis) axes
        end))%result.

(** [a[:, k]] *)
Definition column (a : ndarray.t) (k : nat) : list Q :=
  map (fun i => ndarray.item a i k) (seq 0 (ndarray.nrow a)).

(** [xr.DataArray(a, dims=["model", "global"], coords={"global": axis})]:
    the coordinate must have the length of the second dimension. *)
Definition DataArray_with_global (a : ndarray.t) (axis : list Z) : result ndarray.t :=
  if (ndarray.ncol a =? length axis)%nat then ret a else raise ValueError.

(** [align_data]; [w] is the store in which the arrays of the provider are
    read.  Position [i] of the second component takes, from every array
    that has the coordinate, the column of the coordinate
    ([isel] followed by [dropna]). *)
Definition align_data (w : world) (self : DataProvider.t)
    (aligned_global_axes : dict (list Z)) : result (list Z * list (list Q)) :=
  (arrays <-
     (fix arrays (items : dict (list Z)) : result (list ndarray.t) :=
        match items with
        | [] => ret []
        | (label, axis) :: rest =>
            data <- DataProvider.get_data self label ;;
            array <- DataArray_with_global (contents w data) axis ;;
            others <- arrays rest ;;
            ret (array :: others)
        end) aligned_global_axes ;;
   joined <- concat_indexers (values aligned_global_axes) ;;
   let (aligned_global_axis, indexers) := joined in
   ret (aligned_global_axis,
        map (fun i =>
               concat (map (fun array_indexer =>
                              match nth i (snd array_indexer) None with
                              | Some k => column (fst array_indexer) k
                              | None => []
                              end) (combine arrays indexers)))
            (seq 0 (length aligned_global_axis))))%result.

(** [aligned.isel({"global": i})] for the indexers of the concatenated
    arrays: [IndexError] for a position outside of the joined coordinate. *)
Definition isel {A : Type} (size : nat) (columns : nat -> A) (i : nat)
    : aligned_result A :=
  if (i <? size)%nat then inr (columns i) else inl IndexError.

(** [align_dataset_indices]; [aligned_global_axis] is
    [self._aligned_global_axis]. *)
Definition align_dataset_indices (aligned_global_axis : list Z)
    (aligned_global_axes : dict (list Z)) : aligned_result (list (list nat)) :=
  (joined <- raised (concat_indexers (values aligned_global_axes)) ;;
   let (axis, indexers) := joined in
   traverse
     (isel (length axis)
           (fun i => flat_map (fun indexer =>
                                 match nth i indexer None with
                                 | Some k => [k]
                                 | None => []
                                 end) indexers))
     (seq 0 (length aligned_global_axis)))%aligned.

(** The loop of [align_groups] that fills [group_definitions]. *)
Fixpoint define_groups (labelled : list (string * list string))
    (group_definitions : dict (list string)) : dict (list string) :=
  match labelled with
  | [] => group_definitions
  | (group_label, members) :: rest =>
      define_groups rest
        match dict_get group_label group_definitions with
        | Some _ => group_definitions
        | None =>
            dict_set group_label
              (filter (fun l => negb (String.eqb l "")) members) group_definitions
        end
  end.

(** [align_groups]: for every position of the joined coordinate the
    labels of the datasets, the empty string for a dataset that is filled
    there; the group label joins them. *)
Definition align_groups (aligned_global_axes : dict (list Z))
    : result (list string * dict (list string)) :=
  (joined <- concat_indexers (values aligned_global_axes) ;;
   let (axis, indexers) := joined in
   let aligned_groups :=
     map (fun i =>
            map (fun label_indexer =>
                   match nth i (snd label_indexer) None with
                   | Some _ => fst label_indexer
                   | None => ""%string
                   end) (combine (keys aligned_global_axes) indexers))
         (seq 0 (length axis)) in
   let aligned_group_labels := map (String.concat "") aligned_groups in
   ret (aligned_group_labels,
        define_groups (combine aligned_group_labels aligned_groups) []))%result.

(** An aligned weight: one-dimensional, or two-dimensional when a
    selection by coordinate keeps the dimension "global". *)
Inductive aligned_weight : Type :=
| vector (v : list Q)
| matrix (a : ndarray.t).

(** The positions of a label in an index. *)
Definition get_locs (x : Z) (index : list Z) : list nat :=
  filter (fun k => nth k index (x + 1) =? x) (seq 0 (length index)).

(** The columns [ks] of [a], as an array of the shape
    [(nrow a, length ks)]. *)
Definition take_columns (a : ndarray.t) (ks : list nat) : ndarray.t :=
  {| ndarray.nrow := ndarray.nrow a;
     ndarray.ncol := length ks;
     ndarray.item := fun i j => ndarray.item a i (nth j ks 0%nat) |}.

(** [array.sel({"global": x}).data] for an array with the coordinate
    [index]: [KeyError] for a label that is not in the index; the column
    of the label when it occurs once ([get_loc] is a position); the
    columns of its occurrences, with the dimension kept, when it occurs
    several times ([get_loc] is a slice or a mask). *)
Definition sel (a : ndarray.t) (index : list Z) (x : Z) : result aligned_weight :=
  match get_locs x index with
  | [] => raise KeyError
  | [k] => ret (vector (column a k))
  | ks => ret (matrix (take_columns a ks))
  end.

(** [np.concatenate] of two arrays along the first axis. *)
Definition concatenate2 (a b : aligned_weight) : result aligned_weight :=
  match a, b with
  | vector u, vector v => ret (vector (u ++ v))
  | matrix m, matrix n =>
      if (ndarray.ncol m =? ndarray.ncol n)%nat then
        ret (matrix {| ndarray.nrow := ndarray.nrow m + ndarray.nrow n;
                       ndarray.ncol := ndarray.ncol m;
                       ndarray.item := fun i j =>
                         if (i <? ndarray.nrow m)%nat then ndarray.item m i j
                         else ndarray.item n (i - ndarray.nrow m) j |})
      else raise ValueError
  | _, _ => raise ValueError
  end.

(** [np.concatenate(arrays)]; an empty list is a [ValueError]. *)
Fixpoint concatenate (arrays : list aligned_weight) : result aligned_weight :=
  match arrays with
  | [] => raise ValueError
  | [a] => ret a
  | a :: rest => (b <- concatenate rest ;; concatenate2 a b)%result
  end.

(** The dictionary [all_weights] of [align_weights]: the weights that are
    not [None], each with the aligned global axis of its dataset. *)
Fixpoint all_weights (w : world) (weights : dict (option ref))
    (aligned_global_axes : dict (list Z)) : result (dict (ndarray.t * list Z)) :=
  match weights with
  | [] => ret []
  | (label, None) :: rest => all_weights w rest aligned_global_axes
  | (label, Some weight) :: rest =>
      (axis <- DataProvider.getitem label aligned_global_axes ;;
       array <- DataArray_with_global (contents w weight) axis ;;
       others <- all_weights w rest aligned_global_axes ;;
       ret ((label, (array, axis)) :: others))%result
  end.

(** [l[i]] for a position [i] that is not negative. *)
Definition item_at {A : Type} (l : list A) (i : nat) : aligned_result A :=
  match nth_error l i with
  | Some a => inr a
  | None => inl IndexError
  end.

(** The body of the loop of [align_weights] for the position [i]: the
    aligned weight of the position, or [None] to leave the entry as it
    is. *)
Definition align_weight (self : DataProvider.t) (aligned_global_axis : list Z)
    (group_definitions : dict (list string))
    (weights : dict (ndarray.t * list Z)) (i : nat) (group_label : string)
    : aligned_result (option aligned_weight) :=
  (group_dataset_labels <- raised (DataProvider.getitem group_label group_definitions) ;;
   if existsb (fun label => match dict_get label weights with
                            | Some _ => true
                            | None => false
                            end) group_dataset_labels
   then
     index_weights <-
       traverse
         (fun label =>
            match dict_get label weights with
            | Some (array, axis) =>
                x <- item_at aligned_global_axis i ;;
                raised (sel array axis x)
            | None =>
                model_axis <- raised (DataProvider.getitem label (DataProvider._model_axes self)) ;;
                inr (vector (repeat 1%Q (length model_axis)))
            end)
         group_dataset_labels ;;
     aligned <- raised (concatenate index_weights) ;;
     if (i <? length aligned_global_axis)%nat then inr (Some aligned)
     else inl IndexError
   else inr None)%aligned.

(** [align_weights]; [aligned_global_axis], [aligned_group_labels] and
    [group_definitions] are the attributes of [self] of these names.  The
    list starts as [[None] * size]; the loop assigns the entries of the
    positions for which [align_weight] returns a weight. *)
Definition align_weights (w : world) (self : DataProvider.t)
    (aligned_global_axis : list Z) (aligned_group_labels : list string)
    (group_definitions : dict (list string))
    (aligned_global_axes : dict (list Z))
    : aligned_result (list (option aligned_weight)) :=
  (weights <- raised (all_weights w (DataProvider._weight self) aligned_global_axes) ;;
   match weights with
   | [] => inr (repeat None (length aligned_global_axis))
   | _ :: _ =>
       set <-
         traverse
           (fun i_label =>
              align_weight self aligned_global_axis group_definitions weights
                (fst i_label) (snd i_label))
           (combine (seq 0 (length aligned_group_labels)) aligned_group_labels) ;;
       inr (firstn (length aligned_global_axis) set ++
            repeat None (length aligned_global_axis - length set))
   end)%aligned.

(** The attributes that [DataProviderLinked] adds to those of
    [DataProvider]. *)
Record linked : Type := {
  provider : DataProvider.t;
  _aligned_global_axis : list Z;
  _aligned_data : list (list Q);
  _aligned_dataset_indices : list (list nat);
  _aligned_group_labels : list string;
  _group_definitions : dict (list string);
  _aligned_weights : list (option aligned_weight)
}.

(** [DataProviderLinked.__init__(scheme, dataset_group)]; the arrays of
    the provider are read in the store that [DataProvider.__init__]
    leaves. *)
Definition __init__ (scheme : Scheme) (dataset_models : dict DatasetModel)
    (w : world) : aligned_result linked * world :=
  match DataProvider.init scheme dataset_models w with
  | (inl e, w') => (inl (Raised e), w')
  | (inr self, w') =>
      ((aligned_global_axes <-
          raised (create_aligned_global_axes (clp_link_tolerance scheme)
                    (clp_link_method scheme) (DataProvider._global_axes self)) ;;
        aligned <- raised (align_data w' self aligned_global_axes) ;;
        indices <- align_dataset_indices (fst aligned) aligned_global_axes ;;
        groups <- raised (align_groups aligned_global_axes) ;;
        weights <- align_weights w' self (fst aligned) (fst groups) (snd groups)
                     aligned_global_axes ;;
        inr {| provider := self;
               _aligned_global_axis := fst aligned;
               _aligned_data := snd aligned;
               _aligned_dataset_indices := indices;
               _aligned_group_labels := fst groups;
               _group_definitions := snd groups;
               _aligned_weights := weights |})%aligned, w')
  end.

(** [l[index]] for lists and one-dimensional arrays: a negative index
    counts from the end. *)
Definition getitem_at {A : Type} (l : list A) (index : Z) : aligned_result A :=
  let n := Z.of_nat (length l) in
  if (0 <=? index) && (index <? n) then item_at l (Z.to_nat index)
  else if (- n <=? index) && (index <? 0) then item_at l (Z.to_nat (index + n))
  else inl IndexError.

Definition aligned_global_axis (self : linked) : list Z := _aligned_global_axis self.

Definition group_definitions (self : linked) : dict (list string) :=
  _group_definitions self.

Definition get_aligned_group_label (self : linked) (index : Z) : aligned_result string :=
  getitem_at (_aligned_group_labels self) index.

Definition get_aligned_dataset_indices (self : linked) (index : Z)
    : aligned_result (list nat) :=
  getitem_at (_aligned_dataset_indices self) index.

Definition get_aligned_data (self : linked) (index : Z) : aligned_result (list Q) :=
  getitem_at (_aligned_data self) index.

Definition get_aligned_weight (self : linked) (index : Z)
    : aligned_result (option aligned_weight) :=
  getitem_at (_aligned_weights self) index.

End DataProviderLinked.

(** ** Parameters *)

(** Modelled from the spec: the expression of a parameter.  The class
    [Parameter] ([glotaran/parameter/parameter.py]) and the interpreter of
    expressions are missing from the sources; an expression is kept in
    parsed form, "an operator tree over literals and explicit
    [ParameterRef(label)] leaves": numbers, references [$label] to other
    parameters, and the arithmetic operators. *)
Inductive expr : Type :=
| Num (q : Q)
| Ref (label : string)
| Neg (e : expr)
| Add (a b : expr)
| Sub (a b : expr)
| Mul (a b : expr)
| Div (a b : expr).

Module Param.

(** Modelled from the spec: the class [Parameter], missing from the
    sources: "{label, full_label (dotted path), value: float, minimum:
    float (default -inf), maximum: float (default +inf), vary: bool,
    non_negative: bool, expression: string|null}".  [_vary] is the flag
    given at construction. *)
Record t : Type := {
  label : string;
  full_label : string;
  value : Q;
  minimum : bound Q;
  maximum : bound Q;
  _vary : bool;
  non_negative : bool;
  expression : option expr
}.

(** Modelled from the spec: the property [vary] of [Parameter], whose
    class is missing from the sources.  "A parameter with a non-null
    expression is never directly varied by the optimizer": the flag given
    at construction counts only for a parameter without expression. *)
Definition vary (p : t) : bool :=
  match expression p with
  | Some _ => false
  | None => _vary p
  end.

Definition with_value (q : Q) (p : t) : t :=
  {| label := label p; full_label := full_label p; value := q;
     minimum := minimum p; maximum := maximum p; _vary := _vary p;
     non_negative := non_negative p; expression := expression p |}.

Definition with_full_label (l : string) (p : t) : t :=
  {| label := label p; full_label := l; value := value p;
     minimum := minimum p; maximum := maximum p; _vary := _vary p;
     non_negative := non_negative p; expression := expression p |}.

Definition default : t :=
  {| label := ""; full_label := ""; value := 0; minimum := neg_inf;
     maximum := pos_inf; _vary := true; non_negative := false;
     expression := None |}.

End Param.

(** ** [ParameterGroup]

    The parameters are mutable objects shared by the tree and by the
    expression evaluator: they live in a store, and the tree holds their
    positions. *)

Module ParameterGroup.
Local Open Scope string_scope.

Definition store : Type := list Param.t.

Definition param (s : store) (r : nat) : Param.t := nth r s Param.default.

Definition get_param (r : nat) : State store Param.t :=
  fun s => (inr (param s r), s).

Definition set_full_label (r : nat) (l : string) : State store unit :=
  fun s => (inr tt, list_update r (Param.with_full_label l (param s r)) s).

Definition set_value (r : nat) (q : Q) : State store unit :=
  fun s => (inr tt, list_update r (Param.with_value q (param s r)) s).

(** A group: its label, its own parameters ([self._parameters]) and its
    subgroups (the items of the [dict] it is), both in insertion order. *)
#[local] Set Warnings "-register-all".
Inductive t : Type :=
| Group (label : option string) (_parameters : dict nat) (groups : dict t).

Definition label (g : t) : option string :=
  match g with Group l _ _ => l end.
Definition _parameters (g : t) : dict nat :=
  match g with Group _ ps _ => ps end.
Definition groups (g : t) : dict t :=
  match g with Group _ _ gs => gs end.

(** [f"{x}"] for a label that may be [None]. *)
Definition str (l : option string) : string :=
  match l with Some s => s | None => "None" end.

(** The labels and parameters that [all(root, separator)] yields, in the
    order in which it yields them. *)
Fixpoint all_from (root : option string) (separator : string) (g : t)
    : list (string * nat) :=
  match g with
  | Group l parameters subgroups =>
      let root :=
        match root with
        | Some r => r ++ str l ++ separator
        | None => ""
        end in
      (map (fun item => ((root ++ fst item)%string, snd item)) parameters ++
       flat_map (fun item => all_from (Some root) separator (snd item)) subgroups)%list
  end.

Definition all (g : t) : list (string * nat) := all_from None "." g.

(** [for label, parameter in self.all(): body]: the generator sets
    [p.full_label] before it yields the parameter. *)
Fixpoint for_all {A : Type} (items : list (string * nat))
    (body : string -> nat -> A -> State store A) (acc : A) : State store A :=
  match items with
  | [] => mret acc
  | (l, r) :: rest =>
      (set_full_label r l ;;;
       acc <- body l r acc ;;
       for_all rest body acc)%M
  end.

(** [s.split(".")] *)
Fixpoint split_from (current : string) (s : string) : list string :=
  match s with
  | EmptyString => [current]
  | String c rest =>
      if Ascii.eqb c "."%char then current :: split_from "" rest
      else split_from (current ++ String c "") rest
  end.

Definition split (s : string) : list string := split_from "" s.

Fixpoint descend (g : t) (path : list string) : option t :=
  match path with
  | [] => Some g
  | element :: rest =>
      match dict_get element (groups g) with
      | Some sub => descend sub rest
      | None => None
      end
  end.

(** The parameter that [get(label)] finds; [None] stands for
    [ParameterNotFoundException]. *)
Definition find (g : t) (full_label : string) : option nat :=
  let path := split full_label in
  match descend g (removelast path) with
  | Some group => dict_get (last path "") (_parameters group)
  | None => None
  end.

(** [get(label)]; it also rewrites the [full_label] of the parameter. *)
Definition get (g : t) (full_label : string) : State store (option nat) :=
  match find g full_label with
  | Some r => (set_full_label r full_label ;;; mret (Some r))%M
  | None => mret None
  end.

Definition binary (op : Q -> Q -> option Q) (x y : State store (option Q))
    : State store (option Q) :=
  (a <- x ;;
   match a with
   | None => mret None
   | Some a => b <- y ;; match b with None => mret None | Some b => mret (op a b) end
   end)%M.

(** Modelled from the spec: the evaluator bound to the group (the
    interpreter itself is not part of the sources), "a restricted
    arithmetic-expression evaluator whose only bound names are
    [group.get(label).value] lookups".  The evaluator does not raise: an
    expression that cannot be evaluated (a parameter that is not found, a
    division by zero) has the value [None], which
    [update_parameter_expression] rejects. *)
Fixpoint evaluator (g : t) (e : expr) : State store (option Q) :=
  match e with
  | Num q => mret (Some q)
  | Ref l =>
      (found <- get g l ;;
       match found with
       | Some r => p <- get_param r ;; mret (Some (Param.value p))
       | None => mret None
       end)%M
  | Neg a =>
      (x <- evaluator g a ;; mret (option_map Qopp x))%M
  | Add a b => binary (fun x y => Some (x + y)%Q) (evaluator g a) (evaluator g b)
  | Sub a b => binary (fun x y => Some (x - y)%Q) (evaluator g a) (evaluator g b)
  | Mul a b => binary (fun x y => Some (x * y)%Q) (evaluator g a) (evaluator g b)
  | Div a b =>
      binary (fun x y => if Qeq_bool y 0 then None else Some (x / y)%Q)
             (evaluator g a) (evaluator g b)
  end.

Definition update_parameter (g : t) (l : string) (r : nat) (_ : unit)
    : State store unit :=
  (parameter <- get_param r ;;
   match Param.expression parameter with
   | Some e =>
       value <- evaluator g e ;;
       match value with
       | Some q => set_value r q
       | None => mraise ValueError
       end
   | None => mret tt
   end)%M.

Definition update_parameter_expression (g : t) : State store unit :=
  for_all (all g) (update_parameter g) tt.

Section Arrays.

(** [Parameter.get_value_and_bounds_for_optimization], which is not among
    the sources, is a parameter of the development: it maps a parameter
    to its transformed value, lower bound and upper bound, in some type
    [F] of numbers. *)
Variable F : Type.
Variable get_value_and_bounds_for_optimization : Param.t -> F * F * F.

Definition arrays : Type := (list string * list F * list F * list F)%type.

Definition append_parameter (exclude_non_vary : bool) (l : string) (r : nat)
    (acc : arrays) : State store arrays :=
  (parameter <- get_param r ;;
   if negb exclude_non_vary || Param.vary parameter then
     let '(labels, values, lower_bounds, upper_bounds) := acc in
     let '(value, minimum, maximum) :=
       get_value_and_bounds_for_optimization parameter in
     mret (labels ++ [l], values ++ [value],
           lower_bounds ++ [minimum], upper_bounds ++ [maximum])%list
   else mret acc)%M.

(** [get_label_value_and_bounds_arrays(exclude_non_vary)]; the default of
    [exclude_non_vary] is [False]. *)
Definition get_label_value_and_bounds_arrays (g : t) (exclude_non_vary : bool)
    : State store arrays :=
  (update_parameter_expression g ;;;
   for_all (all g) (append_parameter exclude_non_vary) ([], [], [], []))%M.

End Arrays.

End ParameterGroup.

(** ** [ParameterGroup]: labels, copies and the values of the optimizer *)

Module ParameterGroupLabels.
Import ParameterGroup.
Local Open Scope string_scope.

(** [has(label)]: whether [get(label)] finds a parameter; like [get], it
    rewrites the full label of the parameter it finds. *)
Definition has (g : t) (full_label : string) : State store bool :=
  (found <- get g full_label ;;
   match found with
   | Some _ => mret true
   | None => mret false
   end)%M.

(** The labels for which the tests of [Parameter.valid_label] are made all
    lack the separator. *)
Fixpoint no_dot (s : string) : bool :=
  match s with
  | EmptyString => true
  | String c rest => negb (Ascii.eqb c "."%char) && no_dot rest
  end.

Fixpoint distinct (l : list string) : bool :=
  match l with
  | [] => true
  | x :: rest => negb (existsb (String.eqb x) rest) && distinct rest
  end.

(** The shape that [add_parameter] and [add_group] give to a tree whose
    labels contain no separator: the keys of a dictionary are distinct,
    and a subgroup is stored under its own label. *)
Fixpoint well_labelled (g : t) : bool :=
  match g with
  | Group _ parameters subgroups =>
      distinct (keys parameters) &&
      forallb (fun item => no_dot (fst item)) parameters &&
      distinct (keys subgroups) &&
      forallb (fun item =>
                 no_dot (fst item) &&
                 match label (snd item) with
                 | Some l => String.eqb l (fst item)
                 | None => false
                 end &&
                 well_labelled (snd item)) subgroups
  end.

End ParameterGroupLabels.

Module ParameterGroupCopy.
Import ParameterGroup.

Section Copy.

(** [Parameter.valid_label], which decides whether the constructor of
    [ParameterGroup] accepts a label, is not among the sources: it is a
    parameter of the development. *)
Variable valid_label : string -> bool.

(** [ParameterGroup(label=label, root_group=...)]: an empty group, or
    [ValueError] for a label that is not valid. *)
Definition new_group (label : option string) : result t :=
  match label with
  | Some l => if valid_label l then ret (Group label [] []) else raise ValueError
  | None => ret (Group None [] [])
  end.

(** [copy(parameter)]: a new parameter with the attributes of the old one. *)
Definition copy_parameter (r : nat) : State store nat :=
  fun s => (inr (length s), s ++ [param s r]).

Fixpoint copy_parameters (parameters : dict nat) : State store (dict nat) :=
  match parameters with
  | [] => mret []
  | (l, parameter) :: rest =>
      (parameter' <- copy_parameter parameter ;;
       rest' <- copy_parameters rest ;;
       mret ((l, parameter') :: rest'))%M
  end.

(** [copy()]: the new group takes copies of the parameters of the group,
    then copies of its subgroups, in the order of the dictionaries. *)
Fixpoint copy (g : t) : State store t :=
  match g with
  | Group l parameters subgroups =>
      (root <- lift (new_group l) ;;
       parameters' <- copy_parameters parameters ;;
       subgroups' <-
         (fix copy_groups (subgroups : dict t) : State store (dict t) :=
            match subgroups with
            | [] => mret []
            | (k, group) :: rest =>
                group' <- copy group ;;
                rest' <- copy_groups rest ;;
                mret ((k, group') :: rest')
            end) subgroups ;;
       mret (Group (label root) parameters' subgroups'))%M
  end.

(** All the labels of the groups of a tree are valid. *)
Fixpoint labels_valid (g : t) : bool :=
  match g with
  | Group l _ subgroups =>
      match l with Some l => valid_label l | None => true end &&
      forallb (fun item => labels_valid (snd item)) subgroups
  end.

End Copy.

End ParameterGroupCopy.

Module ParameterGroupValues.
Import ParameterGroup.

Section Values.

(** [Parameter.set_value_from_optimization], which is not among the
    sources, is a parameter of the development: from a parameter and a
    value of the optimizer, in some type [F] of numbers, the parameter
    with its new value. *)
Variable F : Type.
Variable set_value_from_optimization : Param.t -> F -> Param.t.

Definition set_parameter (r : nat) (p : Param.t) : State store unit :=
  fun s => (inr tt, list_update r p s).

(** The loop [for label, value in zip(labels, values)]; the result [None]
    stands for the [ParameterNotFoundException] of [get]. *)
Fixpoint set_values (g : t) (items : list (string * F)) : State store (option unit) :=
  match items with
  | [] => mret (Some tt)
  | (l, value) :: rest =>
      (found <- get g l ;;
       match found with
       | Some r =>
           parameter <- get_param r ;;
           set_parameter r (set_value_from_optimization parameter value) ;;;
           set_values g rest
       | None => mret None
       end)%M
  end.

(** [set_from_label_and_value_arrays(labels, values)] *)
Definition set_from_label_and_value_arrays (g : t) (labels : list string)
    (values : list F) : State store (option unit) :=
  if negb (length labels =? length values) then mraise ValueError
  else
    (done <- set_values g (combine labels values) ;;
     match done with
     | Some _ => update_parameter_expression g ;;; mret (Some tt)
     | None => mret None
     end)%M.

End Values.

End ParameterGroupValues.

Module ParameterGroupPaths.
Import ParameterGroup ParameterGroupCopy.

Section Paths.

(** [Parameter.valid_label], as for [ParameterGroupCopy.new_group]. *)
Variable valid_label : string -> bool.

(** The groups of a tree are mutable objects that are reached from the
    group [self]: the tree is the state, and a group is referred to by the
    labels that lead to it from [self].  [update_at cursor f] changes the
    group at [cursor] by [f], in place. *)
Fixpoint update_at (cursor : list string) (f : t -> t) (g : t) : t :=
  match cursor with
  | [] => f g
  | element :: rest =>
      match dict_get element (groups g) with
      | Some sub =>
          Group (label g) (_parameters g)
                (dict_set element (update_at rest f sub) (groups g))
      | None => g
      end
  end.

(** [group_label in group], for the group at [cursor]. *)
Definition contains (cursor : list string) (group_label : string) : State t bool :=
  fun self =>
    (inr match descend self cursor with
         | Some group =>
             match dict_get group_label (groups group) with
             | Some _ => true
             | None => false
             end
         | None => false
         end, self).

(** [group.add_group(new)] for the group at [cursor] and a group [new]
    whose label is [group_label]: [group[new.label] = new]. *)
Definition add_group (cursor : list string) (group_label : string) (new : t)
    : State t unit :=
  fun self =>
    (inr tt,
     update_at cursor
       (fun group =>
          Group (label group) (_parameters group)
                (dict_set group_label new (groups group)))
       self).

(** The loop [while len(path) > 1]; [path] holds the labels that are still
    to be popped and [cursor] refers to [group]. *)
Fixpoint get_group_loop (create_if_not_exist : bool) (path : list string)
    (cursor : list string) : State t (list string) :=
  match path with
  | [] => mret cursor
  | group_label :: rest =>
      (present <- contains cursor group_label ;;
       (if present : bool then mret tt
        else if create_if_not_exist then
          new <- lift (new_group valid_label (Some group_label)) ;;
          add_group cursor group_label new
        else mraise KeyError) ;;;
       get_group_loop create_if_not_exist rest (cursor ++ [group_label]))%M
  end.

(** [get_group_for_parameter_by_label(parameter_label, create_if_not_exist)];
    the result refers to the group that is returned. *)
Definition get_group_for_parameter_by_label (parameter_label : string)
    (create_if_not_exist : bool) : State t (list string) :=
  get_group_loop create_if_not_exist (removelast (split parameter_label)) [].

End Paths.

End ParameterGroupPaths.

(** ** Expressions that only look back

    [refs e] are the labels that [e] refers to.  [ordered g s] holds when
    every expression of the group refers only to parameters that have no
    expression themselves or that come earlier in the order of [all]. *)

Module Expressions.
Import ParameterGroup.

Fixpoint refs (e : expr) : list string :=
  match e with
  | Num _ => []
  | Ref l => [l]
  | Neg a => refs a
  | Add a b | Sub a b | Mul a b | Div a b => refs a ++ refs b
  end.

Definition is_none {A : Type} (o : option A) : bool :=
  match o with None => true | Some _ => false end.

Definition ref_ok (g : t) (s : store) (earlier : list nat) (l : string) : bool :=
  match find g l with
  | None => true
  | Some r => is_none (Param.expression (param s r)) || existsb (Nat.eqb r) earlier
  end.

Fixpoint ordered_from (g : t) (s : store) (earlier : list nat)
    (items : list (string * nat)) : bool :=
  match items with
  | [] => true
  | (_, r) :: rest =>
      match Param.expression (param s r) with
      | Some e => forallb (ref_ok g s earlier) (refs e)
      | None => true
      end && ordered_from g s (earlier ++ [r]) rest
  end.

Definition ordered (g : t) (s : store) : Prop :=
  ordered_from g s [] (all g) = true.

(** The parameters of the tree are in the store. *)
Definition in_store (g : t) (s : store) : Prop :=
  forall l r, In (l, r) (all g) -> r < length s.

End Expressions.

(** ** The non-negative transformation, on real numbers

    [Parameter.get_value_and_bounds_for_optimization] and
    [Parameter.set_value_from_optimization] belong to the class
    [Parameter], which is missing from the sources.  The numbers are the
    real numbers here, without rounding. *)

Module NonNegative.
Local Open Scope R_scope.

(** Modelled from the spec: the fields of a [Parameter] that the
    transformation reads and writes. *)
Record parameter : Type := {
  value : R;
  minimum : bound R;
  maximum : bound R;
  non_negative : bool
}.

(** Modelled from the spec: the transform of a bound; an infinite bound
    stays infinite. *)
Definition log_bound (b : bound R) : bound R :=
  match b with
  | finite x => finite (ln x)
  | neg_inf => neg_inf
  | pos_inf => pos_inf
  end.

(** Modelled from the spec: [Parameter.get_value_and_bounds_for_optimization].
    "[non_negative] applies a monotone transform (e.g. log-space) between
    the stored physical value and the value exposed to the optimizer,
    applied consistently on read and write paths": reading takes the
    logarithm of the value and of its bounds. *)
Definition get_value_and_bounds_for_optimization (p : parameter)
    : R * bound R * bound R :=
  if non_negative p
  then (ln (value p), log_bound (minimum p), log_bound (maximum p))
  else (value p, minimum p, maximum p).

(** Modelled from the spec: [Parameter.set_value_from_optimization], the
    write path of the same transform: writing takes the exponential. *)
Definition set_value_from_optimization (p : parameter) (x : R) : parameter :=
  {| value := if non_negative p then exp x else x;
     minimum := minimum p; maximum := maximum p;
     non_negative := non_negative p |}.

End NonNegative.

(** ** Relations between conditionally linear parameters

    The reducer, the linear solve and the reconstruction of the
    optimization group are in modules that are missing from the sources
    (only [test_relations.py] is there). *)

Module Relations.


(** Modelled from the spec: the lower end of a range is at or below [x]. *)
Definition below (b : bound Z) (x : Z) : bool :=
  match b with
  | neg_inf => true
  | finite lo => (lo <=? x)%Z
  | pos_inf => false
  end.

(** Modelled from the spec: the upper end of a range is at or above [x]. *)
Definition above (b : bound Z) (x : Z) : bool :=
  match b with
  | neg_inf => false
  | finite hi => (x <=? hi)%Z
  | pos_inf => true
  end.


(** Modelled from the spec: the types of a constraint, "{type: Zero|Only,
    target: CLP label, interval: ordered sequence of [low, high]
    ranges}". *)
Inductive ConstraintType : Type := Zero | Only.

Record Constraint : Type := {
  constraint_type : ConstraintType;
  constraint_target : string;
  constraint_interval : list (bound Z * bound Z)
}.

(** Modelled from the spec: whether the interval of a constraint contains
    the value [x] of the global axis. *)
Definition constraint_applies (c : Constraint) (x : Z) : bool :=
  existsb (fun range => below (fst range) x && above (snd range) x)
          (constraint_interval c).

Section Reducer.

(** The columns of a matrix, the current values of the parameters and the
    linear solver are parameters of the model; the solver gives, for the
    columns of a matrix and the data, the estimate for the column at each
    position. *)
Variable column : Type.
Variable parameters : string -> Q.
Variable solve : list column -> list Q -> nat -> Q.

(** Modelled from the spec: a CLP matrix, "{clp_labels: ordered sequence
    of string (unique), matrix: 2-D array}": for each label its column. *)
Definition Matrix : Type := list (string * column).

(** Modelled from the spec: the labels of a matrix. *)
Definition clp_labels (m : Matrix) : list string := map fst m.

(** Modelled from the spec: "Remove corresponding columns from the
    matrix"; a label that is not in the matrix is a no-op. *)
Definition without (labels : list string) (m : Matrix) : Matrix :=
  filter (fun entry => negb (existsb (String.eqb (fst entry)) labels)) m.

(** Modelled from the spec: "collect all Zero/Only constraints whose
    interval contains it; compute the set of CLP labels to drop (Zero:
    just [target]; Only: complement of [target] within the label
    set)". *)
Definition constrained (constraints : list Constraint) (x : Z)
    (labels : list string) : list string :=
  flat_map (fun c =>
              match constraint_type c with
              | Zero => [constraint_target c]
              | Only =>
                  filter (fun l => negb (String.eqb l (constraint_target c))) labels
              end)
           (filter (fun c => constraint_applies c x) constraints).

(** Modelled from the spec: the first step of the reducer. *)
Definition apply_constraints (constraints : list Constraint) (x : Z) (m : Matrix)
    : Matrix :=
  without (constrained constraints x (clp_labels m)) m.








End Reducer.

End Relations.

(** ** Vocabulary of the properties *)

Section AlignmentVocabulary.
Import DataProviderLinked.
Local Open Scope Z_scope.

(** The elements of the target axis among which a method searches: those
    at or above the value for "forward", those at or below it for
    "backward", all of them for "nearest". *)
Definition candidate (method : link_method) (index a : Z) : Prop :=
  match method with
  | forward => index <= a
  | backward => a <= index
  | nearest => True
  end.

(** What is asked of [align_index], in the words of its specification:
    [aligned] is a candidate of the target axis that minimizes the
    distance to [index] whenever some candidate lies within the tolerance,
    and it is [index] itself when no candidate does. *)
Definition closest_within (method : link_method) (index : Z) (target_axis : list Z)
    (tolerance : Z) (aligned : Z) : Prop :=
  ((exists a, In a target_axis /\ candidate method index a /\
              Z.abs (a - index) <= tolerance) ->
   In aligned target_axis /\ candidate method index aligned /\
   Z.abs (aligned - index) <= tolerance /\
   forall a, In a target_axis -> candidate method index a ->
             Z.abs (aligned - index) <= Z.abs (a - index)) /\
  ((forall a, In a target_axis -> candidate method index a ->
              tolerance < Z.abs (a - index)) ->
   aligned = index).

End AlignmentVocabulary.

Section StoreVocabulary.

(** Either the accumulated index is still one of the operands met so far,
    all the others being empty or equal to it, or a proper union was taken
    and the index is sorted. *)
Definition kept_or_sorted (acc : list Z) (seen : list (list Z)) : Prop :=
  (In acc seen /\ forall a, In a seen -> a = [] \/ a = acc) \/
  (StronglySorted Z.lt acc /\ acc <> []).

(** The buffers below [n] are the same in [w'] as in [w]. *)
Definition unchanged_below (n : nat) (w w' : world) : Prop :=
  length (buffers w) <= length (buffers w') /\
  firstn n (buffers w') = firstn n (buffers w).

(** From a store with at least [n] buffers, [m] changes none of the first
    [n] buffers, whether it returns or raises, and what it returns
    satisfies [R]. *)
Definition safe {A : Type} (n : nat) (m : M A) (R : A -> Prop) : Prop :=
  forall w, n <= length (buffers w) ->
    unchanged_below n w (snd (m w)) /\
    match fst (m w) with inr a => R a | inl _ => True end.

End StoreVocabulary.

Section ViewVocabulary.

(** The shape and the elements of the array that is seen through the view
    [r] in the store [w], read in the buffer of the view: a transposed
    view has the columns of the buffer as its rows. *)
Definition view_nrow (w : world) (r : ref) : nat :=
  if transposed r then ndarray.ncol (buffer w (base r))
  else ndarray.nrow (buffer w (base r)).

Definition view_ncol (w : world) (r : ref) : nat :=
  if transposed r then ndarray.nrow (buffer w (base r))
  else ndarray.ncol (buffer w (base r)).

Definition view_item (w : world) (r : ref) (i j : nat) : Q :=
  if transposed r then ndarray.item (buffer w (base r)) j i
  else ndarray.item (buffer w (base r)) i j.

(** The rows of the array seen through [r], as lists. *)
Definition view_rows (w : world) (r : ref) : list (list Q) :=
  map (fun i => map (fun j => view_item w r i j) (seq 0 (view_ncol w r)))
      (seq 0 (view_nrow w r)).

End ViewVocabulary.

Section DataProviderVocabulary.
Import DataProvider.
Local Open Scope string_scope.

(** The arrays held by [self'] are those held by [self] or were created
    at or above [n]. *)
Definition grown (n : nat) (self self' : DataProvider.t) : Prop :=
  (forall l r, In (l, r) (_data self') -> In (l, r) (_data self) \/ n <= base r) /\
  (forall l r, In (l, Some r) (_weight self') ->
               In (l, Some r) (_weight self) \/ n <= base r).

(** The arrays of the datasets of the scheme exist in the store. *)
Definition stored (scheme : Scheme) (w : world) : Prop :=
  forall label dataset name variable,
    In (label, dataset) (scheme_data scheme) ->
    In (name, variable) (variables dataset) ->
    base (data variable) < length (buffers w).

(** The data kept for [label], in the store [w'], is the variable "data"
    of the dataset as it reads in the store [w0], with the model dimension
    first, multiplied by the weight kept for [label] if there is one;
    there is none exactly when neither the dataset nor the model has a
    weight for [label]. *)
Definition prepared (scheme : Scheme) (w0 : world) (label : string)
    (dataset_model : DatasetModel) (self : DataProvider.t) (w' : world) : Prop :=
  exists dataset variable global_dimension r weight,
    dict_get label (scheme_data scheme) = Some dataset /\
    dict_get "data" (variables dataset) = Some variable /\
    infer_global_dimension (get_model_dimension dataset_model) (dims variable) =
      inr global_dimension /\
    get_data self label = inr r /\
    get_weight self label = inr weight /\
    base r < length (buffers w') /\
    (forall weight', weight = Some weight' -> base weight' < length (buffers w')) /\
    (weight = None <->
     dict_get "weight" (variables dataset) = None /\
     filter (targets label) (weights scheme) = []) /\
    let raw := contents w0 (data variable) in
    let raw :=
      if dims_eqb (dims variable) (get_model_dimension dataset_model, global_dimension)
      then raw else ndarray.T raw in
    contents w' r =
      match weight with
      | Some weight => ndarray.multiply raw (contents w' weight)
      | None => raw
      end.

End DataProviderVocabulary.

Section ParameterVocabulary.
Import ParameterGroup Expressions.
Local Open Scope string_scope.

(** [s'] differs from [s] at most in the full labels. *)
Definition relabelled (s s' : store) : Prop :=
  length s' = length s /\
  forall r, Param.with_full_label "" (param s' r) = Param.with_full_label "" (param s r).

(** [s] has the expressions and flags of [s0], and the values of [s0] for
    the parameters without expression. *)
Definition static (s0 s : store) : Prop :=
  length s = length s0 /\
  forall r,
    Param.expression (param s r) = Param.expression (param s0 r) /\
    Param._vary (param s r) = Param._vary (param s0 r) /\
    (Param.expression (param s0 r) = None ->
     Param.value (param s r) = Param.value (param s0 r)).

(** The parameters [done] have the value of their expression in [s]. *)
Definition settled (g : ParameterGroup.t) (s0 : store) (done : list nat) (s : store)
    : Prop :=
  forall r e,
    In r done -> Param.expression (param s0 r) = Some e ->
    forallb (ref_ok g s0 done) (refs e) = true /\
    fst (evaluator g e s) = inr (Some (Param.value (param s r))).

(** [s'] has the expressions and flags of [s], and as many parameters. *)
Definition same_flags (s s' : store) : Prop :=
  length s' = length s /\
  forall r,
    Param.expression (param s' r) = Param.expression (param s r) /\
    Param._vary (param s' r) = Param._vary (param s r).

(** The parameter that the loop of [get_label_value_and_bounds_arrays]
    reads for an item of [all], in terms of the store [s]. *)
Definition read_item (s : store) (item : string * nat) : Param.t :=
  Param.with_full_label (fst item) (param s (snd item)).

Definition extend {F : Type} (transform : Param.t -> F * F * F) (s : store)
    (acc : arrays F) (selected : list (string * nat)) : arrays F :=
  let '(labels, values, lower_bounds, upper_bounds) := acc in
  (labels ++ map fst selected,
   values ++ map (fun item => fst (fst (transform (read_item s item)))) selected,
   lower_bounds ++ map (fun item => snd (fst (transform (read_item s item)))) selected,
   upper_bounds ++ map (fun item => snd (transform (read_item s item))) selected)%list.

Definition selects (exclude_non_vary : bool) (s : store) (item : string * nat) : bool :=
  negb exclude_non_vary ||
  (Param._vary (param s (snd item)) && is_none (Param.expression (param s (snd item)))).

End ParameterVocabulary.

Section ModelWeightVocabulary.
Import DataProvider.

(** Whether the position [i] of [axis] lies in the slice that a model
    weight takes for [interval]; without interval the whole axis is
    taken. *)
Definition selected (interval : option (bound Z * bound Z)) (axis : list Z) (i : nat)
    : bool :=
  match interval with
  | None => (i <? length axis)%nat
  | Some interval =>
      match get_axis_slice_from_interval interval axis with
      | inr sl =>
          let (start, stop) := slice_indices sl (length axis) in
          ((start <=? i) && (i <? stop))%nat
      | inl _ => false
      end
  end.

(** The product of the values of the model weights whose slices contain
    the position [(i, j)], taken in the order of the weights. *)
Definition model_weight_at (model_axis global_axis : list Z)
    (model_weights : list Weight) (i j : nat) : Q :=
  fold_left
    (fun acc model_weight =>
       if selected (model_interval model_weight) model_axis i &&
          selected (global_interval model_weight) global_axis j
       then (acc * value model_weight)%Q else acc)
    model_weights 1%Q.

End ModelWeightVocabulary.

Section ProviderEntriesVocabulary.
Import DataProvider.

(** The two providers hold the same entries for [label], in each of the
    eight dictionaries. *)
Definition same_entries (label : string) (a b : DataProvider.t) : Prop :=
  dict_get label (_data a) = dict_get label (_data b) /\
  dict_get label (_weight a) = dict_get label (_weight b) /\
  dict_get label (_flattened_data a) = dict_get label (_flattened_data b) /\
  dict_get label (_flattened_weight a) = dict_get label (_flattened_weight b) /\
  dict_get label (_model_axes a) = dict_get label (_model_axes b) /\
  dict_get label (_model_dimensions a) = dict_get label (_model_dimensions b) /\
  dict_get label (_global_axes a) = dict_get label (_global_axes b) /\
  dict_get label (_global_dimensions a) = dict_get label (_global_dimensions b).

End ProviderEntriesVocabulary.

Section AlignedVocabulary.
Import DataProviderLinked.

(** Whether the aligned global axis of a dataset has the coordinate [x]. *)
Definition has_coordinate (x : Z) (item : string * list Z) : bool :=
  existsb (Z.eqb x) (snd item).

(** The datasets of the group that have the coordinate [x], in the order
    of the group. *)
Definition datasets_at (x : Z) (aligned_global_axes : dict (list Z)) : dict (list Z) :=
  filter (has_coordinate x) aligned_global_axes.

(** The array that the provider holds as the data of a dataset, read in
    the store [w]. *)
Definition data_of (w : world) (self : DataProvider.t) (label : string) : ndarray.t :=
  match DataProvider.get_data self label with
  | inr data => contents w data
  | inl _ => empty_array
  end.

(** The column [k] of the data that the provider holds for a dataset,
    read element by element in the store [w]. *)
Definition data_column (w : world) (self : DataProvider.t) (label : string)
    (k : nat) : list Q :=
  match DataProvider.get_data self label with
  | inr data => map (fun i => view_item w data i k) (seq 0 (view_nrow w data))
  | inl _ => []
  end.

End AlignedVocabulary.

Section AlignedWeightVocabulary.
Import DataProvider DataProviderLinked.

(** Whether the provider holds a weight for the dataset. *)
Definition has_weight (self : DataProvider.t) (label : string) : bool :=
  match DataProvider.get_weight self label with
  | inr (Some _) => true
  | _ => false
  end.

(** What a dataset brings to the aligned weight of a coordinate that is at
    the position [k] of its global axis: the column [k] of its weight,
    read element by element in the store [w]; for a dataset without
    weight, ones for the length of its model axis. *)
Definition weight_column (w : world) (self : DataProvider.t) (label : string)
    (k : nat) : list Q :=
  match DataProvider.get_weight self label with
  | inr (Some weight) =>
      map (fun i => view_item w weight i k) (seq 0 (view_nrow w weight))
  | _ =>
      repeat 1%Q
        (length match DataProviderGetters.get_model_axis self label with
                | inr model_axis => model_axis
                | inl _ => []
                end)
  end.

End AlignedWeightVocabulary.

(** ** Examples *)

Section Examples.
Local Open Scope string_scope.

Definition two_datasets : dict (list Z) :=
  [("dataset1", [1; 5]%Z); ("dataset2", [2; 6; 9]%Z)].

End Examples.

Section DataProviderExampleData.
Import DataProvider.
Local Open Scope string_scope.

(** A store with a 2 x 2 array of data and a 2 x 2 array of weights. *)
Definition example_store : world :=
  {| buffers := [ndarray.of_rows [[2; 3]; [4; 5]]%Q;
                 ndarray.of_rows [[1 # 2; 1]; [1; 1]]%Q];
     warnings := [] |}.

Definition example_dataset (with_weight : bool) : Dataset :=
  {| variables :=
       ("data", {| dims := ("time", "spectral");
                   data := {| base := 0; transposed := false |} |}) ::
       (if with_weight
        then [("weight", {| dims := ("time", "spectral");
                            data := {| base := 1; transposed := false |} |})]
        else []);
     coords := [("time", [0; 1]%Z); ("spectral", [10; 20]%Z)] |}.

Definition example_weight : Weight :=
  {| datasets := ["dataset1"];
     global_interval := Some (finite 15%Z, pos_inf);
     model_interval := None;
     value := 3%Q |}.

Definition example_scheme (with_weight : bool) (model_weights : list Weight) : Scheme :=
  {| weights := model_weights;
     scheme_data := [("dataset1", example_dataset with_weight)];
     clp_link_tolerance := 0;
     clp_link_method := nearest |}.

Definition example_models : dict DatasetModel :=
  [("dataset1", {| get_model_dimension := "time"; has_global_model := false |})].

(** Two datasets with the global axes [1; 5] and [2; 6; 9], linked with
    the tolerance 1. *)
Definition linked_store : world :=
  {| buffers := [ndarray.of_rows [[2; 3]; [4; 5]]%Q;
                 ndarray.of_rows [[1; 2; 3]; [4; 5; 6]]%Q];
     warnings := [] |}.

Definition linked_dataset (buffer : nat) (global_axis : list Z) : Dataset :=
  {| variables :=
       [("data", {| dims := ("time", "spectral");
                    data := {| base := buffer; transposed := false |} |})];
     coords := [("time", [0; 1]%Z); ("spectral", global_axis)] |}.

Definition linked_scheme : Scheme :=
  {| weights := [];
     scheme_data := [("dataset1", linked_dataset 0 [1; 5]%Z);
                     ("dataset2", linked_dataset 1 [2; 6; 9]%Z)];
     clp_link_tolerance := 1;
     clp_link_method := nearest |}.

Definition linked_models : dict DatasetModel :=
  [("dataset1", {| get_model_dimension := "time"; has_global_model := false |});
   ("dataset2", {| get_model_dimension := "time"; has_global_model := false |})].

(** A single dataset whose global axis is decreasing. *)
Definition decreasing_scheme : Scheme :=
  {| weights := [];
     scheme_data := [("dataset1", linked_dataset 0 [5; 1]%Z)];
     clp_link_tolerance := 0;
     clp_link_method := nearest |}.

End DataProviderExampleData.

Section ParameterExampleData.
Import ParameterGroup.
Local Open Scope string_scope.

Definition parameter (l : string) (v : Q) (e : option expr) : Param.t :=
  {| Param.label := l; Param.full_label := l; Param.value := v;
     Param.minimum := neg_inf; Param.maximum := pos_inf; Param._vary := true;
     Param.non_negative := false; Param.expression := e |}.

(** The parameters of [test_parameter_expressions_groups]:
    b.1 = 0.25, b.2 = 1 - $b.1, rates.total = 2,
    rates.branch1 = $rates.total * $b.1, rates.branch2 = $rates.total * $b.2.
    The parameters with an expression start with the value 0. *)
Definition branching_store : store :=
  [parameter "1" (1 # 4) None;
   parameter "2" 0 (Some (Sub (Num 1) (Ref "b.1")));
   parameter "total" 2 None;
   parameter "branch1" 0 (Some (Mul (Ref "rates.total") (Ref "b.1")));
   parameter "branch2" 0 (Some (Mul (Ref "rates.total") (Ref "b.2")))].

Definition branching : ParameterGroup.t :=
  Group None []
    [("b", Group (Some "b") [("1", 0); ("2", 1)] []);
     ("rates", Group (Some "rates") [("total", 2); ("branch1", 3); ("branch2", 4)] [])].

(** The transformation of a parameter that is not [non_negative]. *)
Definition plain_bounds (p : Param.t) : bound Q * bound Q * bound Q :=
  (finite (Param.value p), Param.minimum p, Param.maximum p).

End ParameterExampleData.

Section RelationExampleData.
Import Relations.
Local Open Scope string_scope.











End RelationExampleData.

Section ExtraExampleData.
Import DataProvider.
Local Open Scope string_scope.

(** A provider that knows the axes of "dataset1", which brings no weight. *)
Definition unweighted_provider : DataProvider.t :=
  set_weight (set_axes empty "dataset1" "time" [0; 1]%Z "spectral" [10; 20]%Z)
             [("dataset1", None)].

(** The dataset model of [example_models], with a global model. *)
Definition global_models : dict DatasetModel :=
  [("dataset1", {| get_model_dimension := "time"; has_global_model := true |})].

(** A write path for the read path [plain_bounds]. *)
Definition plain_value (p : Param.t) (x : bound Q) : Param.t :=
  match x with
  | finite v => Param.with_value v p
  | _ => p
  end.

End ExtraExampleData.

Section AlignedWeightExampleData.
Import DataProvider.
Local Open Scope string_scope.

(** The store of [linked_store] with a 2 x 2 array of weights. *)
Definition weighted_store : world :=
  {| buffers := [ndarray.of_rows [[2; 3]; [4; 5]]%Q;
                 ndarray.of_rows [[1; 2; 3]; [4; 5; 6]]%Q;
                 ndarray.of_rows [[1 # 2; 1]; [1; 1 # 4]]%Q];
     warnings := [] |}.

(** The first dataset of [linked_scheme], with a weight. *)
Definition weighted_dataset : Dataset :=
  {| variables :=
       [("data", {| dims := ("time", "spectral");
                    data := {| base := 0; transposed := false |} |});
        ("weight", {| dims := ("time", "spectral");
                      data := {| base := 2; transposed := false |} |})];
     coords := [("time", [0; 1]%Z); ("spectral", [1; 5]%Z)] |}.

Definition weighted_scheme : Scheme :=
  {| weights := [];
     scheme_data := [("dataset1", weighted_dataset);
                     ("dataset2", linked_dataset 1 [2; 6; 9]%Z)];
     clp_link_tolerance := 1;
     clp_link_method := nearest |}.

End AlignedWeightExampleData.

Section TransposedExampleData.
Import DataProvider.
Local Open Scope string_scope.

(** A dataset whose arrays are stored with the global dimension first:
    3 x 2 data and a 3 x 2 weight, for the model axis [0; 1] and the
    global axis [10; 20; 30]. *)
Definition transposed_store : world :=
  {| buffers := [ndarray.of_rows [[2; 3]; [4; 5]; [6; 7]]%Q;
                 ndarray.of_rows [[3; 1]; [1; 1]; [1; 2]]%Q];
     warnings := [] |}.

Definition transposed_dataset : Dataset :=
  {| variables :=
       [("data", {| dims := ("spectral", "time");
                    data := {| base := 0; transposed := false |} |});
        ("weight", {| dims := ("spectral", "time");
                      data := {| base := 1; transposed := false |} |})];
     coords := [("time", [0; 1]%Z); ("spectral", [10; 20; 30]%Z)] |}.

Definition transposed_scheme : Scheme :=
  {| weights := [];
     scheme_data := [("dataset1", transposed_dataset)];
     clp_link_tolerance := 0;
     clp_link_method := nearest |}.

End TransposedExampleData.

(** * Properties *)

Section NumpyFacts.
Local Open Scope Z_scope.

Lemma insert_sorted_In x y l :
  In y (np.insert_sorted x l) <-> y = x \/ In y l.
Proof.
  induction l as [|z l IH]; simpl.
  - intuition.
  - destruct (Z.compare_spec x z); simpl.
    + subst; intuition.
    + intuition.
    + rewrite IH; intuition.
Qed.

Lemma unique_In x l : In x (np.unique l) <-> In x l.
Proof.
  induction l as [|y l IH]; simpl; [tauto|].
  rewrite insert_sorted_In, IH. intuition.
Qed.

Lemma insert_sorted_sorted x l :
  StronglySorted Z.lt l -> StronglySorted Z.lt (np.insert_sorted x l).
Proof.
  induction 1 as [|y l Hs IH Hall]; simpl.
  - repeat constructor.
  - destruct (Z.compare_spec x y).
    + subst. now constructor.
    + constructor; [now constructor|].
      constructor; [assumption|].
      rewrite Forall_forall in *. intros z Hz. specialize (Hall z Hz). lia.
    + constructor; [assumption|].
      rewrite Forall_forall in *. intros z Hz.
      apply insert_sorted_In in Hz. destruct Hz as [->|Hz]; [lia|auto].
Qed.

Lemma unique_sorted l : StronglySorted Z.lt (np.unique l).
Proof.
  induction l; simpl; [constructor|now apply insert_sorted_sorted].
Qed.

Lemma strongly_sorted_NoDup l : StronglySorted Z.lt l -> NoDup l.
Proof.
  induction 1 as [|y l Hs IH Hall]; constructor; [|assumption].
  intros Hin. rewrite Forall_forall in Hall. specialize (Hall y Hin). lia.
Qed.

Lemma unique_NoDup l : NoDup (np.unique l).
Proof. apply strongly_sorted_NoDup, unique_sorted. Qed.

Lemma insert_sorted_length_in x l :
  StronglySorted Z.lt l -> In x l ->
  length (np.insert_sorted x l) = length l.
Proof.
  induction 1 as [|y l Hs IH Hall]; simpl; [tauto|].
  intros [->|Hin].
  - now rewrite Z.compare_refl.
  - rewrite Forall_forall in Hall. specialize (Hall x Hin).
    destruct (Z.compare_spec x y); try lia. simpl. now rewrite IH.
Qed.

Lemma insert_sorted_length_notin x l :
  ~ In x l -> length (np.insert_sorted x l) = S (length l).
Proof.
  induction l as [|y l IH]; simpl; [reflexivity|].
  intros Hn. destruct (Z.compare_spec x y); simpl.
  - subst. tauto.
  - reflexivity.
  - rewrite IH; tauto.
Qed.

Lemma unique_length_le l : (length (np.unique l) <= length l)%nat.
Proof.
  induction l as [|x l IH]; simpl; [lia|].
  destruct (in_dec Z.eq_dec x (np.unique l)) as [Hin|Hn].
  - rewrite insert_sorted_length_in; auto using unique_sorted.
  - rewrite insert_sorted_length_notin; auto. lia.
Qed.

(** The test [len(np.unique(a)) != len(a)] of the code detects exactly the
    arrays with a repeated value. *)
Lemma unique_length_NoDup l :
  length (np.unique l) = length l <-> NoDup l.
Proof.
  induction l as [|x l IH]; simpl.
  - split; [constructor|reflexivity].
  - pose proof (unique_length_le l) as Hle.
    rewrite NoDup_cons_iff, <- IH.
    destruct (in_dec Z.eq_dec x (np.unique l)) as [Hin|Hn].
    + rewrite insert_sorted_length_in; auto using unique_sorted.
      rewrite unique_In in Hin. split; [lia|tauto].
    + rewrite insert_sorted_length_notin; auto.
      rewrite unique_In in Hn. split; [split; [assumption|lia]|intros [_ ->]; reflexivity].
Qed.

Lemma fold_min_le l : forall b,
  fold_left Z.min l b <= b /\ forall y, In y l -> fold_left Z.min l b <= y.
Proof.
  induction l as [|x l IH]; intros b; simpl; [split; [lia|tauto]|].
  destruct (IH (Z.min b x)) as [H1 H2]. split; [lia|].
  intros y [<-|Hy]; [lia|auto].
Qed.

Lemma fold_min_In l : forall b,
  fold_left Z.min l b = b \/ In (fold_left Z.min l b) l.
Proof.
  induction l as [|x l IH]; intros b; simpl; [now left|].
  destruct (IH (Z.min b x)) as [H|H]; [|now right; right].
  rewrite H. destruct (Z.min_spec b x) as [[_ ->]|[_ ->]]; auto.
Qed.

Lemma amin_spec l m :
  np.amin l = inr m -> In m l /\ forall y, In y l -> m <= y.
Proof.
  destruct l as [|x l]; [discriminate|]. intros [= <-].
  destruct (fold_min_le l x) as [H1 H2]. split.
  - destruct (fold_min_In l x) as [->|H]; simpl; auto.
  - intros y [<-|Hy]; auto.
Qed.

Lemma argmin_from_spec l : forall pre best_i best,
  nth_error pre best_i = Some best ->
  nth_error (pre ++ l) (np.argmin_from best_i best (length pre) l) =
  Some (fold_left Z.min l best).
Proof.
  induction l as [|x l IH]; intros pre best_i best Hbest; simpl.
  - rewrite app_nil_r. exact Hbest.
  - replace (pre ++ x :: l) with ((pre ++ [x]) ++ l) by (now rewrite <- app_assoc).
    replace (S (length pre)) with (length (pre ++ [x])) by (rewrite length_app; simpl; lia).
    destruct (Z.ltb_spec x best).
    + rewrite Z.min_r by lia. apply IH.
      rewrite nth_error_app2, Nat.sub_diag by lia. reflexivity.
    + rewrite Z.min_l by lia. apply IH.
      rewrite nth_error_app1; [assumption|]. apply nth_error_Some. congruence.
Qed.

(** [argmin] is a position of the minimum. *)
Lemma argmin_spec l j :
  np.argmin l = inr j -> exists m, np.amin l = inr m /\ nth_error l j = Some m.
Proof.
  destruct l as [|x l]; [discriminate|]. intros [= <-].
  exists (fold_left Z.min l x). split; [reflexivity|].
  apply (argmin_from_spec l [x] 0%nat x). reflexivity.
Qed.

End NumpyFacts.

Section DictFacts.
Context {V : Type}.

Lemma dict_set_fresh (k : string) (v : V) (d : dict V) :
  ~ In k (keys d) -> dict_set k v d = d ++ [(k, v)].
Proof.
  induction d as [|[k' v'] d IH]; simpl; [reflexivity|].
  intros Hn. destruct (String.eqb_spec k k') as [->|Hne]; [tauto|].
  rewrite IH; tauto.
Qed.

End DictFacts.

Section Alignment.
Import DataProviderLinked.
Local Open Scope Z_scope.

Variables (tolerance : Z) (method : link_method).

Lemma align_loop_app pre post st :
  align_loop tolerance method (pre ++ post) st =
  match align_loop tolerance method pre st with
  | inl e => inl e
  | inr st' => align_loop tolerance method post st'
  end.
Proof.
  revert st. induction pre as [|item pre IH]; intros st; simpl; [reflexivity|].
  destruct (align_step tolerance method st item); [reflexivity|apply IH].
Qed.

(** One iteration of the loop once the shared coordinates exist: it either
    raises [AlignDatasetError], or stores an aligned axis without repeated
    values. *)
Lemma align_step_some st axis_values label global_axis :
  aligned_axis_values st = Some axis_values ->
  let aligned :=
    map (fun index => align_index index axis_values tolerance method) global_axis in
  (~ NoDup aligned /\
   align_step tolerance method st (label, global_axis) = inl AlignDatasetError)
  \/
  (NoDup aligned /\
   align_step tolerance method st (label, global_axis) =
   inr {| aligned_axis_values := Some (np.unique (axis_values ++ aligned));
          aligned_global_axes := dict_set label aligned (aligned_global_axes st) |}).
Proof.
  intros Hv aligned. unfold align_step. rewrite Hv. fold aligned.
  destruct (Nat.eqb_spec (length (np.unique aligned)) (length aligned)) as [E|E];
    simpl; rewrite unique_length_NoDup in E; [right|left]; split; auto.
Qed.

Lemma align_loop_some items : forall st st' axis_values,
  aligned_axis_values st = Some axis_values ->
  NoDup (keys items) ->
  (forall k, In k (keys items) -> ~ In k (keys (aligned_global_axes st))) ->
  align_loop tolerance method items st = inr st' ->
  exists new,
    aligned_global_axes st' = aligned_global_axes st ++ new /\
    keys new = keys items /\
    Forall (fun entry => NoDup (snd entry)) new.
Proof.
  induction items as [|[label global_axis] items IH]; intros st st' vals Hv Hnd Hfresh Hrun.
  - simpl in Hrun. inversion Hrun; subst. exists []. rewrite app_nil_r. auto.
  - cbn [align_loop] in Hrun.
    destruct (align_step_some st vals label global_axis Hv) as [[_ E]|[Hal E]];
      rewrite E in Hrun; [discriminate|].
    simpl in Hnd. apply NoDup_cons_iff in Hnd. destruct Hnd as [Hnotin Hnd].
    rewrite dict_set_fresh in Hrun by (apply Hfresh; simpl; auto).
    eapply IH in Hrun; [| reflexivity | assumption |].
    + destruct Hrun as (new & Hd & Hk & Hall). simpl in Hd.
      eexists. split; [rewrite Hd, <- app_assoc; reflexivity|].
      split; simpl; [now rewrite Hk|]. constructor; assumption.
    + simpl. intros k Hk Hin. unfold keys in Hin. rewrite map_app in Hin.
      apply in_app_or in Hin. destruct Hin as [Hin|Hin].
      * apply (Hfresh k); simpl; auto.
      * simpl in Hin. destruct Hin as [<-|[]]. contradiction.
Qed.

Lemma create_aligned_global_axes_success (global_axes : dict (list Z)) res :
  NoDup (keys global_axes) ->
  create_aligned_global_axes tolerance method global_axes = inr res ->
  keys res = keys global_axes /\
  nth_error res 0 = nth_error global_axes 0 /\
  (forall k label aligned,
     nth_error res (S k) = Some (label, aligned) -> NoDup aligned).
Proof.
  intros Hnd Hres. unfold create_aligned_global_axes in Hres.
  destruct (align_loop tolerance method global_axes align_init) as [e|st] eqn:Hrun;
    [discriminate|]. inversion Hres; subst res; clear Hres.
  destruct global_axes as [|[label0 axis0] others].
  - simpl in Hrun. inversion Hrun; subst. simpl. repeat split; auto.
    intros k label aligned H. destruct k; discriminate.
  - simpl in Hrun. simpl in Hnd. apply NoDup_cons_iff in Hnd.
    destruct Hnd as [Hnotin Hnd].
    eapply align_loop_some in Hrun; [| reflexivity | assumption |].
    + destruct Hrun as (new & Hd & Hk & Hall). simpl in Hd. rewrite Hd.
      simpl. repeat split; [now rewrite Hk|].
      intros k label aligned Hnth. rewrite Forall_forall in Hall.
      apply nth_error_In in Hnth. apply (Hall _ Hnth).
    + simpl. intros k Hk [<-|[]]. contradiction.
Qed.

Lemma create_aligned_global_axes_ambiguous
    pre label axis post st axis_values i j x y :
  align_loop tolerance method pre align_init = inr st ->
  aligned_axis_values st = Some axis_values ->
  nth_error axis i = Some x -> nth_error axis j = Some y -> i <> j ->
  align_index x axis_values tolerance method =
  align_index y axis_values tolerance method ->
  create_aligned_global_axes tolerance method (pre ++ (label, axis) :: post) =
  inl AlignDatasetError.
Proof.
  intros Hpre Hv Hi Hj Hij Heq.
  unfold create_aligned_global_axes. rewrite align_loop_app, Hpre.
  cbn [align_loop].
  destruct (align_step_some st axis_values label axis Hv) as [[_ E]|[Hal _]];
    [now rewrite E|].
  exfalso. apply Hij.
  rewrite NoDup_nth_error in Hal. apply Hal.
  - rewrite length_map. apply nth_error_Some. congruence.
  - rewrite !nth_error_map, Hi, Hj. simpl. now rewrite Heq.
Qed.

(** C1 (as amended).  On successful return of [create_aligned_global_axes]
    the result has the labels of the group in their order, the first
    dataset keeps its own global axis unchanged, and the aligned axis of
    every later dataset has pairwise distinct values.  Moreover, whenever
    the loop reaches a dataset two of whose axis positions are mapped by
    [align_index] to the same coordinate, the call raises
    [AlignDatasetError]. *)
Theorem create_aligned_global_axes_injective (global_axes : dict (list Z)) :
  NoDup (keys global_axes) ->
  (forall res,
     create_aligned_global_axes tolerance method global_axes = inr res ->
     keys res = keys global_axes /\
     nth_error res 0 = nth_error global_axes 0 /\
     (forall k label aligned,
        nth_error res (S k) = Some (label, aligned) -> NoDup aligned))
  /\
  (forall pre label axis post st axis_values i j x y,
     global_axes = pre ++ (label, axis) :: post ->
     align_loop tolerance method pre align_init = inr st ->
     aligned_axis_values st = Some axis_values ->
     nth_error axis i = Some x -> nth_error axis j = Some y -> i <> j ->
     align_index x axis_values tolerance method =
     align_index y axis_values tolerance method ->
     create_aligned_global_axes tolerance method global_axes = inl AlignDatasetError).
Proof.
  intros Hnd. split.
  - intros res. now apply create_aligned_global_axes_success.
  - intros pre label axis post st vals i j x y ->.
    apply create_aligned_global_axes_ambiguous.
Qed.

End Alignment.

Section AlignedAxis.
Import DataProviderLinked.
Local Open Scope Z_scope.

Lemma array_equal_spec a b : array_equal a b = true <-> a = b.
Proof.
  revert b. induction a as [|x a IH]; destruct b as [|y b]; simpl;
    try (split; [discriminate|congruence]); [tauto|].
  rewrite andb_true_iff, Z.eqb_eq, IH. split; [intros [-> ->]|intros [= -> ->]]; auto.
Qed.

Lemma is_unique_spec a : is_unique a = true <-> NoDup a.
Proof.
  induction a as [|x a IH]; simpl; [split; [constructor|reflexivity]|].
  rewrite andb_true_iff, negb_true_iff, NoDup_cons_iff, IH.
  assert (existsb (Z.eqb x) a = false <-> ~ In x a) as ->; [|tauto].
  rewrite <- not_true_iff_false, existsb_exists. split.
  - intros H Hin. apply H. exists x. now rewrite Z.eqb_refl.
  - intros H (y & Hy & E). apply Z.eqb_eq in E. subst. contradiction.
Qed.

Lemma is_empty_spec a : is_empty a = true <-> a = [].
Proof. destruct a; simpl; split; congruence. Qed.

(** The four cases of [index_union]. *)
Lemma index_union_cases a b :
  (b = [] /\ index_union a b = a) \/
  (b = a /\ index_union a b = a) \/
  (a = [] /\ b <> [] /\ index_union a b = b) \/
  (a <> [] /\ b <> [] /\ b <> a /\ index_union a b = np.unique (a ++ b)).
Proof.
  unfold index_union.
  destruct (is_empty b) eqn:Eb; [apply is_empty_spec in Eb; auto|].
  destruct (array_equal a b) eqn:Eab; [apply array_equal_spec in Eab; auto|].
  assert (b <> []) by (intros ->; discriminate).
  assert (b <> a) by (intros ->; rewrite (proj2 (array_equal_spec a a)) in Eab;
                      [discriminate|reflexivity]).
  simpl. destruct (is_empty a) eqn:Ea.
  - apply is_empty_spec in Ea. right; right; left. auto.
  - right; right; right. repeat split; auto. intros ->; discriminate.
Qed.

Lemma index_union_In x a b : In x (index_union a b) <-> In x a \/ In x b.
Proof.
  destruct (index_union_cases a b)
    as [[-> ->]|[[-> ->]|[(-> & _ & ->)|(_ & _ & _ & ->)]]]; simpl; try tauto.
  now rewrite unique_In, in_app_iff.
Qed.

Lemma index_union_NoDup a b : NoDup a -> NoDup b -> NoDup (index_union a b).
Proof.
  intros Ha Hb.
  destruct (index_union_cases a b)
    as [[_ ->]|[[_ ->]|[(_ & _ & ->)|(_ & _ & _ & ->)]]]; auto using unique_NoDup.
Qed.

Lemma fold_index_union_In x others : forall first,
  In x (fold_left index_union others first) <->
  In x first \/ exists a, In a others /\ In x a.
Proof.
  induction others as [|b others IH]; intros first; simpl.
  - split; [auto|intros [H|(a & [] & _)]; exact H].
  - rewrite IH, index_union_In. split.
    + intros [[H|H]|(a & Ha & Hx)]; eauto.
    + intros [H|(a & [<-|Ha] & Hx)]; eauto.
Qed.

Lemma fold_index_union_NoDup others : forall first,
  NoDup first -> Forall (fun a => NoDup a) others ->
  NoDup (fold_left index_union others first).
Proof.
  induction others as [|b others IH]; intros first Hf Hall; simpl; [assumption|].
  inversion Hall; subst. apply IH; auto using index_union_NoDup.
Qed.

Lemma index_union_kept_or_sorted acc b seen :
  kept_or_sorted acc seen -> kept_or_sorted (index_union acc b) (b :: seen).
Proof.
  intros Inv.
  destruct (index_union_cases acc b)
    as [[-> ->]|[[-> ->]|[(-> & Hb & ->)|(Ha & _ & _ & ->)]]].
  - destruct Inv as [[Hin Hall]|Hs]; [left|right; exact Hs].
    split; [now right|]. intros a [<-|Ha]; auto.
  - destruct Inv as [[Hin Hall]|Hs]; [left|right; exact Hs].
    split; [now left|]. intros a [<-|Ha]; auto.
  - destruct Inv as [[Hin Hall]|[_ Hne]]; [left|now elim Hne].
    split; [now left|]. intros a [<-|Ha]; auto.
    destruct (Hall a Ha); auto.
  - right. split; [apply unique_sorted|].
    destruct acc as [|x acc]; [now elim Ha|].
    intros E. assert (In x (np.unique ((x :: acc) ++ b))) as Hin
      by (apply unique_In; simpl; auto).
    rewrite E in Hin. exact Hin.
Qed.

Lemma fold_index_union_kept_or_sorted others : forall acc seen,
  kept_or_sorted acc seen ->
  kept_or_sorted (fold_left index_union others acc) (rev others ++ seen).
Proof.
  induction others as [|b others IH]; intros acc seen Inv; simpl; [exact Inv|].
  rewrite <- app_assoc. simpl. apply IH. now apply index_union_kept_or_sorted.
Qed.

Lemma concat_global_coordinate_spec axes axis :
  concat_global_coordinate axes = inr axis ->
  (forall x, In x axis <-> exists a, In a axes /\ In x a) /\
  (StronglySorted Z.lt axis \/
   (In axis axes /\ forall a, In a axes -> a = [] \/ a = axis)).
Proof.
  destruct axes as [|first others]; simpl; [discriminate|].
  destruct (forallb (array_equal first) others) eqn:Eall.
  - intros [= <-]. rewrite forallb_forall in Eall.
    assert (forall a, In a others -> a = first) as Hall
      by (intros a Ha; symmetry; apply array_equal_spec; auto).
    split.
    + intros x. split; [eauto|]. intros (a & [<-|Ha] & Hx); [|rewrite <- (Hall a Ha)]; auto.
    + right. split; [auto|]. intros a [<-|Ha]; auto.
  - destruct (is_unique first && forallb is_unique others); [|discriminate].
    intros [= <-]. split.
    + intros x. rewrite fold_index_union_In. split.
      * intros [H|(a & Ha & Hx)]; eauto.
      * intros (a & [<-|Ha] & Hx); eauto.
    + assert (kept_or_sorted first [first]) as Inv.
      { left. split; [now left|]. intros a [<-|[]]. auto. }
      apply (fold_index_union_kept_or_sorted others) in Inv.
      destruct Inv as [[Hin Hall]|[Hs _]]; [right|now left].
      split.
      * apply in_app_or in Hin. destruct Hin as [Hin|[Hin|[]]];
          [right; apply <- in_rev; exact Hin|now left].
      * intros a [<-|Ha]; apply Hall, in_or_app;
          [right; now left|left; apply -> in_rev; exact Ha].
Qed.

Lemma aligned_axis_NoDup tolerance method global_axes res axis :
  NoDup (keys global_axes) ->
  create_aligned_global_axes tolerance method global_axes = inr res ->
  align_data_axis res = inr axis ->
  NoDup axis \/ length res = 1%nat.
Proof.
  intros Hnd Hres Haxis. unfold align_data_axis in Haxis.
  destruct (create_aligned_global_axes_success tolerance method global_axes res
              Hnd Hres) as (_ & _ & Hlater).
  destruct res as [|[l0 a0] [|[l1 a1] rest]]; simpl in Haxis; [discriminate|now right|].
  left. assert (NoDup a1) as Hn1 by (apply (Hlater 0%nat l1); reflexivity).
  assert (Forall (fun a => NoDup a) (a1 :: values rest)) as Hothers.
  { constructor; [assumption|]. apply Forall_forall. intros a Ha.
    apply in_map_iff in Ha. destruct Ha as ([l a'] & <- & Hin).
    apply In_nth_error in Hin. destruct Hin as [k Hk].
    apply (Hlater (S k) l). exact Hk. }
  fold (values rest) in Haxis.
  destruct (array_equal a0 a1 && forallb (array_equal a0) (values rest)) eqn:Eall.
  - inversion Haxis; subst. apply andb_true_iff in Eall. destruct Eall as [E _].
    apply array_equal_spec in E. now subst.
  - destruct (is_unique a0 && (is_unique a1 && forallb is_unique (values rest))) eqn:Eu;
      [|discriminate].
    inversion Haxis; subst. apply andb_true_iff in Eu. destruct Eu as [Eu _].
    apply is_unique_spec in Eu.
    apply (fold_index_union_NoDup (a1 :: values rest)); assumption.
Qed.

End AlignedAxis.

Section AlignmentExamples.
Import DataProviderLinked.
Local Open Scope Z_scope.
Local Open Scope string_scope.

Lemma two_datasets_keys : NoDup (keys two_datasets).
Proof.
  repeat constructor; simpl; intuition discriminate.
Defined.

Lemma create_aligned_global_axes_injective_witness :
  exists res,
    create_aligned_global_axes 1 nearest two_datasets = inr res /\
    keys res = keys two_datasets /\
    nth_error res 0 = nth_error two_datasets 0 /\
    (forall k label aligned,
       nth_error res (S k) = Some (label, aligned) -> NoDup aligned).
Proof.
  exists [("dataset1", [1; 5]); ("dataset2", [1; 5; 9])].
  split; [reflexivity|].
  apply (proj1 (create_aligned_global_axes_injective 1 nearest two_datasets
                  two_datasets_keys)).
  reflexivity.
Defined.

(** The first dataset is the reference of the alignment: its axis is taken
    over without the test for repeated values. *)
Lemma create_aligned_global_axes_first_axis_unchecked :
  ~ (forall tolerance method global_axes res label aligned,
       NoDup (keys global_axes) ->
       create_aligned_global_axes tolerance method global_axes = inr res ->
       In (label, aligned) res -> NoDup aligned).
Proof.
  intros H.
  assert (NoDup [1; 1]) as Hnd.
  { apply (H 0 nearest [("dataset1", [1; 1])] [("dataset1", [1; 1])] "dataset1").
    - repeat constructor; simpl; tauto.
    - reflexivity.
    - now left. }
  apply NoDup_cons_iff in Hnd. simpl in Hnd. tauto.
Qed.

(** With the method "nearest" nothing is filtered, and [align_index] does
    what is asked of it. *)
Lemma align_index_nearest index target_axis tolerance :
  closest_within nearest index target_axis tolerance
    (align_index index target_axis tolerance nearest).
Proof.
  unfold closest_within, candidate, align_index. rewrite map_map.
  set (diff := map (fun a => Z.abs (a - index)) target_axis).
  assert (forall d, In d diff <-> exists a, In a target_axis /\ d = Z.abs (a - index))
    as Hdiff.
  { intros d. unfold diff. rewrite in_map_iff. split; intros (a & H1 & H2); eauto. }
  destruct (np.amin diff) as [e|m] eqn:Hmin.
  - (* the axis is empty *)
    destruct target_axis; [|discriminate]. simpl. split; [intros (a & [] & _)|auto].
  - destruct (np.argmin diff) as [e|j] eqn:Harg;
      [destruct diff; discriminate|].
    apply argmin_spec in Harg. destruct Harg as (m' & Hm' & Hj).
    rewrite Hmin in Hm'. injection Hm' as <-.
    apply amin_spec in Hmin. destruct Hmin as [Hin Hle].
    unfold diff in Hj. rewrite nth_error_map in Hj.
    destruct (nth_error target_axis j) as [a0|] eqn:Ha0; [|discriminate].
    injection Hj as Hm. cbv zeta.
    destruct (Z.leb_spec m tolerance) as [Htol|Htol].
    + rewrite (nth_error_nth _ _ index Ha0). split.
      * intros _. split; [eapply nth_error_In; eassumption|].
        split; [exact I|]. split; [lia|].
        intros a Ha _. rewrite Hm. apply Hle. apply Hdiff. eauto.
      * intros Hfar. apply nth_error_In in Ha0. specialize (Hfar a0 Ha0 I). lia.
    + split; [|reflexivity].
      intros (a & Ha & _ & Hclose). assert (m <= Z.abs (a - index)); [|lia].
      apply Hle. apply Hdiff. eauto.
Qed.

(** C2.  With the method "forward" the position of the minimum is taken in
    the filtered differences but used on the unfiltered target axis: for
    the axis [1; 5; 10], the value 9 and the tolerance 2, the only candidate
    at or above 9 is 10, at distance 1, and 10 is what is asked; but
    [align_index] returns 1.  The same happens with "backward" on an axis
    that is not increasing: for the axis [10; 1], the value 2 and the
    tolerance 2 it returns 10, where 1 is asked. *)
Theorem align_index_directed_position :
  align_index 9 [1; 5; 10] 2 forward = 1 /\
  closest_within forward 9 [1; 5; 10] 2 10 /\
  ~ closest_within forward 9 [1; 5; 10] 2 (align_index 9 [1; 5; 10] 2 forward) /\
  align_index 2 [10; 1] 2 backward = 10 /\
  closest_within backward 2 [10; 1] 2 1 /\
  ~ closest_within backward 2 [10; 1] 2 (align_index 2 [10; 1] 2 backward).
Proof.
  split; [reflexivity|]. split; [|split; [|split; [reflexivity|split]]].
  - split.
    + intros _. simpl. split; [auto|]. split; [lia|]. split; [lia|].
      intros a [<-|[<-|[<-|[]]]] Hc; simpl in *; lia.
    + intros H. specialize (H 10). simpl in H. lia.
  - intros [H _]. change (align_index 9 [1; 5; 10] 2 forward) with 1 in H.
    destruct H as (_ & Hc & _); [|simpl in Hc; lia].
    exists 10. simpl. split; [auto|lia].
  - split.
    + intros _. simpl. split; [auto|]. split; [lia|]. split; [lia|].
      intros a [<-|[<-|[]]] Hc; simpl in *; lia.
    + intros H. specialize (H 1). simpl in H. lia.
  - intros [H _]. change (align_index 2 [10; 1] 2 backward) with 10 in H.
    destruct H as (_ & Hc & _); [|simpl in Hc; lia].
    exists 1. simpl. split; [auto|lia].
Qed.

End AlignmentExamples.

(** ** The store: buffers that exist are only changed through their views *)

Section Store.

Lemma T_involutive a : ndarray.T (ndarray.T a) = a.
Proof. destruct a; reflexivity. Qed.

Lemma view_view r a : view r (view r a) = a.
Proof. unfold view. destruct (transposed r); auto using T_involutive. Qed.

Lemma list_update_length {A} i (x : A) l : length (list_update i x l) = length l.
Proof.
  revert i. induction l as [|y l IH]; intros [|i]; simpl; auto.
Qed.

Lemma list_update_nth_eq {A} i (x d : A) l :
  i < length l -> nth i (list_update i x l) d = x.
Proof.
  revert i. induction l as [|y l IH]; intros [|i]; simpl; intros H; try lia; auto.
  apply IH. lia.
Qed.

Lemma list_update_nth_ne {A} i j (x d : A) l :
  i <> j -> nth j (list_update i x l) d = nth j l d.
Proof.
  revert i j. induction l as [|y l IH]; intros [|i] [|j]; simpl; intros H;
    try reflexivity; try lia. apply IH. lia.
Qed.

Lemma list_update_firstn {A} n i (x : A) l :
  n <= i -> firstn n (list_update i x l) = firstn n l.
Proof.
  revert n i. induction l as [|y l IH]; intros [|n] [|i]; simpl; intros H;
    try reflexivity; try lia. f_equal. apply IH. lia.
Qed.

Lemma unchanged_below_refl n w : unchanged_below n w w.
Proof. split; auto. Qed.

Lemma unchanged_below_trans n w1 w2 w3 :
  unchanged_below n w1 w2 -> unchanged_below n w2 w3 -> unchanged_below n w1 w3.
Proof. intros [H1 H2] [H3 H4]. split; [lia|congruence]. Qed.

Lemma unchanged_below_le n m w w' :
  n <= m -> unchanged_below m w w' -> unchanged_below n w w'.
Proof.
  intros Hle [H1 H2]. split; [assumption|].
  replace n with (Nat.min n m) by lia. rewrite <- !firstn_firstn. now rewrite H2.
Qed.

Lemma unchanged_below_buffer n w w' b :
  unchanged_below n w w' -> b < n -> buffer w' b = buffer w b.
Proof.
  intros [_ H] Hb. unfold buffer.
  pose proof (nth_firstn n (buffers w') b empty_array) as E1.
  pose proof (nth_firstn n (buffers w) b empty_array) as E2.
  apply Nat.ltb_lt in Hb. rewrite Hb in E1, E2. congruence.
Qed.

Lemma unchanged_below_contents n w w' r :
  unchanged_below n w w' -> base r < n -> contents w' r = contents w r.
Proof.
  intros H Hb. unfold contents. now rewrite (unchanged_below_buffer n w w').
Qed.

Lemma alloc_unchanged a w n :
  n <= length (buffers w) -> unchanged_below n w (snd (alloc a w)).
Proof.
  intros Hn. split; simpl.
  - rewrite length_app. lia.
  - now rewrite firstn_app, (proj2 (Nat.sub_0_le _ _) Hn), firstn_O, app_nil_r.
Qed.

Lemma write_unchanged r a w n :
  n <= base r -> unchanged_below n w (snd (write r a w)).
Proof.
  intros Hn. split; simpl.
  - now rewrite list_update_length.
  - now apply list_update_firstn.
Qed.

Lemma contents_write r a w :
  base r < length (buffers w) -> contents (snd (write r a w)) r = a.
Proof.
  intros Hb. unfold contents, buffer. simpl.
  rewrite list_update_nth_eq by assumption. apply view_view.
Qed.

Lemma contents_write_other r r' a w :
  base r <> base r' -> contents (snd (write r a w)) r' = contents w r'.
Proof.
  intros Hb. unfold contents, buffer. simpl.
  now rewrite list_update_nth_ne.
Qed.

End Store.

Section DictFacts2.
Context {V : Type}.

Lemma dict_get_set_eq (k : string) (v : V) d : dict_get k (dict_set k v d) = Some v.
Proof.
  induction d as [|[k' v'] d IH]; simpl.
  - now rewrite String.eqb_refl.
  - destruct (String.eqb k k') eqn:E; simpl; rewrite ?String.eqb_refl, ?E; auto.
Qed.

Lemma dict_get_set_ne (k k' : string) (v : V) d :
  k <> k' -> dict_get k' (dict_set k v d) = dict_get k' d.
Proof.
  intros Hne. induction d as [|[k0 v0] d IH]; simpl.
  - destruct (String.eqb_spec k' k); [congruence|reflexivity].
  - destruct (String.eqb_spec k k0) as [->|]; simpl.
    + destruct (String.eqb_spec k' k0); [congruence|reflexivity].
    + destruct (String.eqb_spec k' k0); [reflexivity|apply IH].
Qed.

Lemma dict_set_set (k : string) (v1 v2 : V) d :
  dict_set k v2 (dict_set k v1 d) = dict_set k v2 d.
Proof.
  induction d as [|[k' v'] d IH]; simpl.
  - now rewrite String.eqb_refl.
  - destruct (String.eqb k k') eqn:E; simpl; rewrite ?String.eqb_refl, ?E; congruence.
Qed.

Lemma In_dict_set (k l : string) (v x : V) d :
  In (l, x) (dict_set k v d) -> (l = k /\ x = v) \/ In (l, x) d.
Proof.
  induction d as [|[k' v'] d IH]; simpl.
  - intros [[= <- <-]|[]]. auto.
  - destruct (String.eqb k k'); simpl.
    + intros [[= <- <-]|H]; auto.
    + intros [H|H]; auto. destruct (IH H); auto.
Qed.

Lemma dict_get_In (k : string) (v : V) d : dict_get k d = Some v -> In (k, v) d.
Proof.
  induction d as [|[k' v'] d IH]; simpl; [discriminate|].
  destruct (String.eqb_spec k k') as [->|]; [intros [= ->]; auto|auto].
Qed.

End DictFacts2.

(** ** Computations that leave the buffers below [n] alone *)

Section Safe.

Lemma safe_ret {A} n (a : A) (R : A -> Prop) : R a -> safe n (mret a) R.
Proof. intros H w _. simpl. auto using unchanged_below_refl. Qed.

Lemma safe_raise {A} n e (R : A -> Prop) : safe n (mraise e) R.
Proof. intros w _. simpl. auto using unchanged_below_refl. Qed.

Lemma safe_lift {A} n (r : result A) (R : A -> Prop) :
  (forall a, r = inr a -> R a) -> safe n (lift r) R.
Proof.
  intros H w _. simpl. split; [apply unchanged_below_refl|].
  destruct r; auto.
Qed.

Lemma safe_bind {A B} n (m : M A) (k : A -> M B) (R : A -> Prop) (S : B -> Prop) :
  safe n m R -> (forall a, R a -> safe n (k a) S) -> safe n (mbind m k) S.
Proof.
  intros Hm Hk w Hw. unfold mbind. specialize (Hm w Hw).
  destruct (m w) as [[e|a] w1]; simpl in *; [tauto|].
  destruct Hm as [Hu Ha]. specialize (Hk a Ha w1).
  destruct Hk as [Hu' Hb]; [destruct Hu; lia|].
  split; [eapply unchanged_below_trans; eassumption|assumption].
Qed.

Lemma safe_weaken {A} n (m : M A) (R S : A -> Prop) :
  safe n m R -> (forall a, R a -> S a) -> safe n m S.
Proof.
  intros Hm HRS w Hw. destruct (Hm w Hw) as [Hu Ha]. split; [assumption|].
  destruct (fst (m w)); auto.
Qed.

Lemma safe_read n r : safe n (read r) (fun _ => True).
Proof. intros w _. simpl. auto using unchanged_below_refl. Qed.

Lemma safe_warn n message : safe n (warn message) (fun _ => True).
Proof. intros w _. simpl. split; auto. split; auto. Qed.

Lemma safe_alloc n a : safe n (alloc a) (fun r => n <= base r).
Proof.
  intros w Hw. split; [now apply alloc_unchanged|]. simpl. assumption.
Qed.

Lemma safe_write n r a : n <= base r -> safe n (write r a) (fun _ => True).
Proof. intros Hr w _. split; [now apply write_unchanged|]. simpl. auto. Qed.

Lemma safe_copy n r : safe n (copy r) (fun r' => n <= base r').
Proof.
  unfold copy. eapply safe_bind; [apply safe_read|]. intros a _. apply safe_alloc.
Qed.

Lemma safe_imul n r b : n <= base r -> safe n (imul r b) (fun _ => True).
Proof.
  intros Hr. unfold imul. eapply safe_bind; [apply safe_read|]. intros a _.
  destruct (ndarray.broadcastable a b); [now apply safe_write|apply safe_raise].
Qed.

End Safe.

Section DataProviderFrame.
Import DataProvider.

Lemma grown_refl n self : grown n self self.
Proof. split; auto. Qed.

Lemma grown_trans n self1 self2 self3 :
  grown n self1 self2 -> grown n self2 self3 -> grown n self1 self3.
Proof.
  intros [Hd Hw] [Hd' Hw']. split; intros l r Hin.
  - destruct (Hd' l r Hin); auto.
  - destruct (Hw' l r Hin); auto.
Qed.

Lemma grown_set_weight n self label weight :
  (forall r, weight = Some r -> n <= base r) ->
  grown n self (set_weight self (dict_set label weight (_weight self))).
Proof.
  intros Hr. split; simpl; [auto|].
  intros l r Hin. apply In_dict_set in Hin. destruct Hin as [[_ E]|Hin]; eauto.
Qed.

Lemma grown_set_data n self label data :
  n <= base data -> grown n self (set_data self (dict_set label data (_data self))).
Proof.
  intros Hr. split; simpl; [|auto].
  intros l r Hin. apply In_dict_set in Hin. destruct Hin as [[_ ->]|Hin]; eauto.
Qed.

Lemma safe_get_from_dataset n dataset name md gd :
  safe n (get_from_dataset dataset name md gd)
       (fun o => forall r, o = Some r -> n <= base r).
Proof.
  unfold get_from_dataset. destruct (dict_get name (variables dataset)).
  - eapply safe_bind; [apply safe_copy|]. intros r Hr.
    destruct (negb _); apply safe_ret; intros r' [= <-]; assumption.
  - apply safe_ret. discriminate.
Qed.

Lemma safe_apply_model_weight n weight model_axis global_axis model_weight :
  n <= base weight ->
  safe n (apply_model_weight weight model_axis global_axis model_weight)
       (fun _ => True).
Proof.
  intros Hw. unfold apply_model_weight.
  eapply safe_bind with (R := fun _ => True).
  { destruct (global_interval model_weight).
    - eapply safe_bind; [apply safe_lift with (R := fun _ => True); auto|].
      intros. now apply safe_ret.
    - now apply safe_ret. }
  intros gs _. eapply safe_bind with (R := fun _ => True).
  { destruct (model_interval model_weight).
    - eapply safe_bind; [apply safe_lift with (R := fun _ => True); auto|].
      intros. now apply safe_ret.
    - now apply safe_ret. }
  intros ms _. eapply safe_bind; [apply safe_read|]. intros a _.
  now apply safe_write.
Qed.

Lemma safe_apply_model_weights n weight model_axis global_axis model_weights :
  n <= base weight ->
  safe n (apply_model_weights weight model_axis global_axis model_weights)
       (fun _ => True).
Proof.
  intros Hw. induction model_weights as [|mw rest IH]; simpl.
  - now apply safe_ret.
  - eapply safe_bind; [now apply safe_apply_model_weight|]. intros _ _. exact IH.
Qed.

Lemma safe_add_model_weight n self model_weights label md gd :
  safe n (add_model_weight self model_weights label md gd) (grown n self).
Proof.
  unfold add_model_weight.
  destruct (filter (targets label) model_weights) as [|mw0 mws];
    [apply safe_ret, grown_refl|].
  eapply safe_bind with (R := fun _ => True); [apply safe_lift; auto|]. intros current _.
  eapply safe_bind with (R := fun _ => True).
  { unfold weight_truth_value. destruct current; [|now apply safe_ret].
    eapply safe_bind; [apply safe_read|]. intros a _. apply safe_lift; auto. }
  intros [|] _.
  - eapply safe_bind; [apply safe_warn|]. intros _ _. apply safe_ret, grown_refl.
  - eapply safe_bind with (R := fun _ => True); [apply safe_lift; auto|]. intros model_axis _.
    eapply safe_bind with (R := fun _ => True); [apply safe_lift; auto|]. intros global_axis _.
    eapply safe_bind; [apply safe_alloc|]. intros weight Hweight.
    eapply safe_bind; [now apply safe_apply_model_weights|]. intros _ _.
    apply safe_ret. apply grown_set_weight. intros r [= <-]. assumption.
Qed.

Lemma safe_init_dataset n scheme self item :
  safe n (init_dataset scheme self item) (grown n self).
Proof.
  destruct item as [label dataset_model]. unfold init_dataset.
  eapply safe_bind with (R := fun _ => True); [apply safe_lift; auto|]. intros dataset _.
  eapply safe_bind with (R := fun _ => True); [apply safe_lift; auto|]. intros model_axis _.
  eapply safe_bind with (R := fun _ => True); [apply safe_lift; auto|]. intros data_variable _.
  eapply safe_bind with (R := fun _ => True); [apply safe_lift; auto|]. intros global_dimension _.
  eapply safe_bind with (R := fun _ => True); [apply safe_lift; auto|]. intros global_axis _.
  eapply safe_bind; [apply safe_get_from_dataset|]. intros weight Hweight.
  eapply safe_bind; [apply safe_add_model_weight|]. intros self1 Hgrown1.
  assert (grown n self self1) as Hself1.
  { eapply grown_trans; [|exact Hgrown1].
    apply (grown_set_weight n
             (set_axes self label (get_model_dimension dataset_model) model_axis
                       global_dimension global_axis) label weight Hweight). }
  eapply safe_bind; [apply safe_get_from_dataset|]. intros [data|] Hdata;
    [|apply safe_raise].
  specialize (Hdata data eq_refl).
  assert (grown n self (set_data self1 (dict_set label data (_data self1)))) as Hself2.
  { eapply grown_trans; [exact Hself1|now apply grown_set_data]. }
  eapply safe_bind with (R := fun _ => True); [apply safe_lift; auto|]. intros weight1 _.
  eapply safe_bind with (R := fun _ => True).
  { destruct weight1; [|now apply safe_ret].
    eapply safe_bind; [apply safe_read|]. intros b _. now apply safe_imul. }
  intros _ _. destruct (has_global_model dataset_model); [|now apply safe_ret].
  eapply safe_bind; [apply safe_read|]. intros a _.
  eapply safe_bind with (R := fun _ => True).
  { destruct weight1; [|now apply safe_ret].
    eapply safe_bind; [apply safe_read|]. intros b _. now apply safe_ret. }
  intros fw _. apply safe_ret. exact Hself2.
Qed.

Lemma safe_init_loop n scheme items : forall self,
  safe n (init_loop scheme items self) (grown n self).
Proof.
  induction items as [|item rest IH]; intros self; simpl.
  - apply safe_ret, grown_refl.
  - eapply safe_bind; [apply safe_init_dataset|]. intros self1 Hgrown1.
    eapply safe_weaken; [apply IH|]. intros self2. now apply grown_trans.
Qed.

Lemma get_from_dataset_copy dataset name md gd variable w :
  dict_get name (variables dataset) = Some variable ->
  exists r w1,
    get_from_dataset dataset name md gd w = (inr (Some r), w1) /\
    base r = length (buffers w) /\
    buffers w1 = buffers w ++ [contents w (data variable)] /\
    warnings w1 = warnings w /\
    contents w1 r =
      if dims_eqb (dims variable) (md, gd) then contents w (data variable)
      else ndarray.T (contents w (data variable)).
Proof.
  intros Hv. unfold get_from_dataset. rewrite Hv.
  unfold mbind, copy, read, mbind, alloc, mret. cbn [fst snd].
  destruct (dims_eqb (dims variable) (md, gd)); cbn [negb];
    do 2 eexists; (split; [reflexivity|]); repeat (split; [reflexivity|]);
    unfold contents at 1; unfold buffer, view, transpose;
    cbn [base transposed buffers negb];
    now rewrite app_nth2, Nat.sub_diag by lia.
Qed.

Lemma get_from_dataset_absent dataset name md gd w :
  dict_get name (variables dataset) = None ->
  get_from_dataset dataset name md gd w = (inr None, w).
Proof. intros Hv. unfold get_from_dataset. now rewrite Hv. Qed.

(** C10.  Whatever the outcome of [DataProvider.__init__], every buffer
    that existed before the call is left as it was; in particular the
    arrays of the datasets of the scheme read the same afterwards.  The
    array returned by [get_from_dataset] is a view on a new buffer, which
    holds the values of the dataset's variable. *)
Theorem init_leaves_datasets_unchanged scheme dataset_models w :
  let w' := snd (init scheme dataset_models w) in
  firstn (length (buffers w)) (buffers w') = buffers w /\
  (forall r, base r < length (buffers w) -> contents w' r = contents w r) /\
  (forall dataset name md gd variable,
     dict_get name (variables dataset) = Some variable ->
     exists r w1,
       get_from_dataset dataset name md gd w = (inr (Some r), w1) /\
       base r = length (buffers w) /\
       firstn (length (buffers w)) (buffers w1) = buffers w /\
       contents w1 r =
         if dims_eqb (dims variable) (md, gd) then contents w (data variable)
         else ndarray.T (contents w (data variable))).
Proof.
  intros w'.
  assert (unchanged_below (length (buffers w)) w w') as Hu.
  { apply (safe_init_loop (length (buffers w)) scheme dataset_models empty). lia. }
  split; [|split].
  - destruct Hu as [_ Hu]. now rewrite Hu, firstn_all.
  - intros r Hr. now apply (unchanged_below_contents (length (buffers w))).
  - intros dataset name md gd variable Hv.
    destruct (get_from_dataset_copy dataset name md gd variable w Hv)
      as (r & w1 & E & Hb & Hbuf & _ & Hc).
    exists r, w1. repeat split; auto.
    rewrite Hbuf, firstn_app, Nat.sub_diag, firstn_all. simpl. apply app_nil_r.
Qed.

End DataProviderFrame.

(** ** What a successful [__init__] has stored *)

Section DataProviderData.
Import DataProvider.
Local Open Scope string_scope.

Lemma mbind_inr {S A B} (m : State S A) (k : A -> State S B) w b w' :
  mbind m k w = (inr b, w') ->
  exists a w1, m w = (inr a, w1) /\ k a w1 = (inr b, w').
Proof.
  unfold mbind. destruct (m w) as [[e|a] w1]; [discriminate|]. eauto.
Qed.

Lemma lift_inr {S A} (r : result A) (w : S) a w' :
  lift r w = (inr a, w') -> r = inr a /\ w' = w.
Proof. unfold lift. intros [= -> ->]. auto. Qed.

Lemma getitem_inr {V} k (d : dict V) v : getitem k d = inr v -> dict_get k d = Some v.
Proof. unfold getitem. destruct (dict_get k d); [intros [= ->]; auto|discriminate]. Qed.

Lemma apply_model_weights_frame weight model_axis global_axis model_weights w :
  length (buffers w) <= length (buffers (snd
    (apply_model_weights weight model_axis global_axis model_weights w))).
Proof.
  destruct (safe_apply_model_weights 0 weight model_axis global_axis model_weights
              (Nat.le_0_l _) w (Nat.le_0_l _)) as [[H _] _]. exact H.
Qed.

(** The three ways in which [add_model_weight] returns. *)
Lemma add_model_weight_inv self model_weights label md gd w self' w' :
  add_model_weight self model_weights label md gd w = (inr self', w') ->
  (filter (targets label) model_weights = [] /\ self' = self /\ w' = w) \/
  (filter (targets label) model_weights <> [] /\
   (exists current, dict_get label (_weight self) = Some (Some current)) /\
   self' = self /\ buffers w' = buffers w /\
   warnings w' = (warnings w ++ [ignoring_model_weight label])%list) \/
  (filter (targets label) model_weights <> [] /\
   exists weight,
     self' = set_weight self (dict_set label (Some weight) (_weight self)) /\
     base weight = length (buffers w) /\ base weight < length (buffers w')).
Proof.
  unfold add_model_weight.
  destruct (filter (targets label) model_weights) as [|mw0 mws] eqn:Ef.
  - intros [= <- <-]. auto.
  - intros H. right.
    apply mbind_inr in H. destruct H as (current & w1 & H1 & H).
    apply lift_inr in H1. destruct H1 as [Hcur ->]. apply getitem_inr in Hcur.
    apply mbind_inr in H. destruct H as (supplied & w2 & H2 & H).
    assert (w2 = w /\ (supplied = true -> exists c, current = Some c)) as [-> Hsup].
    { unfold weight_truth_value in H2. destruct current as [c|].
      - apply mbind_inr in H2. destruct H2 as (a & w3 & H3 & H2).
        unfold read in H3. injection H3 as _ <-.
        apply lift_inr in H2. destruct H2 as [_ ->]. eauto.
      - injection H2 as <- <-. split; [reflexivity|discriminate]. }
    destruct supplied.
    + left. destruct (Hsup eq_refl) as [c ->].
      apply mbind_inr in H. destruct H as ([] & w3 & H3 & H).
      unfold warn in H3. injection H3 as <-. injection H as <- <-.
      repeat split; eauto. discriminate.
    + right. split; [discriminate|].
      apply mbind_inr in H. destruct H as (model_axis & w3 & H3 & H).
      apply lift_inr in H3. destruct H3 as [_ ->].
      apply mbind_inr in H. destruct H as (global_axis & w3 & H3 & H).
      apply lift_inr in H3. destruct H3 as [_ ->].
      apply mbind_inr in H. destruct H as (weight & w3 & H3 & H).
      unfold alloc in H3. injection H3 as <- <-.
      apply mbind_inr in H. destruct H as ([] & w4 & H4 & H).
      injection H as <- <-. eexists. split; [reflexivity|]. split; [reflexivity|].
      pose proof (apply_model_weights_frame
        {| base := length (buffers w); transposed := false |}
        model_axis global_axis (mw0 :: mws)
        {| buffers :=
             (buffers w ++ [ndarray.ones (length model_axis) (length global_axis)])%list;
           warnings := warnings w |}) as Hlen.
      rewrite H4 in Hlen. cbn [snd buffers base] in *. rewrite length_app in Hlen.
      simpl in Hlen. lia.
Qed.

Lemma imul_inr r b w w' :
  imul r b w = (inr tt, w') ->
  base r < length (buffers w) ->
  length (buffers w') = length (buffers w) /\
  contents w' r = ndarray.multiply (contents w r) b /\
  forall r', base r' <> base r -> contents w' r' = contents w r'.
Proof.
  unfold imul, mbind, read. cbn [fst snd].
  destruct (ndarray.broadcastable (contents w r) b); [|discriminate].
  intros H Hr.
  assert (w' = snd (write r (ndarray.multiply (contents w r) b) w)) as ->
    by (rewrite H; reflexivity).
  split; [simpl; apply list_update_length|].
  split; [now apply contents_write|].
  intros r' Hne. apply contents_write_other. congruence.
Qed.

End DataProviderData.

Section DataProviderInit.
Import DataProvider.
Local Open Scope string_scope.

Lemma init_dataset_inv scheme self label dataset_model w self' w' :
  stored scheme w ->
  init_dataset scheme self (label, dataset_model) w = (inr self', w') ->
  unchanged_below (length (buffers w)) w w' /\
  (forall l, l <> label ->
     dict_get l (_data self') = dict_get l (_data self) /\
     dict_get l (_weight self') = dict_get l (_weight self)) /\
  prepared scheme w label dataset_model self' w'.
Proof.
  intros Hstored Hrun.
  split.
  { pose proof (safe_init_dataset (length (buffers w)) scheme self
                  (label, dataset_model) w (Nat.le_refl _)) as [Hu _].
    now rewrite Hrun in Hu. }
  unfold init_dataset in Hrun.
  apply mbind_inr in Hrun. destruct Hrun as (dataset & w1 & H1 & Hrun).
  apply lift_inr in H1. destruct H1 as [Hds ->]. apply getitem_inr in Hds.
  apply mbind_inr in Hrun. destruct Hrun as (model_axis & w1 & H1 & Hrun).
  apply lift_inr in H1. destruct H1 as [_ ->].
  apply mbind_inr in Hrun. destruct Hrun as (variable & w1 & H1 & Hrun).
  apply lift_inr in H1. destruct H1 as [Hvar ->].
  destruct (dict_get "data" (variables dataset)) as [variable'|] eqn:Hdata;
    [|discriminate]. injection Hvar as ->.
  apply mbind_inr in Hrun. destruct Hrun as (gd & w1 & H1 & Hrun).
  apply lift_inr in H1. destruct H1 as [Hgd ->].
  apply mbind_inr in Hrun. destruct Hrun as (global_axis & w1 & H1 & Hrun).
  apply lift_inr in H1. destruct H1 as [_ ->].
  set (md := get_model_dimension dataset_model) in *.
  set (self0 := set_axes self label md model_axis gd global_axis) in *.
  apply mbind_inr in Hrun. destruct Hrun as (weight0 & w1 & Hw1 & Hrun).
  apply mbind_inr in Hrun. destruct Hrun as (self1 & w2 & Hw2 & Hrun).
  apply mbind_inr in Hrun. destruct Hrun as (data & w3 & Hw3 & Hrun).
  destruct (get_from_dataset_copy dataset "data" md gd variable w2 Hdata)
    as (r & w3' & E3 & Hbase_r & Hbuf3 & _ & Hc3).
  rewrite E3 in Hw3. injection Hw3 as <- <-.
  apply mbind_inr in Hrun. destruct Hrun as (weight & w4 & Hw4 & Hrun).
  apply lift_inr in Hw4. destruct Hw4 as [Hweight ->]. apply getitem_inr in Hweight.
  cbn [_weight set_data] in Hweight.
  apply mbind_inr in Hrun. destruct Hrun as ([] & w4 & Hw4 & Hrun).
  (* the store before the copy of the data *)
  assert (length (buffers w) <= length (buffers w1) /\
          (forall wr, weight0 = Some wr ->
                      base wr = length (buffers w) /\ base wr < length (buffers w1)) /\
          (weight0 = None <-> dict_get "weight" (variables dataset) = None) /\
          unchanged_below (length (buffers w)) w w1) as (Hlen1 & Hfresh0 & Hnone0 & Hu1).
  { destruct (dict_get "weight" (variables dataset)) as [wv|] eqn:Hwv.
    - destruct (get_from_dataset_copy dataset "weight" md gd wv w Hwv)
        as (r0 & w1' & E1 & Hb0 & Hbuf1 & _ & _).
      rewrite E1 in Hw1. injection Hw1 as <- <-.
      rewrite Hbuf1, length_app. simpl. split; [lia|].
      split; [intros wr [= <-]; lia|]. split; [split; discriminate|].
      split; [rewrite Hbuf1, length_app; lia|].
      rewrite Hbuf1, firstn_app, Nat.sub_diag, firstn_all. simpl. now rewrite app_nil_r.
    - rewrite (get_from_dataset_absent _ _ _ _ _ Hwv) in Hw1. injection Hw1 as <- <-.
      split; [lia|]. split; [discriminate|]. split; [tauto|apply unchanged_below_refl]. }
  assert (unchanged_below (length (buffers w1)) w1 w2) as Hu2.
  { pose proof (safe_add_model_weight (length (buffers w1))
                  (set_weight self0 (dict_set label weight0 (_weight self0)))
                  (weights scheme) label md gd w1 (Nat.le_refl _)) as [Hu _].
    now rewrite Hw2 in Hu. }
  assert (_data self1 = _data self /\
          _weight self1 = dict_set label weight (_weight self) /\
          (forall wr, weight = Some wr ->
                      length (buffers w) <= base wr /\ base wr < length (buffers w2)) /\
          (weight = None <->
           dict_get "weight" (variables dataset) = None /\
           filter (targets label) (weights scheme) = []))
    as (Hdata1 & Hweight1 & Hfresh & Hnone).
  { apply add_model_weight_inv in Hw2. cbn [_weight set_weight] in Hw2.
    destruct Hw2 as [(Hf & -> & ->)|[(Hf & (cur & Hcur) & -> & Hb & _)|(Hf & wr & -> & Hb1 & Hb2)]];
      cbn [_weight _data set_weight set_axes self0] in *.
    - rewrite dict_get_set_eq in Hweight. injection Hweight as <-.
      split; [reflexivity|]. split; [reflexivity|]. split.
      + intros wr E. destruct (Hfresh0 wr E). lia.
      + rewrite Hnone0. tauto.
    - rewrite dict_get_set_eq in Hweight, Hcur. injection Hweight as <-.
      injection Hcur as ->.
      split; [reflexivity|]. split; [reflexivity|]. split.
      + intros wr [= <-]. destruct (Hfresh0 cur eq_refl). rewrite Hb. lia.
      + split; [discriminate|]. intros [_ E]. contradiction.
    - rewrite dict_get_set_eq in Hweight. injection Hweight as <-.
      rewrite dict_set_set.
      split; [reflexivity|]. split; [reflexivity|]. split.
      + intros wr' [= <-]. lia.
      + split; [discriminate|]. intros [_ E]. contradiction. }
  assert (length (buffers w1) <= length (buffers w2)) as Hlen2 by (destruct Hu2; assumption).
  assert (base r < length (buffers w3')) as Hr3
    by (rewrite Hbuf3, length_app; simpl; lia).
  (* the multiplication in place *)
  assert (length (buffers w4) = length (buffers w3') /\
          contents w4 r =
            match weight with
            | Some wr => ndarray.multiply (contents w3' r) (contents w4 wr)
            | None => contents w3' r
            end) as [Hlen4 Hc4].
  { destruct weight as [wr|].
    - apply mbind_inr in Hw4. destruct Hw4 as (b & w5 & Hw5 & Hw4).
      unfold read in Hw5. injection Hw5 as <- <-.
      apply imul_inr in Hw4; [|assumption]. destruct Hw4 as (Hl & Hc & Hother).
      split; [assumption|]. rewrite Hc. f_equal. symmetry. apply Hother.
      destruct (Hfresh wr eq_refl). lia.
    - injection Hw4 as <-. auto. }
  assert (_data self' = dict_set label r (_data self) /\
          _weight self' = dict_set label weight (_weight self) /\ w' = w4)
    as (Hdata' & Hweight' & ->).
  { destruct (has_global_model dataset_model).
    - apply mbind_inr in Hrun. destruct Hrun as (a & w5 & Hw5 & Hrun).
      unfold read in Hw5. injection Hw5 as <- <-.
      apply mbind_inr in Hrun. destruct Hrun as (fw & w5 & Hw5 & Hrun).
      assert (w5 = w4) as ->.
      { destruct weight as [wr|].
        - apply mbind_inr in Hw5. destruct Hw5 as (b & w6 & Hw6 & Hw5).
          unfold read in Hw6. injection Hw6 as <- <-. now injection Hw5 as <- <-.
        - now injection Hw5 as <- <-. }
      injection Hrun as <- <-. cbn. rewrite Hdata1, Hweight1. auto.
    - injection Hrun as <- <-. cbn. rewrite Hdata1, Hweight1. auto. }
  split.
  { intros l Hl. rewrite Hdata', Hweight'.
    rewrite !dict_get_set_ne by congruence. auto. }
  exists dataset, variable, gd, r, weight.
  unfold get_data, get_weight, getitem. rewrite Hdata', Hweight', !dict_get_set_eq.
  split; [assumption|]. split; [assumption|]. split; [assumption|].
  split; [reflexivity|]. split; [reflexivity|].
  split; [lia|]. split.
  { intros wr E. destruct (Hfresh wr E). rewrite Hlen4, Hbuf3, length_app. simpl. lia. }
  split; [assumption|].
  cbv zeta. rewrite Hc4, Hc3.
  assert (contents w2 (data variable) = contents w (data variable)) as ->.
  { assert (base (data variable) < length (buffers w)) as Hvalid.
    { eapply Hstored; eapply dict_get_In; eassumption. }
    rewrite (unchanged_below_contents (length (buffers w1)) w1 w2) by (auto; lia).
    now rewrite (unchanged_below_contents (length (buffers w)) w w1). }
  reflexivity.
Qed.

End DataProviderInit.

Section DataProviderLoop.
Import DataProvider.
Local Open Scope string_scope.

Lemma stored_mono scheme n w w' :
  unchanged_below n w w' -> stored scheme w -> stored scheme w'.
Proof.
  intros [Hlen _] Hs label dataset name variable H1 H2.
  specialize (Hs label dataset name variable H1 H2). lia.
Qed.

Lemma prepared_later scheme w0 label dataset_model self w1 self' w' :
  prepared scheme w0 label dataset_model self w1 ->
  unchanged_below (length (buffers w1)) w1 w' ->
  dict_get label (_data self') = dict_get label (_data self) ->
  dict_get label (_weight self') = dict_get label (_weight self) ->
  prepared scheme w0 label dataset_model self' w'.
Proof.
  intros (dataset & variable & gd & r & weight & H1 & H2 & H3 & H4 & H5 & H6 & H7 & H8 & H9)
         Hu Hd Hw.
  exists dataset, variable, gd, r, weight.
  unfold get_data, get_weight, getitem in *. rewrite Hd, Hw.
  destruct Hu as [Hlen Hfirst].
  repeat (split; [assumption|]).
  split; [lia|]. split; [intros wr E; specialize (H7 wr E); lia|].
  split; [assumption|].
  cbv zeta in *.
  rewrite (unchanged_below_contents (length (buffers w1)) w1 w') by (try split; auto).
  rewrite H9. destruct weight as [wr|]; [|reflexivity].
  rewrite (unchanged_below_contents (length (buffers w1)) w1 w' wr); auto.
  split; auto.
Qed.

Lemma prepared_earlier scheme w0 w1 label dataset_model self w' :
  prepared scheme w1 label dataset_model self w' ->
  unchanged_below (length (buffers w0)) w0 w1 ->
  stored scheme w0 ->
  prepared scheme w0 label dataset_model self w'.
Proof.
  intros (dataset & variable & gd & r & weight & H1 & H2 & H3 & H4 & H5 & H6 & H7 & H8 & H9)
         Hu Hs.
  exists dataset, variable, gd, r, weight.
  repeat (split; [assumption|]).
  cbv zeta in *. rewrite H9.
  rewrite (unchanged_below_contents (length (buffers w0)) w0 w1); auto.
  eapply Hs; eapply dict_get_In; eassumption.
Qed.

Lemma init_loop_prepared scheme items : forall self w self' w',
  NoDup (keys items) ->
  stored scheme w ->
  init_loop scheme items self w = (inr self', w') ->
  unchanged_below (length (buffers w)) w w' /\
  (forall l, ~ In l (keys items) ->
     dict_get l (_data self') = dict_get l (_data self) /\
     dict_get l (_weight self') = dict_get l (_weight self)) /\
  (forall label dataset_model,
     In (label, dataset_model) items ->
     prepared scheme w label dataset_model self' w').
Proof.
  induction items as [|[label0 dm0] rest IH]; intros self w self' w' Hnd Hs Hrun.
  - injection Hrun as <- <-. split; [apply unchanged_below_refl|].
    split; [auto|]. intros label dm [].
  - cbn [init_loop] in Hrun. apply mbind_inr in Hrun.
    destruct Hrun as (self1 & w1 & Hfirst & Hrest).
    simpl in Hnd. apply NoDup_cons_iff in Hnd. destruct Hnd as [Hnotin Hnd].
    apply init_dataset_inv in Hfirst; [|assumption].
    destruct Hfirst as (Hu1 & Hother1 & Hprep1).
    apply IH in Hrest; [|assumption|eapply stored_mono; eassumption].
    destruct Hrest as (Hu2 & Hother2 & Hprep2).
    split; [|split].
    + eapply unchanged_below_trans; [exact Hu1|].
      eapply unchanged_below_le; [|exact Hu2]. destruct Hu1; assumption.
    + intros l Hl. simpl in Hl.
      destruct (Hother2 l) as [E1 E2]; [tauto|].
      destruct (Hother1 l) as [E3 E4]; [intros ->; tauto|]. split; congruence.
    + intros label dm [[= <- <-]|Hin].
      * destruct (Hother2 label0 Hnotin) as [E1 E2].
        eapply prepared_later; eassumption.
      * eapply prepared_earlier; eauto.
Qed.

Lemma contents_view w r :
  ndarray.nrow (contents w r) = view_nrow w r /\
  ndarray.ncol (contents w r) = view_ncol w r /\
  forall i j, ndarray.item (contents w r) i j = view_item w r i j.
Proof.
  unfold contents, view, view_nrow, view_ncol, view_item.
  destruct (transposed r); repeat split.
Qed.

(** C8.  After [DataProvider.__init__] returned, for every dataset of the
    group [get_data] is an array of the provider with the model dimension
    first: it has the shape of the dataset's variable "data", and its
    element at the model index [i] and the global index [j] is the element
    of "data" at these indices (read as it was before the construction,
    with the indices exchanged when "data" has the global dimension
    first), multiplied by the element of the weight that [get_weight]
    returns when there is one, and as it is when there is none.  A weight
    with a dimension of length one is repeated along that dimension, as
    NumPy does.  A weight is missing exactly when neither the dataset has a
    variable "weight" nor the model a weight for the dataset. *)
Theorem get_data_is_weighted_data scheme dataset_models w self w' :
  NoDup (keys dataset_models) ->
  stored scheme w ->
  init scheme dataset_models w = (inr self, w') ->
  forall label dataset_model,
    In (label, dataset_model) dataset_models ->
    exists dataset variable global_dimension r weight,
      dict_get label (scheme_data scheme) = Some dataset /\
      dict_get "data" (variables dataset) = Some variable /\
      infer_global_dimension (get_model_dimension dataset_model) (dims variable) =
        inr global_dimension /\
      get_data self label = inr r /\
      get_weight self label = inr weight /\
      (weight = None <->
       dict_get "weight" (variables dataset) = None /\
       filter (targets label) (weights scheme) = []) /\
      let model_first :=
        dims_eqb (dims variable) (get_model_dimension dataset_model, global_dimension) in
      let raw i j :=
        if model_first then view_item w (data variable) i j
        else view_item w (data variable) j i in
      view_nrow w' r =
        (if model_first then view_nrow w (data variable)
         else view_ncol w (data variable)) /\
      view_ncol w' r =
        (if model_first then view_ncol w (data variable)
         else view_nrow w (data variable)) /\
      forall i j,
        view_item w' r i j =
        match weight with
        | Some weight =>
            (raw i j *
             view_item w' weight
               (if (view_nrow w' weight =? 1)%nat then 0%nat else i)
               (if (view_ncol w' weight =? 1)%nat then 0%nat else j))%Q
        | None => raw i j
        end.
Proof.
  intros Hnd Hs Hrun label dm Hin.
  destruct (init_loop_prepared scheme dataset_models empty w self w' Hnd Hs Hrun)
    as (_ & _ & Hprep).
  destruct (Hprep label dm Hin)
    as (dataset & variable & gd & r & weight & H1 & H2 & H3 & H4 & H5 & _ & _ & H8 & H9).
  exists dataset, variable, gd, r, weight.
  repeat (split; [assumption|]). cbv zeta in H9 |- *.
  destruct (contents_view w' r) as (Er & Ec & Ei).
  destruct (contents_view w (data variable)) as (Dr & Dc & Di).
  rewrite <- Er, <- Ec. split; [|split].
  - rewrite H9. destruct weight as [weight|];
      destruct (dims_eqb _ _); cbn [ndarray.multiply ndarray.T ndarray.nrow];
      congruence.
  - rewrite H9. destruct weight as [weight|];
      destruct (dims_eqb _ _); cbn [ndarray.multiply ndarray.T ndarray.ncol];
      congruence.
  - intros i j. rewrite <- Ei, H9.
    destruct weight as [weight|].
    + destruct (contents_view w' weight) as (Wr & Wc & Wi).
      rewrite <- Wr, <- Wc, <- Wi.
      destruct (dims_eqb _ _); cbn [ndarray.multiply ndarray.T ndarray.item];
        now rewrite Di.
    + destruct (dims_eqb _ _); cbn [ndarray.T ndarray.item]; now rewrite Di.
Qed.

End DataProviderLoop.

(** ** The aligned global axis of a linked provider *)

Section LinkedProvider.
Import DataProvider DataProviderLinked.
Local Open Scope string_scope.

Lemma dict_set_keys {V} (k : string) (v : V) d :
  NoDup (keys d) -> NoDup (keys (dict_set k v d)).
Proof.
  intros Hnd. destruct (in_dec string_dec k (keys d)) as [Hin|Hnotin].
  - assert (keys (dict_set k v d) = keys d) as ->; [|assumption].
    clear Hnd. induction d as [|[k' v'] d IH]; simpl in *; [tauto|].
    destruct (String.eqb_spec k k') as [->|Hne]; simpl; [reflexivity|].
    f_equal. apply IH. destruct Hin; [congruence|assumption].
  - rewrite dict_set_fresh by assumption. unfold keys. rewrite map_app. simpl.
    apply NoDup_app; [assumption|repeat constructor; tauto|].
    intros x Hx [<-|[]]. contradiction.
Qed.

Lemma init_dataset_global_axes scheme self label dataset_model w self' w' :
  init_dataset scheme self (label, dataset_model) w = (inr self', w') ->
  exists global_axis,
    _global_axes self' = dict_set label global_axis (_global_axes self).
Proof.
  intros Hrun. unfold init_dataset in Hrun.
  apply mbind_inr in Hrun. destruct Hrun as (dataset & w1 & _ & Hrun).
  apply mbind_inr in Hrun. destruct Hrun as (model_axis & w2 & _ & Hrun).
  apply mbind_inr in Hrun. destruct Hrun as (variable & w3 & _ & Hrun).
  apply mbind_inr in Hrun. destruct Hrun as (gd & w4 & _ & Hrun).
  apply mbind_inr in Hrun. destruct Hrun as (global_axis & w5 & _ & Hrun).
  exists global_axis.
  apply mbind_inr in Hrun. destruct Hrun as (weight0 & w6 & _ & Hrun).
  apply mbind_inr in Hrun. destruct Hrun as (self1 & w7 & Hadd & Hrun).
  assert (_global_axes self1 = dict_set label global_axis (_global_axes self)) as H1.
  { apply add_model_weight_inv in Hadd.
    destruct Hadd as [(_ & -> & _)|[(_ & _ & -> & _)|(_ & wr & -> & _)]]; reflexivity. }
  apply mbind_inr in Hrun. destruct Hrun as ([data|] & w8 & _ & Hrun); [|discriminate].
  apply mbind_inr in Hrun. destruct Hrun as (weight & w9 & _ & Hrun).
  apply mbind_inr in Hrun. destruct Hrun as ([] & w10 & _ & Hrun).
  destruct (has_global_model dataset_model).
  - apply mbind_inr in Hrun. destruct Hrun as (a & w11 & _ & Hrun).
    apply mbind_inr in Hrun. destruct Hrun as (fw & w12 & _ & Hrun).
    injection Hrun as <- _. exact H1.
  - injection Hrun as <- _. exact H1.
Qed.

Lemma init_loop_global_axes scheme items : forall self w self' w',
  NoDup (keys (_global_axes self)) ->
  init_loop scheme items self w = (inr self', w') ->
  NoDup (keys (_global_axes self')).
Proof.
  induction items as [|[label dm] rest IH]; intros self w self' w' Hnd Hrun.
  - now injection Hrun as <- _.
  - cbn [init_loop] in Hrun. apply mbind_inr in Hrun.
    destruct Hrun as (self1 & w1 & Hfirst & Hrest).
    apply init_dataset_global_axes in Hfirst. destruct Hfirst as [axis E].
    eapply IH; [|exact Hrest]. rewrite E. now apply dict_set_keys.
Qed.

(** C9 (as amended).  After the construction of a linked provider
    succeeded, the aligned global axis has exactly the values of the
    datasets' aligned axes.  It has no repeated coordinate as soon as the
    group has more than one dataset, and it is sorted increasingly unless it
    is the aligned axis of one dataset taken over unchanged, the aligned
    axes of all other datasets being empty or identical to it. *)
Theorem aligned_global_axis_union scheme dataset_models w
    self aligned_global_axes axis w' :
  DataProviderLinked.init scheme dataset_models w =
    (inr (self, aligned_global_axes, axis), w') ->
  (forall x, In x axis <->
             exists label aligned, In (label, aligned) aligned_global_axes /\
                                   In x aligned) /\
  (NoDup axis \/ length aligned_global_axes = 1) /\
  (StronglySorted Z.lt axis \/
   (In axis (values aligned_global_axes) /\
    forall a, In a (values aligned_global_axes) -> a = [] \/ a = axis)).
Proof.
  intros Hrun. unfold DataProviderLinked.init in Hrun.
  apply mbind_inr in Hrun. destruct Hrun as (self0 & w1 & Hinit & Hrun).
  apply mbind_inr in Hrun. destruct Hrun as (axes & w2 & Hcreate & Hrun).
  apply lift_inr in Hcreate. destruct Hcreate as [Hcreate ->].
  apply mbind_inr in Hrun. destruct Hrun as (axis0 & w2 & Halign & Hrun).
  apply lift_inr in Halign. destruct Halign as [Halign ->].
  injection Hrun as <- <- <- <-.
  assert (NoDup (keys (_global_axes self0))) as Hnd.
  { eapply (init_loop_global_axes scheme dataset_models empty); [constructor|exact Hinit]. }
  destruct (concat_global_coordinate_spec _ _ Halign) as [Hset Hsorted].
  split; [|split; [|exact Hsorted]].
  - intros x. rewrite Hset. unfold values. split.
    + intros (a & Ha & Hx). apply in_map_iff in Ha.
      destruct Ha as ([label aligned] & <- & Hin). eauto.
    + intros (label & aligned & Hin & Hx). exists aligned. split; [|exact Hx].
      apply in_map_iff. exists (label, aligned). auto.
  - eapply aligned_axis_NoDup; eassumption.
Qed.

End LinkedProvider.

Section DataProviderExamples.
Import DataProvider.
Local Open Scope string_scope.

Lemma example_models_keys : NoDup (keys example_models).
Proof. repeat constructor; simpl; tauto. Defined.

Lemma example_stored with_weight model_weights :
  stored (example_scheme with_weight model_weights) example_store.
Proof.
  intros label dataset name variable [[= <- <-]|[]] Hin.
  destruct with_weight; simpl in Hin;
    repeat (destruct Hin as [[= <- <-]|Hin]; [simpl; lia|]); destruct Hin.
Defined.

(** As soon as the weight of the dataset has more than one element, a
    model weight for the dataset makes [add_model_weight] raise. *)
Lemma add_model_weight_ambiguous_truth_value self model_weights label md gd w r :
  filter (targets label) model_weights <> [] ->
  dict_get label (_weight self) = Some (Some r) ->
  2 <= ndarray.size (contents w r) ->
  add_model_weight self model_weights label md gd w = (inl ValueError, w).
Proof.
  intros Hf Hw Hsize. unfold add_model_weight.
  destruct (filter (targets label) model_weights); [congruence|].
  unfold mbind, lift, getitem. rewrite Hw. cbn [ret weight_truth_value].
  unfold mbind, read, lift, ndarray.truth_value. cbn [fst snd].
  destruct (ndarray.size (contents w r)) as [|[|n]]; [lia|lia|reflexivity].
Qed.

(** Only a weight of a single element that is not zero is kept, with the
    warning. *)
Lemma add_model_weight_keeps_single_element self model_weights label md gd w r :
  filter (targets label) model_weights <> [] ->
  dict_get label (_weight self) = Some (Some r) ->
  ndarray.size (contents w r) = 1 ->
  Qeq_bool (ndarray.item (contents w r) 0 0) 0 = false ->
  add_model_weight self model_weights label md gd w =
    (inr self, {| buffers := buffers w;
                  warnings := (warnings w ++ [ignoring_model_weight label])%list |}).
Proof.
  intros Hf Hw Hsize Hitem. unfold add_model_weight.
  destruct (filter (targets label) model_weights); [congruence|].
  unfold mbind, lift, getitem. rewrite Hw. cbn [ret weight_truth_value].
  unfold mbind, read, lift, ndarray.truth_value. cbn [fst snd].
  rewrite Hsize, Hitem. reflexivity.
Qed.

(** C3.  A dataset that brings its own 2 x 2 weight, and a model with a
    weight for that dataset: [add_model_weight] asks for the truth value of
    the dataset's weight array, which NumPy refuses for an array of more
    than one element.  [__init__] ends with [ValueError]; no warning was
    issued. *)
Theorem add_model_weight_truth_value_of_array :
  let outcome := init (example_scheme true [example_weight]) example_models example_store in
  fst outcome = inl ValueError /\ warnings (snd outcome) = [].
Proof. vm_compute. split; reflexivity. Qed.

Lemma transposed_stored : stored transposed_scheme transposed_store.
Proof.
  intros label dataset name variable [[= <- <-]|[]] Hin. simpl in Hin.
  repeat (destruct Hin as [[= <- <-]|Hin]; [simpl; lia|]); destruct Hin.
Defined.

Lemma get_data_is_weighted_data_witness :
  exists self w',
    init transposed_scheme example_models transposed_store = (inr self, w') /\
    (exists r, get_data self "dataset1" = inr r /\
               view_rows w' r = [[6; 4; 6]; [3; 5; 14]]%Q) /\
    forall label dataset_model,
      In (label, dataset_model) example_models ->
      exists dataset variable global_dimension r weight,
        dict_get label (scheme_data transposed_scheme) = Some dataset /\
        dict_get "data" (variables dataset) = Some variable /\
        infer_global_dimension (get_model_dimension dataset_model) (dims variable) =
          inr global_dimension /\
        get_data self label = inr r /\
        get_weight self label = inr weight /\
        (weight = None <->
         dict_get "weight" (variables dataset) = None /\
         filter (targets label) (weights transposed_scheme) = []) /\
        let model_first :=
          dims_eqb (dims variable) (get_model_dimension dataset_model, global_dimension) in
        let raw i j :=
          if model_first then view_item transposed_store (data variable) i j
          else view_item transposed_store (data variable) j i in
        view_nrow w' r =
          (if model_first then view_nrow transposed_store (data variable)
           else view_ncol transposed_store (data variable)) /\
        view_ncol w' r =
          (if model_first then view_ncol transposed_store (data variable)
           else view_nrow transposed_store (data variable)) /\
        forall i j,
          view_item w' r i j =
          match weight with
          | Some weight =>
              (raw i j *
               view_item w' weight
                 (if (view_nrow w' weight =? 1)%nat then 0%nat else i)
                 (if (view_ncol w' weight =? 1)%nat then 0%nat else j))%Q
          | None => raw i j
          end.
Proof.
  let v := eval vm_compute in (init transposed_scheme example_models transposed_store) in
  match v with
  | (inr ?self, ?w') =>
      assert (init transposed_scheme example_models transposed_store = (inr self, w'))
        as E by (vm_compute; reflexivity);
      exists self, w'
  end.
  split; [exact E|]. split.
  - eexists. split; vm_compute; reflexivity.
  - exact (get_data_is_weighted_data _ _ _ _ _ example_models_keys transposed_stored E).
Defined.

Lemma init_leaves_datasets_unchanged_witness :
  let w' := snd (init (example_scheme false [example_weight]) example_models
                      example_store) in
  firstn 2 (buffers w') = buffers example_store /\
  contents w' {| base := 0; transposed := false |} =
    contents example_store {| base := 0; transposed := false |}.
Proof.
  intros w'.
  destruct (init_leaves_datasets_unchanged (example_scheme false [example_weight])
              example_models example_store) as (H1 & H2 & _).
  split; [exact H1|]. apply H2. simpl. lia.
Defined.

Lemma aligned_global_axis_union_witness :
  exists self aligned_global_axes w',
    DataProviderLinked.init linked_scheme linked_models linked_store =
      (inr (self, aligned_global_axes, [1; 5; 9]%Z), w') /\
    (forall x, In x [1; 5; 9]%Z <->
               exists label aligned, In (label, aligned) aligned_global_axes /\
                                     In x aligned) /\
    (NoDup [1; 5; 9]%Z \/ length aligned_global_axes = 1) /\
    (StronglySorted Z.lt [1; 5; 9]%Z \/
     (In [1; 5; 9]%Z (values aligned_global_axes) /\
      forall a, In a (values aligned_global_axes) -> a = [] \/ a = [1; 5; 9]%Z)).
Proof.
  assert (exists self aligned_global_axes w',
            DataProviderLinked.init linked_scheme linked_models linked_store =
              (inr (self, aligned_global_axes, [1; 5; 9]%Z), w'))
    as (self & axes & w' & E)
    by (do 3 eexists; vm_compute; reflexivity).
  exists self, axes, w'. split; [exact E|].
  exact (aligned_global_axis_union _ _ _ _ _ _ _ E).
Defined.

(** A single dataset whose global axis is decreasing: the aligned global
    axis is that axis, in its own order. *)
Lemma aligned_global_axis_not_sorted :
  ~ (forall scheme dataset_models w self aligned_global_axes axis w',
       DataProviderLinked.init scheme dataset_models w =
         (inr (self, aligned_global_axes, axis), w') ->
       StronglySorted Z.lt axis).
Proof.
  intros H.
  assert (exists self aligned_global_axes w',
            DataProviderLinked.init decreasing_scheme example_models linked_store =
              (inr (self, aligned_global_axes, [5; 1]%Z), w'))
    as (self & axes & w' & E)
    by (do 3 eexists; vm_compute; reflexivity).
  apply H in E. inversion E as [|? ? _ Hall]; subst.
  inversion Hall; subst. lia.
Qed.

End DataProviderExamples.

(** ** The parameter store *)

Section ParameterStore.
Import ParameterGroup Expressions.

Lemma param_update r x (s : store) r' :
  param (list_update r x s) r' =
  if (r =? r') && (r <? length s) then x else param s r'.
Proof.
  unfold param. destruct (Nat.eqb_spec r r') as [<-|Hne]; simpl.
  - destruct (Nat.ltb_spec r (length s)).
    + now apply list_update_nth_eq.
    + revert r H. induction s as [|y s IH]; intros [|r] H; simpl in *;
        try reflexivity; try lia. apply IH. lia.
  - now apply list_update_nth_ne.
Qed.

Lemma relabelled_refl s : relabelled s s.
Proof. split; auto. Qed.

Lemma relabelled_trans s1 s2 s3 :
  relabelled s1 s2 -> relabelled s2 s3 -> relabelled s1 s3.
Proof. intros [H1 H2] [H3 H4]. split; [congruence|]. intros r. now rewrite H4. Qed.

Lemma relabelled_value s s' r :
  relabelled s s' -> Param.value (param s' r) = Param.value (param s r).
Proof.
  intros [_ H]. specialize (H r).
  exact (f_equal Param.value H).
Qed.

Lemma relabelled_expression s s' r :
  relabelled s s' -> Param.expression (param s' r) = Param.expression (param s r).
Proof. intros [_ H]. exact (f_equal Param.expression (H r)). Qed.

Lemma relabelled_vary s s' r :
  relabelled s s' -> Param._vary (param s' r) = Param._vary (param s r).
Proof. intros [_ H]. exact (f_equal Param._vary (H r)). Qed.

Lemma relabelled_with_full_label s s' r l :
  relabelled s s' ->
  Param.with_full_label l (param s' r) = Param.with_full_label l (param s r).
Proof.
  intros [_ H]. specialize (H r).
  change (Param.with_full_label l (Param.with_full_label "" (param s' r)) =
          Param.with_full_label l (Param.with_full_label "" (param s r))).
  now rewrite H.
Qed.

Lemma set_full_label_relabelled r l s :
  relabelled s (snd (set_full_label r l s)).
Proof.
  split; simpl; [apply list_update_length|].
  intros r'. rewrite param_update.
  destruct ((r =? r') && (r <? length s)) eqn:E; [|reflexivity].
  apply andb_true_iff in E. destruct E as [E _]. apply Nat.eqb_eq in E. now subst.
Qed.

Lemma get_relabelled g l s : relabelled s (snd (get g l s)).
Proof.
  unfold get. destruct (find g l) as [r|]; [|apply relabelled_refl].
  unfold mbind. cbn. apply set_full_label_relabelled.
Qed.

Lemma get_result g l s : fst (get g l s) = inr (find g l).
Proof. unfold get. destruct (find g l); reflexivity. Qed.

Lemma evaluator_relabelled g e : forall s, relabelled s (snd (evaluator g e s)).
Proof.
  assert (forall op a b,
            (forall s, relabelled s (snd (evaluator g a s))) ->
            (forall s, relabelled s (snd (evaluator g b s))) ->
            forall s, relabelled s (snd (binary op (evaluator g a) (evaluator g b) s)))
    as Hbin.
  { intros op a b Ha Hb s. unfold binary, mbind. specialize (Ha s).
    destruct (evaluator g a s) as [[ex|[x|]] s1]; simpl in *; try assumption.
    specialize (Hb s1).
    destruct (evaluator g b s1) as [[ex|[y|]] s2]; simpl in *;
      eapply relabelled_trans; eassumption. }
  induction e as [q|l|e IHe|a IHa b IHb|a IHa b IHb|a IHa b IHb|a IHa b IHb];
    intros s; cbn [evaluator]; auto.
  - apply relabelled_refl.
  - unfold mbind. pose proof (get_relabelled g l s) as H.
    pose proof (get_result g l s) as Hr.
    destruct (get g l s) as [res s1]. simpl in *. subst res.
    destruct (find g l); simpl; assumption.
  - unfold mbind. specialize (IHe s).
    destruct (evaluator g e s) as [[ex|x] s1]; simpl in *; assumption.
Qed.

(** The value of an expression depends on the store only through the
    values of the parameters it refers to. *)
Lemma evaluator_ext g e : forall s1 s2,
  (forall l r, In l (refs e) -> find g l = Some r ->
               Param.value (param s1 r) = Param.value (param s2 r)) ->
  fst (evaluator g e s1) = fst (evaluator g e s2).
Proof.
  assert (forall op a b,
            (forall s1 s2,
               (forall l r, In l (refs a) -> find g l = Some r ->
                            Param.value (param s1 r) = Param.value (param s2 r)) ->
               fst (evaluator g a s1) = fst (evaluator g a s2)) ->
            (forall s1 s2,
               (forall l r, In l (refs b) -> find g l = Some r ->
                            Param.value (param s1 r) = Param.value (param s2 r)) ->
               fst (evaluator g b s1) = fst (evaluator g b s2)) ->
            forall s1 s2,
              (forall l r, In l (refs a ++ refs b) -> find g l = Some r ->
                           Param.value (param s1 r) = Param.value (param s2 r)) ->
              fst (binary op (evaluator g a) (evaluator g b) s1) =
              fst (binary op (evaluator g a) (evaluator g b) s2)) as Hbin.
  { intros op a b Ha Hb s1 s2 H. unfold binary, mbind.
    specialize (Ha s1 s2). pose proof (evaluator_relabelled g a s1) as R1.
    pose proof (evaluator_relabelled g a s2) as R2.
    destruct (evaluator g a s1) as [x1 t1], (evaluator g a s2) as [x2 t2].
    simpl in *.
    rewrite Ha by (intros l r Hl Hf; apply (H l r); auto using in_or_app).
    destruct x2 as [ex|[x|]]; try reflexivity.
    specialize (Hb t1 t2).
    destruct (evaluator g b t1) as [y1 u1], (evaluator g b t2) as [y2 u2].
    simpl in *. rewrite Hb.
    - destruct y2 as [ex|[y|]]; reflexivity.
    - intros l r Hl Hf. rewrite (relabelled_value s1 t1), (relabelled_value s2 t2) by assumption.
      apply (H l r); auto using in_or_app. }
  induction e as [q|l|e IHe|a IHa b IHb|a IHa b IHb|a IHa b IHb|a IHa b IHb];
    intros s1 s2 H; cbn [evaluator refs] in *; auto.
  - unfold mbind.
    pose proof (get_relabelled g l s1) as R1. pose proof (get_result g l s1) as E1.
    pose proof (get_relabelled g l s2) as R2. pose proof (get_result g l s2) as E2.
    destruct (get g l s1) as [x1 t1], (get g l s2) as [x2 t2]. simpl in *.
    subst. destruct (find g l) as [r|] eqn:Hf; simpl; [|reflexivity].
    rewrite (relabelled_value s1 t1), (relabelled_value s2 t2) by assumption.
    now rewrite (H l r) by auto.
  - unfold mbind. specialize (IHe s1 s2 H).
    destruct (evaluator g e s1) as [x1 t1], (evaluator g e s2) as [x2 t2]. simpl in *.
    subst. destruct x2; reflexivity.
Qed.

End ParameterStore.

Section UpdateExpressions.
Import ParameterGroup Expressions.

Variable g : ParameterGroup.t.

Lemma static_refl s : static s s.
Proof. split; auto. Qed.

Lemma static_relabelled s0 s s' : static s0 s -> relabelled s s' -> static s0 s'.
Proof.
  intros [Hlen H] R. split; [destruct R; congruence|].
  intros r. destruct (H r) as (H1 & H2 & H3).
  rewrite (relabelled_expression s s'), (relabelled_vary s s'),
    (relabelled_value s s') by assumption. auto.
Qed.

Lemma ref_ok_more s0 done r l :
  ref_ok g s0 done l = true -> ref_ok g s0 (done ++ [r]) l = true.
Proof.
  unfold ref_ok. destruct (find g l) as [r'|]; [|reflexivity].
  rewrite !orb_true_iff, !existsb_exists.
  intros [H|(x & Hx & E)]; [now left|right].
  exists x. split; [apply in_or_app; now left|assumption].
Qed.

Lemma ref_ok_other s0 done r l r' :
  ref_ok g s0 done l = true -> find g l = Some r' ->
  ~ In r done -> Param.expression (param s0 r) <> None -> r' <> r.
Proof.
  unfold ref_ok. intros H Hf Hnotin Hexpr ->. rewrite Hf in H.
  apply orb_true_iff in H. destruct H as [H|H].
  - destruct (Param.expression (param s0 r)); [discriminate|congruence].
  - apply existsb_exists in H. destruct H as (x & Hx & E).
    apply Nat.eqb_eq in E. subst. contradiction.
Qed.

Lemma expression_in_range (s : store) r e :
  Param.expression (param s r) = Some e -> r < length s.
Proof.
  intros H. destruct (Nat.lt_ge_cases r (length s)) as [|Hge]; [assumption|].
  unfold param in H. rewrite nth_overflow in H by assumption. discriminate.
Qed.

Lemma update_parameter_step s0 done l r s s1 :
  static s0 s -> settled g s0 done s -> ~ In r done ->
  match Param.expression (param s0 r) with
  | Some e => forallb (ref_ok g s0 done) (refs e) = true
  | None => True
  end ->
  update_parameter g l r tt (snd (set_full_label r l s)) = (inr tt, s1) ->
  static s0 s1 /\ settled g s0 (done ++ [r]) s1.
Proof.
  intros Hstatic Hsettled Hnotin Hok Hrun.
  pose proof (set_full_label_relabelled r l s) as Ra.
  set (sa := snd (set_full_label r l s)) in *.
  assert (static s0 sa) as Hsa by (eapply static_relabelled; eassumption).
  unfold update_parameter, mbind, get_param in Hrun. cbn [fst snd] in Hrun.
  destruct (proj2 Hsa r) as (Hexpr & _ & _). rewrite Hexpr in Hrun.
  destruct (Param.expression (param s0 r)) as [e|] eqn:He.
  - (* the parameter has an expression *)
    pose proof (evaluator_relabelled g e sa) as Rb.
    destruct (evaluator g e sa) as [[ex|[v|]] sb] eqn:Hev; try discriminate.
    cbn [snd] in Rb. unfold set_value in Hrun. injection Hrun as <-.
    assert (r < length sb) as Hr.
    { destruct Rb as [-> _]. eapply expression_in_range. eassumption. }
    assert (forall r', r' <> r ->
              param (list_update r (Param.with_value v (param sb r)) sb) r' = param sb r')
      as Hother.
    { intros r' Hne. rewrite param_update.
      destruct (Nat.eqb_spec r r'); [congruence|reflexivity]. }
    assert (param (list_update r (Param.with_value v (param sb r)) sb) r =
            Param.with_value v (param sb r)) as Hself.
    { rewrite param_update, Nat.eqb_refl. apply Nat.ltb_lt in Hr. now rewrite Hr. }
    assert (static s0 sb) as Hsb by (eapply static_relabelled; eassumption).
    split.
    + split; [rewrite list_update_length; apply Hsb|].
      intros r'. destruct (Nat.eq_dec r' r) as [->|Hne].
      * rewrite Hself. cbn. destruct (proj2 Hsb r) as (H1 & H2 & _).
        rewrite H1, H2, He. repeat split; auto. discriminate.
      * rewrite Hother by assumption. apply Hsb.
    + assert (forall e',
                forallb (ref_ok g s0 done) (refs e') = true ->
                forall s2, relabelled s s2 ->
                fst (evaluator g e' (list_update r (Param.with_value v (param sb r)) sb)) =
                fst (evaluator g e' s2)) as Hsame.
      { intros e' Hrefs s2 R2. apply evaluator_ext. intros l' r' Hl Hf.
        rewrite forallb_forall in Hrefs.
        assert (r' <> r) as Hne.
        { eapply ref_ok_other; eauto. rewrite He. discriminate. }
        rewrite Hother by assumption.
        rewrite (relabelled_value sa sb), (relabelled_value s sa),
          (relabelled_value s s2) by assumption. reflexivity. }
      intros r' e' Hin He'. apply in_app_or in Hin.
      destruct Hin as [Hin|[<-|[]]].
      * destruct (Hsettled r' e' Hin He') as [Hrefs Hval].
        split; [rewrite forallb_forall in *; auto using ref_ok_more|].
        rewrite (Hsame e' Hrefs s (relabelled_refl s)), Hval.
        rewrite Hother by (intros ->; contradiction).
        now rewrite (relabelled_value sa sb), (relabelled_value s sa).
      * rewrite He in He'. injection He' as <-.
        split; [rewrite forallb_forall in *; auto using ref_ok_more|].
        rewrite (Hsame e Hok sa Ra), Hev, Hself. reflexivity.
  - (* no expression: nothing is written *)
    injection Hrun as <-. split; [assumption|].
    intros r' e' Hin He'. apply in_app_or in Hin.
    destruct Hin as [Hin|[<-|[]]]; [|congruence].
    destruct (Hsettled r' e' Hin He') as [Hrefs Hval].
    split; [rewrite forallb_forall in *; auto using ref_ok_more|].
    rewrite (relabelled_value s sa) by assumption. rewrite <- Hval.
    apply evaluator_ext. intros. now apply relabelled_value.
Qed.

Lemma for_all_update s0 items : forall done s s',
  static s0 s -> settled g s0 done s ->
  NoDup (done ++ map snd items) ->
  ordered_from g s0 done items = true ->
  for_all items (update_parameter g) tt s = (inr tt, s') ->
  static s0 s' /\ settled g s0 (done ++ map snd items) s'.
Proof.
  induction items as [|[l r] rest IH]; intros done s s' Hstatic Hsettled Hnd Hord Hrun.
  - injection Hrun as <-. simpl. rewrite app_nil_r. auto.
  - cbn [for_all] in Hrun.
    apply mbind_inr in Hrun. destruct Hrun as ([] & sa & Ha & Hrun).
    apply mbind_inr in Hrun. destruct Hrun as ([] & s1 & H1 & Hrun).
    assert (sa = snd (set_full_label r l s)) as -> by (now rewrite Ha).
    cbn [ordered_from] in Hord. apply andb_true_iff in Hord. destruct Hord as [Hok Hord].
    simpl in Hnd.
    assert (~ In r done) as Hnotin.
    { apply NoDup_remove_2 in Hnd. intros Hin. apply Hnd. apply in_or_app. now left. }
    destruct (update_parameter_step s0 done l r s s1 Hstatic Hsettled Hnotin) as [Hs1 Hset1];
      [destruct (Param.expression (param s0 r)); auto|assumption|].
    simpl. replace (done ++ r :: map snd rest) with ((done ++ [r]) ++ map snd rest)
      by (rewrite <- app_assoc; reflexivity).
    apply (IH (done ++ [r]) s1 s'); auto.
    rewrite <- app_assoc. exact Hnd.
Qed.

Lemma for_all_app {A} items1 items2 (body : string -> nat -> A -> State store A) acc s :
  for_all (items1 ++ items2) body acc s =
  match for_all items1 body acc s with
  | (inl e, s1) => (inl e, s1)
  | (inr acc1, s1) => for_all items2 body acc1 s1
  end.
Proof.
  revert acc s. induction items1 as [|[l r] rest IH]; intros acc s; [reflexivity|].
  cbn [app for_all]. unfold mbind.
  destruct (set_full_label r l s) as [[e|[]] sa]; [reflexivity|].
  destruct (body l r acc sa) as [[e|acc1] s1]; [reflexivity|apply IH].
Qed.

Lemma update_parameter_static s0 l r s :
  static s0 s -> static s0 (snd (update_parameter g l r tt s)).
Proof.
  intros Hs. unfold update_parameter, mbind, get_param. cbn [fst snd].
  destruct (Param.expression (param s r)) as [e|] eqn:He; [|assumption].
  pose proof (evaluator_relabelled g e s) as R.
  destruct (evaluator g e s) as [[ex|[v|]] sb]; cbn [snd] in *;
    try (eapply static_relabelled; eassumption).
  assert (static s0 sb) as [Hlen Hsb] by (eapply static_relabelled; eassumption).
  split; [simpl; now rewrite list_update_length|].
  intros r'. simpl. rewrite param_update.
  destruct ((r =? r') && (r <? length sb)) eqn:E; [|apply Hsb].
  apply andb_true_iff in E. destruct E as [E _]. apply Nat.eqb_eq in E. subst r'.
  destruct (Hsb r) as (H1 & H2 & H3). cbn. repeat split; auto.
  intros Hnone. rewrite <- H1, (relabelled_expression s sb), He in Hnone by assumption.
  discriminate.
Qed.

Lemma for_all_update_static s0 items : forall s,
  static s0 s -> static s0 (snd (for_all items (update_parameter g) tt s)).
Proof.
  induction items as [|[l r] rest IH]; intros s Hs; cbn [for_all]; [assumption|].
  unfold mbind at 1. cbn [set_full_label].
  set (sa := list_update r (Param.with_full_label l (param s r)) s).
  assert (static s0 sa) as Hsa.
  { eapply static_relabelled; [exact Hs|]. apply (set_full_label_relabelled r l s). }
  unfold mbind. pose proof (update_parameter_static s0 l r sa Hsa) as Hb.
  destruct (update_parameter g l r tt sa) as [[ex|[]] sb]; cbn [snd] in *;
    [assumption|now apply IH].
Qed.

Lemma update_parameter_other l r' s r :
  r <> r' ->
  Param.value (param (snd (update_parameter g l r' tt s)) r) = Param.value (param s r).
Proof.
  intros Hne. unfold update_parameter, mbind, get_param. cbn [fst snd].
  destruct (Param.expression (param s r')) as [e|]; [|reflexivity].
  pose proof (evaluator_relabelled g e s) as R.
  destruct (evaluator g e s) as [[ex|[v|]] sb]; cbn [snd] in *;
    try (now apply relabelled_value).
  unfold set_value. cbn [snd]. rewrite param_update.
  destruct (Nat.eqb_spec r' r); [congruence|].
  simpl. now apply relabelled_value.
Qed.

Lemma for_all_update_other r items : forall s,
  ~ In r (map snd items) ->
  Param.value (param (snd (for_all items (update_parameter g) tt s)) r) =
  Param.value (param s r).
Proof.
  induction items as [|[l r'] rest IH]; intros s Hnotin; cbn [for_all]; [reflexivity|].
  simpl in Hnotin.
  assert (r <> r') as Hne by (intros ->; tauto).
  assert (~ In r (map snd rest)) as Hrest by tauto.
  unfold mbind at 1. cbn [set_full_label].
  set (sa := list_update r' (Param.with_full_label l (param s r')) s).
  assert (Param.value (param sa r) = Param.value (param s r)) as Ha
    by (apply relabelled_value; apply (set_full_label_relabelled r' l s)).
  unfold mbind. pose proof (update_parameter_other l r' sa r Hne) as Hb.
  destruct (update_parameter g l r' tt sa) as [[ex|[]] sb]; cbn [snd] in *.
  - rewrite Hb. exact Ha.
  - rewrite IH by assumption. rewrite Hb. exact Ha.
Qed.

(** The value of a parameter with an expression is computed when [all]
    yields it, in the store left by the updates of the parameters before
    it. *)
Lemma update_parameter_expression_at_its_turn s s' pre l r post e :
  update_parameter_expression g s = (inr tt, s') ->
  all g = pre ++ (l, r) :: post ->
  ~ In r (map snd post) ->
  Param.expression (param s r) = Some e ->
  exists s_pre s_mid,
    for_all pre (update_parameter g) tt s = (inr tt, s_pre) /\
    evaluator g e (snd (set_full_label r l s_pre)) =
      (inr (Some (Param.value (param s' r))), s_mid).
Proof.
  unfold update_parameter_expression. intros Hrun Hall Hnotin He.
  rewrite Hall, for_all_app in Hrun.
  pose proof (for_all_update_static s pre s (static_refl s)) as Hpre.
  destruct (for_all pre (update_parameter g) tt s) as [[ex|[]] s_pre]; [discriminate|].
  cbn [snd] in Hpre. exists s_pre.
  cbn [for_all] in Hrun. unfold mbind at 1 in Hrun. cbn [set_full_label] in Hrun.
  change (list_update r (Param.with_full_label l (param s_pre r)) s_pre)
    with (snd (set_full_label r l s_pre)) in Hrun.
  pose proof (set_full_label_relabelled r l s_pre) as Ra.
  set (sa := snd (set_full_label r l s_pre)) in *.
  assert (Param.expression (param sa r) = Some e) as Hea.
  { rewrite (relabelled_expression s_pre sa) by assumption.
    destruct (proj2 Hpre r) as [-> _]. assumption. }
  unfold mbind at 1 in Hrun. unfold update_parameter at 1 in Hrun.
  unfold mbind at 1 in Hrun. cbn [get_param fst snd] in Hrun. rewrite Hea in Hrun.
  unfold mbind at 1 in Hrun.
  pose proof (evaluator_relabelled g e sa) as Rb.
  destruct (evaluator g e sa) as [[ex|[v|]] sb] eqn:Hev; try discriminate.
  cbn [snd] in Rb. exists sb. split; [reflexivity|].
  cbn [set_value] in Hrun.
  pose proof (for_all_update_other r post
                (list_update r (Param.with_value v (param sb r)) sb) Hnotin) as Hkeep.
  rewrite Hrun in Hkeep. cbn [snd] in Hkeep. rewrite Hkeep, param_update, Nat.eqb_refl.
  assert ((r <? length sb) = true) as ->.
  { apply Nat.ltb_lt. destruct Rb as [-> _]. eapply expression_in_range. eassumption. }
  reflexivity.
Qed.

(** C6.  After [update_parameter_expression] a parameter with an
    expression does not vary, and its value is the one its expression had
    when [all] yielded the parameter; a parameter without expression keeps
    its value and its flag.  In a group whose parameters are distinct
    objects and whose expressions refer only to parameters without
    expression or to parameters that [all] yields earlier, every parameter
    with an expression has the value of that expression in the updated
    group. *)
Theorem update_parameter_expression_recomputes s s' :
  update_parameter_expression g s = (inr tt, s') ->
  (forall r,
     Param.expression (param s' r) = Param.expression (param s r) /\
     match Param.expression (param s r) with
     | Some _ => Param.vary (param s' r) = false
     | None =>
         Param.value (param s' r) = Param.value (param s r) /\
         Param.vary (param s' r) = Param._vary (param s r)
     end) /\
  (forall pre l r post e,
     all g = pre ++ (l, r) :: post ->
     ~ In r (map snd post) ->
     Param.expression (param s r) = Some e ->
     exists s_pre s_mid,
       for_all pre (update_parameter g) tt s = (inr tt, s_pre) /\
       evaluator g e (snd (set_full_label r l s_pre)) =
         (inr (Some (Param.value (param s' r))), s_mid)) /\
  (NoDup (map snd (all g)) ->
   ordered g s ->
   forall l r e,
     In (l, r) (all g) -> Param.expression (param s r) = Some e ->
     fst (evaluator g e s') = inr (Some (Param.value (param s' r)))).
Proof.
  intros Hrun. split; [|split].
  - intros r.
    pose proof (for_all_update_static s (all g) s (static_refl s)) as Hstatic.
    unfold update_parameter_expression in Hrun. rewrite Hrun in Hstatic.
    cbn [snd] in Hstatic.
    destruct (proj2 Hstatic r) as (He & Hv & Hval). split; [assumption|].
    unfold Param.vary. rewrite He.
    destruct (Param.expression (param s r)); auto.
  - intros pre l r post e. now apply update_parameter_expression_at_its_turn.
  - intros Hnd Hord l r e Hin He.
    destruct (for_all_update s (all g) [] s s' (static_refl s)) as [_ Hsettled]; auto.
    { intros r' e' []. }
    apply (Hsettled r e); [|assumption].
    simpl. change r with (snd (l, r)). now apply in_map.
Qed.

End UpdateExpressions.

Section OptimizationArrays.
Import ParameterGroup Expressions.

Lemma same_flags_refl s : same_flags s s.
Proof. split; auto. Qed.

Lemma same_flags_trans s1 s2 s3 :
  same_flags s1 s2 -> same_flags s2 s3 -> same_flags s1 s3.
Proof.
  intros [L1 H1] [L2 H2]. split; [congruence|].
  intros r. destruct (H1 r), (H2 r). split; congruence.
Qed.

Lemma relabelled_same_flags s s' : relabelled s s' -> same_flags s s'.
Proof.
  intros R. split; [apply R|]. intros r.
  now rewrite (relabelled_expression s s'), (relabelled_vary s s').
Qed.

Lemma set_value_same_flags r q s : same_flags s (snd (set_value r q s)).
Proof.
  split; simpl; [apply list_update_length|].
  intros r'. rewrite param_update.
  destruct ((r =? r') && (r <? length s)) eqn:E; [|auto].
  apply andb_true_iff in E. destruct E as [E _]. apply Nat.eqb_eq in E. subst. auto.
Qed.

Lemma update_parameter_same_flags g l r s :
  same_flags s (snd (update_parameter g l r tt s)).
Proof.
  unfold update_parameter, mbind, get_param. cbn [fst snd].
  destruct (Param.expression (param s r)) as [e|]; [|apply same_flags_refl].
  pose proof (evaluator_relabelled g e s) as R.
  destruct (evaluator g e s) as [[ex|[v|]] s1]; cbn [snd] in *;
    try (now apply relabelled_same_flags).
  eapply same_flags_trans; [apply relabelled_same_flags; eassumption|].
  apply set_value_same_flags.
Qed.

Lemma for_all_update_same_flags g items : forall s,
  same_flags s (snd (for_all items (update_parameter g) tt s)).
Proof.
  induction items as [|[l r] rest IH]; intros s; cbn [for_all].
  - apply same_flags_refl.
  - unfold mbind at 1.
    pose proof (set_full_label_relabelled r l s) as Ra.
    destruct (set_full_label r l s) as [[ex|[]] sa] eqn:Ea;
      [unfold set_full_label in Ea; discriminate|].
    cbn [snd] in Ra. unfold mbind.
    pose proof (update_parameter_same_flags g l r sa) as Rb.
    destruct (update_parameter g l r tt sa) as [[ex|[]] sb]; cbn [snd] in *.
    + eapply same_flags_trans; [apply relabelled_same_flags|]; eassumption.
    + eapply same_flags_trans; [apply relabelled_same_flags; eassumption|].
      eapply same_flags_trans; [eassumption|apply IH].
Qed.

Variable F : Type.
Variable transform : Param.t -> F * F * F.

Lemma vary_selects s r :
  Param.vary (param s r) =
  Param._vary (param s r) && is_none (Param.expression (param s r)).
Proof.
  unfold Param.vary. destruct (Param.expression (param s r)); simpl;
    [now rewrite andb_false_r|now rewrite andb_true_r].
Qed.

Lemma for_all_append exclude items : forall acc s0 s,
  relabelled s0 s ->
  (forall l r, In (l, r) items -> r < length s0) ->
  exists s',
    relabelled s0 s' /\
    for_all items (append_parameter F transform exclude) acc s =
      (inr (extend transform s0 acc (filter (selects exclude s0) items)), s').
Proof.
  induction items as [|[l r] rest IH]; intros acc s0 s R Hin.
  - exists s. split; [assumption|]. cbn. destruct acc as [[[ls vs] los] ups].
    cbn. now rewrite !app_nil_r.
  - cbn [for_all]. unfold mbind at 1. cbn [set_full_label].
    set (sa := list_update r (Param.with_full_label l (param s r)) s).
    assert (relabelled s0 sa) as Ra.
    { eapply relabelled_trans; [exact R|]. apply (set_full_label_relabelled r l s). }
    assert (param sa r = read_item s0 (l, r)) as Hread.
    { unfold sa. rewrite param_update, Nat.eqb_refl.
      assert ((r <? length s) = true) as ->.
      { apply Nat.ltb_lt. destruct R as [-> _]. apply (Hin l). now left. }
      simpl. unfold read_item. simpl. now apply relabelled_with_full_label. }
    unfold mbind at 1. unfold append_parameter at 1. unfold mbind at 1.
    cbn [get_param fst snd]. rewrite Hread.
    assert (Param.vary (read_item s0 (l, r)) =
            Param._vary (param s0 r) && is_none (Param.expression (param s0 r))) as ->.
    { rewrite <- vary_selects. reflexivity. }
    cbn [filter]. unfold selects at 1. cbn [snd].
    destruct (negb exclude ||
              (Param._vary (param s0 r) && is_none (Param.expression (param s0 r)))).
    + destruct acc as [[[ls vs] los] ups].
      destruct (transform (read_item s0 (l, r))) as [[v lo] up] eqn:Et.
      cbn [mret].
      destruct (IH (ls ++ [l], vs ++ [v], los ++ [lo], ups ++ [up]) s0 sa Ra)
        as (s' & R' & E); [intros; eapply Hin; right; eassumption|].
      exists s'. split; [assumption|]. rewrite E. f_equal. cbn [extend map fst snd].
      rewrite Et. cbn [fst snd]. now rewrite <- !app_assoc.
    + cbn [mret].
      destruct (IH acc s0 sa Ra) as (s' & R' & E);
        [intros; eapply Hin; right; eassumption|].
      exists s'. split; [assumption|]. exact E.
Qed.

(** C4 (as amended).  When [get_label_value_and_bounds_arrays] returns,
    the expressions have been updated, and the four arrays are the
    labels, transformed values, lower and upper bounds of the selected
    parameters, read after that update, in the order of [all]: a group's
    own parameters in insertion order, then its subgroups in insertion
    order.  With [exclude_non_vary] the selected parameters are those whose
    flag [vary] is set and which have no expression; without it (the
    default) every parameter is selected. *)
Theorem get_label_value_and_bounds_arrays_spec g exclude_non_vary s
    labels values lower_bounds upper_bounds s' :
  in_store g s ->
  get_label_value_and_bounds_arrays F transform g exclude_non_vary s =
    (inr (labels, values, lower_bounds, upper_bounds), s') ->
  exists s1,
    update_parameter_expression g s = (inr tt, s1) /\
    let selected := filter (selects exclude_non_vary s) (all g) in
    labels = map fst selected /\
    values = map (fun item => fst (fst (transform (read_item s1 item)))) selected /\
    lower_bounds = map (fun item => snd (fst (transform (read_item s1 item)))) selected /\
    upper_bounds = map (fun item => snd (transform (read_item s1 item))) selected /\
    length values = length labels /\
    length lower_bounds = length labels /\
    length upper_bounds = length labels.
Proof.
  intros Hstore Hrun. unfold get_label_value_and_bounds_arrays in Hrun.
  apply mbind_inr in Hrun. destruct Hrun as ([] & s1 & Hupdate & Hrun).
  exists s1. split; [assumption|].
  pose proof (for_all_update_same_flags g (all g) s) as Hflags.
  unfold update_parameter_expression in Hupdate. rewrite Hupdate in Hflags.
  cbn [snd] in Hflags. destruct Hflags as [Hlen Hflags].
  destruct (for_all_append exclude_non_vary (all g) ([], [], [], []) s1 s1
              (relabelled_refl s1)) as (s2 & _ & E).
  { intros l r Hin. rewrite Hlen. eapply Hstore. eassumption. }
  rewrite E in Hrun. injection Hrun as <- <- <- <- _.
  assert (filter (selects exclude_non_vary s1) (all g) =
          filter (selects exclude_non_vary s) (all g)) as ->.
  { apply filter_ext. intros [l r]. unfold selects. cbn [snd].
    destruct (Hflags r) as [-> ->]. reflexivity. }
  cbv zeta. cbn [app]. rewrite !length_map. auto 10.
Qed.

End OptimizationArrays.

Section ParameterExamples.
Import ParameterGroup Expressions.
Local Open Scope string_scope.

Lemma branching_distinct : NoDup (map snd (all branching)).
Proof. repeat constructor; simpl; intuition discriminate. Defined.

Lemma branching_in_store : in_store branching branching_store.
Proof.
  intros l r Hin. simpl in Hin.
  repeat (destruct Hin as [[= <- <-]|Hin]; [simpl; lia|]). destruct Hin.
Defined.

Lemma update_parameter_expression_recomputes_witness :
  exists s',
    update_parameter_expression branching branching_store = (inr tt, s') /\
    Param.value (param s' 1) = (3 # 4)%Q /\
    Param.vary (param s' 1) = false /\
    Param.vary (param s' 0) = true /\
    forall l r e,
      In (l, r) (all branching) ->
      Param.expression (param branching_store r) = Some e ->
      fst (evaluator branching e s') = inr (Some (Param.value (param s' r))).
Proof.
  assert (exists s', update_parameter_expression branching branching_store = (inr tt, s') /\
                     Param.value (param s' 1) = (3 # 4)%Q /\
                     Param.vary (param s' 1) = false /\
                     Param.vary (param s' 0) = true) as (s' & E & H1 & H2 & H3)
    by (eexists; vm_compute; repeat split; reflexivity).
  exists s'. repeat (split; [assumption|]).
  exact (proj2 (proj2 (update_parameter_expression_recomputes branching
                         branching_store s' E))
           branching_distinct eq_refl).
Defined.

Lemma get_label_value_and_bounds_arrays_spec_witness :
  exists s1 s',
    get_label_value_and_bounds_arrays _ plain_bounds branching true branching_store =
      (inr (["b.1"; "rates.total"],
            [finite (1 # 4)%Q; finite 2%Q],
            [neg_inf; neg_inf], [pos_inf; pos_inf]), s') /\
    update_parameter_expression branching branching_store = (inr tt, s1) /\
    let selected := filter (selects true branching_store) (all branching) in
    ["b.1"; "rates.total"] = map fst selected /\
    [finite (1 # 4)%Q; finite 2%Q] =
      map (fun item => fst (fst (plain_bounds (read_item s1 item)))) selected.
Proof.
  assert (exists s',
            get_label_value_and_bounds_arrays _ plain_bounds branching true
              branching_store =
            (inr (["b.1"; "rates.total"],
                  [finite (1 # 4)%Q; finite 2%Q],
                  [neg_inf; neg_inf], [pos_inf; pos_inf]), s')) as (s' & E)
    by (eexists; vm_compute; reflexivity).
  destruct (get_label_value_and_bounds_arrays_spec _ plain_bounds branching true
              branching_store _ _ _ _ s' branching_in_store E)
    as (s1 & Hupdate & Hlabels & Hvalues & _).
  exists s1, s'. auto.
Defined.

(** Called without argument, [get_label_value_and_bounds_arrays] also
    returns the parameters that do not vary: here b.2, which has an
    expression. *)
Lemma get_label_value_and_bounds_arrays_default_returns_all :
  ~ (forall g s labels values lower_bounds upper_bounds s',
       in_store g s ->
       get_label_value_and_bounds_arrays _ plain_bounds g false s =
         (inr (labels, values, lower_bounds, upper_bounds), s') ->
       forall l r, In (l, r) (all g) -> In l labels ->
                   Param.vary (param s' r) = true).
Proof.
  intros H.
  assert (exists out s',
            get_label_value_and_bounds_arrays _ plain_bounds branching false
              branching_store = (inr out, s') /\
            In "b.2" (fst (fst (fst out))) /\
            Param.vary (param s' 1) = false) as ([[[ls vs] los] ups] & s' & E & Hin & Hv)
    by (do 2 eexists; vm_compute; intuition).
  rewrite (H branching branching_store ls vs los ups s' branching_in_store E "b.2" 1)
    in Hv; [discriminate| |exact Hin].
  simpl. auto.
Qed.

End ParameterExamples.

Section NonNegativeTransform.
Import NonNegative.
Local Open Scope R_scope.

Lemma ln_2_lt_2 : ln 2 < 2.
Proof.
  rewrite <- (ln_exp 2) at 2. apply ln_increasing; [lra|].
  pose proof (exp_ineq1 2). lra.
Qed.

(** C7.  Writing back the value that was read for the optimizer restores
    a positive value, whether the parameter is [non_negative] or not; and
    the value read for a [non_negative] parameter of value 2 is not 2. *)
Theorem non_negative_round_trip (p : parameter) :
  0 < value p ->
  value (set_value_from_optimization p
           (fst (fst (get_value_and_bounds_for_optimization p)))) = value p /\
  (value p = 2 -> non_negative p = true ->
   fst (fst (get_value_and_bounds_for_optimization p)) <> 2).
Proof.
  intros Hpos. unfold get_value_and_bounds_for_optimization, set_value_from_optimization.
  destruct (non_negative p); simpl.
  - split; [now apply exp_ln|]. intros -> _. pose proof ln_2_lt_2. lra.
  - split; [reflexivity|]. discriminate.
Qed.

Lemma non_negative_round_trip_witness :
  let p := {| value := 2; minimum := neg_inf; maximum := pos_inf;
              non_negative := true |} in
  value (set_value_from_optimization p
           (fst (fst (get_value_and_bounds_for_optimization p)))) = 2 /\
  fst (fst (get_value_and_bounds_for_optimization p)) <> 2.
Proof.
  intros p.
  assert (0 < value p) as Hpos by (simpl; lra).
  destruct (non_negative_round_trip p Hpos) as [H1 H2].
  split; [exact H1|]. apply H2; reflexivity.
Defined.

End NonNegativeTransform.

Section RelationFacts.
Import Relations.

Variable column : Type.
Variable parameters : string -> Q.
Variable solve : list column -> list Q -> nat -> Q.






Lemma clp_labels_without labels (m : Matrix column) l :
  In l (clp_labels column (without column labels m)) <->
  In l (clp_labels column m) /\ ~ In l labels.
Proof.
  unfold clp_labels, without. rewrite !in_map_iff. split.
  - intros ([l' c] & <- & Hin). apply filter_In in Hin. destruct Hin as [Hin Hb].
    split; [exists (l', c); auto|]. simpl in *.
    apply negb_true_iff in Hb. intros Hd.
    assert (existsb (String.eqb l') labels = true) as E.
    { apply existsb_exists. exists l'. split; [assumption|apply String.eqb_refl]. }
    congruence.
  - intros [([l' c] & <- & Hin) Hnot]. exists (l', c). split; [reflexivity|].
    apply filter_In. split; [assumption|]. simpl in *. apply negb_true_iff.
    apply not_true_iff_false. intros E. apply existsb_exists in E.
    destruct E as (t & Ht & Heq). apply String.eqb_eq in Heq. subst. contradiction.
Qed.

(** The first step of the reducer: a label stays when no Zero constraint
    that applies has it as its target, and every Only constraint that
    applies has. *)
Lemma clp_labels_apply_constraints constraints x (m : Matrix column) l :
  In l (clp_labels column (apply_constraints column constraints x m)) <->
  In l (clp_labels column m) /\
  forall c, In c constraints -> constraint_applies c x = true ->
    match constraint_type c with
    | Zero => l <> constraint_target c
    | Only => l = constraint_target c
    end.
Proof.
  unfold apply_constraints. rewrite clp_labels_without. unfold constrained.
  split; intros [Hl H]; (split; [exact Hl|]).
  - intros c Hc Happ.
    assert (In c (filter (fun c => constraint_applies c x) constraints)) as Hf
      by (apply filter_In; auto).
    destruct (constraint_type c) eqn:Et.
    + intros ->. apply H. apply in_flat_map. exists c. split; [exact Hf|].
      rewrite Et. now left.
    + destruct (string_dec l (constraint_target c)) as [E|Hne]; [exact E|].
      exfalso. apply H. apply in_flat_map. exists c. split; [exact Hf|].
      rewrite Et. apply filter_In. split; [exact Hl|].
      apply negb_true_iff. now apply String.eqb_neq.
  - intros Hin. apply in_flat_map in Hin. destruct Hin as (c & Hf & Hc).
    apply filter_In in Hf. destruct Hf as [Hc0 Happ].
    specialize (H c Hc0 Happ). destruct (constraint_type c).
    + destruct Hc as [E|[]]. congruence.
    + apply filter_In in Hc. destruct Hc as [_ Hne].
      apply negb_true_iff, String.eqb_neq in Hne. contradiction.
Qed.




End RelationFacts.

Section RelationExample.
Import Relations.
Local Open Scope string_scope.



End RelationExample.

(** ** Slices of an axis *)

Section AxisSlices.
Import DataProvider.
Local Open Scope Z_scope.

(** [argmin] is the first position of the minimum. *)
Lemma argmin_from_first l : forall pre best_i best,
  nth_error pre best_i = Some best ->
  (forall k y, nth_error pre k = Some y -> best <= y /\ ((k < best_i)%nat -> best < y)) ->
  forall k y,
    nth_error (pre ++ l) k = Some y ->
    fold_left Z.min l best <= y /\
    ((k < np.argmin_from best_i best (length pre) l)%nat -> fold_left Z.min l best < y).
Proof.
  induction l as [|x l IH]; intros pre best_i best Hbest Hinv k y Hk; simpl.
  - rewrite app_nil_r in Hk. auto.
  - replace (pre ++ x :: l) with ((pre ++ [x]) ++ l) in Hk by (now rewrite <- app_assoc).
    replace (S (length pre)) with (length (pre ++ [x])) by (rewrite length_app; simpl; lia).
    assert (best_i < length pre)%nat as Hlt by (apply nth_error_Some; congruence).
    destruct (Z.ltb_spec x best).
    + rewrite Z.min_r by lia. apply (IH (pre ++ [x]) (length pre) x); [| |exact Hk].
      * rewrite nth_error_app2, Nat.sub_diag by lia. reflexivity.
      * intros k' y' Hk'. destruct (Nat.lt_ge_cases k' (length pre)) as [Hin|Hout].
        -- rewrite nth_error_app1 in Hk' by assumption.
           destruct (Hinv k' y' Hk'). split; intros; lia.
        -- rewrite nth_error_app2 in Hk' by assumption.
           destruct (k' - length pre)%nat as [|n] eqn:E; simpl in Hk';
             [|destruct n; discriminate].
           injection Hk' as <-. split; [lia|intros; lia].
    + rewrite Z.min_l by lia. apply (IH (pre ++ [x]) best_i best); [| |exact Hk].
      * rewrite nth_error_app1 by assumption. assumption.
      * intros k' y' Hk'. destruct (Nat.lt_ge_cases k' (length pre)) as [Hin|Hout].
        -- rewrite nth_error_app1 in Hk' by assumption. auto.
        -- rewrite nth_error_app2 in Hk' by assumption.
           destruct (k' - length pre)%nat as [|n] eqn:E; simpl in Hk';
             [|destruct n; discriminate].
           injection Hk' as <-. split; [lia|intros; lia].
Qed.

Lemma argmin_first l j :
  np.argmin l = inr j ->
  exists m, nth_error l j = Some m /\
    forall k y, nth_error l k = Some y -> m <= y /\ ((k < j)%nat -> m < y).
Proof.
  destruct l as [|x l]; [discriminate|]. intros [= <-].
  exists (fold_left Z.min l x). split.
  - apply (argmin_from_spec l [x] 0%nat x). reflexivity.
  - apply (argmin_from_first l [x] 0%nat x); [reflexivity|].
    intros [|[|k]] y Hk; simpl in Hk; try discriminate.
    injection Hk as <-. split; [lia|intros; lia].
Qed.

Lemma argmin_nonempty l : l <> [] -> exists j, np.argmin l = inr j.
Proof. destruct l; [congruence|]. intros _. eexists. reflexivity. Qed.

Lemma strongly_sorted_nth (l : list Z) : StronglySorted Z.lt l ->
  forall i j x y, (i < j)%nat -> nth_error l i = Some x -> nth_error l j = Some y -> x < y.
Proof.
  induction 1 as [|a l Hs IH Hall]; intros i j x y Hij Hi Hj.
  - destruct i; discriminate.
  - destruct j as [|j]; [lia|]. simpl in Hj. destruct i as [|i]; simpl in Hi.
    + injection Hi as <-. rewrite Forall_forall in Hall. apply Hall.
      eapply nth_error_In; eassumption.
    + apply (IH i j); auto. lia.
Qed.

(** The position of the element of a strictly increasing axis that is
    nearest to [x] does not decrease when [x] grows. *)
Lemma nearest_monotone axis lo hi i j :
  StronglySorted Z.lt axis -> lo <= hi ->
  np.argmin (abs_distance axis lo) = inr i ->
  np.argmin (abs_distance axis hi) = inr j ->
  (i <= j)%nat.
Proof.
  intros Hs Hle Hi Hj.
  destruct (argmin_first _ _ Hi) as (mi & Hmi & Hfirst_i).
  destruct (argmin_first _ _ Hj) as (mj & Hmj & Hfirst_j).
  destruct (Nat.le_gt_cases i j) as [|Hlt]; [assumption|exfalso].
  unfold abs_distance in *. rewrite nth_error_map in Hmi, Hmj.
  destruct (nth_error axis i) as [ai|] eqn:Eai; [|discriminate].
  destruct (nth_error axis j) as [aj|] eqn:Eaj; [|discriminate].
  simpl in Hmi, Hmj. injection Hmi as <-. injection Hmj as <-.
  pose proof (strongly_sorted_nth axis Hs j i aj ai Hlt Eaj Eai) as Hlt_a.
  destruct (Hfirst_i j (Z.abs (aj - lo))) as [_ H1];
    [rewrite nth_error_map, Eaj; reflexivity|].
  specialize (H1 Hlt).
  destruct (Hfirst_j i (Z.abs (ai - hi))) as [H2 _];
    [rewrite nth_error_map, Eai; reflexivity|].
  lia.
Qed.

Lemma bound_gtb_asym a b : bound_gtb a b = true -> bound_gtb b a = false.
Proof.
  destruct a as [|x|], b as [|y|]; simpl; try reflexivity; try discriminate.
  intros H. apply Z.gtb_lt in H. rewrite Z.gtb_ltb. apply Z.ltb_ge. lia.
Qed.

Lemma bound_gtb_total a b :
  bound_gtb a b = false -> bound_gtb b a = false ->
  a = b \/ (exists x, a = finite x /\ b = finite x) \/
  (a = neg_inf /\ b = neg_inf) \/ (a = pos_inf /\ b = pos_inf).
Proof.
  destruct a as [|x|], b as [|y|]; simpl; try discriminate; auto.
  intros H1 H2. left. f_equal.
  rewrite Z.gtb_ltb in H1, H2. apply Z.ltb_ge in H1, H2. lia.
Qed.

Lemma get_axis_slice_from_interval_swap_eq (a b : bound Z) (axis : list Z) :
  get_axis_slice_from_interval (a, b) axis = get_axis_slice_from_interval (b, a) axis.
Proof.
  unfold get_axis_slice_from_interval.
  destruct (bound_gtb a b) eqn:Eab.
  - now rewrite (bound_gtb_asym a b Eab).
  - destruct (bound_gtb b a) eqn:Eba; [reflexivity|].
    destruct (bound_gtb_total a b Eab Eba) as [->|[(x & -> & ->)|[[-> ->]|[-> ->]]]];
      reflexivity.
Qed.

(** X1.  The slice that [get_axis_slice_from_interval] returns, and the
    exception that it raises, do not depend on the order in which the two
    end points of the interval are given. *)
Theorem get_axis_slice_from_interval_swap (interval : bound Z * bound Z) (axis : list Z) :
  get_axis_slice_from_interval (snd interval, fst interval) axis =
  get_axis_slice_from_interval interval axis.
Proof. destruct interval as [a b]. apply get_axis_slice_from_interval_swap_eq. Qed.

(** X2.  On a strictly increasing axis that is not empty, the slice for an
    interval with finite end points [lo <= hi] runs from the position of
    the element nearest to [lo] up to and including the position of the
    element nearest to [hi]: it is not empty, it lies within the axis, and
    it is taken as it is, without clipping. *)
Theorem get_axis_slice_from_interval_increasing (axis : list Z) (lo hi : Z) :
  StronglySorted Z.lt axis -> axis <> [] -> lo <= hi ->
  exists i j,
    get_axis_slice_from_interval (finite lo, finite hi) axis =
      inr (Z.of_nat i, Z.of_nat j + 1) /\
    (i <= j < length axis)%nat /\
    slice_indices (Z.of_nat i, Z.of_nat j + 1) (length axis) = (i, S j) /\
    (forall a, In a axis -> Z.abs (nth i axis 0 - lo) <= Z.abs (a - lo)) /\
    (forall a, In a axis -> Z.abs (nth j axis 0 - hi) <= Z.abs (a - hi)).
Proof.
  intros Hs Hne Hle.
  assert (forall x, abs_distance axis x <> []) as Hne'
    by (intros x; unfold abs_distance; destruct axis; [congruence|discriminate]).
  destruct (argmin_nonempty _ (Hne' lo)) as [i Hi].
  destruct (argmin_nonempty _ (Hne' hi)) as [j Hj].
  exists i, j.
  assert (forall x k, np.argmin (abs_distance axis x) = inr k ->
            (k < length axis)%nat /\
            forall a, In a axis -> Z.abs (nth k axis 0 - x) <= Z.abs (a - x)) as Hnear.
  { intros x k Hk. destruct (argmin_first _ _ Hk) as (m & Hm & Hfirst).
    unfold abs_distance in Hm, Hfirst. rewrite nth_error_map in Hm.
    destruct (nth_error axis k) as [ak|] eqn:Eak; [|discriminate].
    injection Hm as <-. split; [apply nth_error_Some; congruence|].
    intros a Ha. apply In_nth_error in Ha. destruct Ha as [n Hn].
    rewrite (nth_error_nth _ _ 0 Eak).
    apply (Hfirst n). rewrite nth_error_map, Hn. reflexivity. }
  destruct (Hnear lo i Hi) as [Hi_lt Hi_near].
  destruct (Hnear hi j Hj) as [Hj_lt Hj_near].
  pose proof (nearest_monotone axis lo hi i j Hs Hle Hi Hj) as Hij.
  split; [|split; [lia|split; [|auto]]].
  - unfold get_axis_slice_from_interval. simpl.
    replace (lo >? hi) with false by (symmetry; rewrite Z.gtb_ltb; apply Z.ltb_ge; lia).
    rewrite Hi, Hj. reflexivity.
  - unfold slice_indices. cbn [fst snd].
    replace (Z.of_nat i <? 0) with false by (symmetry; apply Z.ltb_ge; lia).
    replace (Z.of_nat j + 1 <? 0) with false by (symmetry; apply Z.ltb_ge; lia).
    f_equal; lia.
Qed.

Lemma get_axis_slice_from_interval_increasing_witness :
  exists i j,
    get_axis_slice_from_interval (finite 4, finite 9) [1; 5; 10] =
      inr (Z.of_nat i, Z.of_nat j + 1) /\
    (i <= j < length [1; 5; 10])%nat /\
    slice_indices (Z.of_nat i, Z.of_nat j + 1) (length [1; 5; 10]) = (i, S j) /\
    (forall a, In a [1; 5; 10] -> Z.abs (nth i [1; 5; 10] 0 - 4) <= Z.abs (a - 4)) /\
    (forall a, In a [1; 5; 10] -> Z.abs (nth j [1; 5; 10] 0 - 9) <= Z.abs (a - 9)).
Proof.
  apply (get_axis_slice_from_interval_increasing [1; 5; 10] 4 9).
  - repeat constructor.
  - discriminate.
  - lia.
Defined.

(** X3.  When an end point of the interval is plus infinity, the slice
    stops one position before the end of the axis: the last position of
    the axis is not selected. *)
Theorem get_axis_slice_from_interval_open_end
    (interval : bound Z * bound Z) (axis : list Z) (sl : Z * Z) :
  fst interval = pos_inf \/ snd interval = pos_inf ->
  get_axis_slice_from_interval interval axis = inr sl ->
  snd sl = Z.of_nat (length axis) - 1 /\
  snd (slice_indices sl (length axis)) = (length axis - 1)%nat.
Proof.
  intros Hinf Hsl.
  assert (exists lower, get_axis_slice_from_interval (lower, pos_inf) axis = inr sl)
    as [lower H].
  { destruct interval as [a b]. simpl in Hinf. destruct Hinf as [->| ->].
    - exists b. now rewrite get_axis_slice_from_interval_swap_eq.
    - now exists a. }
  clear Hsl Hinf.
  assert (snd sl = Z.of_nat (length axis) - 1) as E.
  { unfold get_axis_slice_from_interval in H.
    destruct lower as [|x|]; simpl in H.
    - now injection H as <-.
    - destruct (np.argmin (abs_distance axis x)) as [e|i]; simpl in H; [discriminate|].
      now injection H as <-.
    - now injection H as <-. }
  split; [exact E|].
  unfold slice_indices. cbn [snd]. rewrite E.
  destruct (Z.ltb_spec (Z.of_nat (length axis) - 1) 0); lia.
Qed.

Lemma get_axis_slice_from_interval_open_end_witness :
  snd (0, 2) = Z.of_nat (length [1; 5; 10]) - 1 /\
  snd (slice_indices (0, 2) (length [1; 5; 10])) = (length [1; 5; 10] - 1)%nat.
Proof.
  apply (get_axis_slice_from_interval_open_end (finite 0, pos_inf) [1; 5; 10] (0, 2)).
  - right. reflexivity.
  - reflexivity.
Defined.

End AxisSlices.

(** ** The weight built from the weights of the model *)

Section ModelWeights.
Import DataProvider.
Local Open Scope string_scope.

(** X4.  [get_axis_slice_from_interval] returns a slice for every axis
    that is not empty.  For an empty axis it raises [ValueError] when an
    end point of the interval is finite, and returns [slice(0, -1)] when
    both are infinite. *)
Theorem get_axis_slice_from_interval_empty_axis (interval : bound Z * bound Z) :
  (forall axis, axis <> [] ->
     exists sl, get_axis_slice_from_interval interval axis = inr sl) /\
  get_axis_slice_from_interval interval [] =
    match interval with
    | (finite _, _) | (_, finite _) => inl ValueError
    | _ => inr (0, -1)%Z
    end.
Proof.
  split.
  - intros axis Hne. unfold get_axis_slice_from_interval.
    destruct interval as [a b].
    assert (forall x, exists i, np.argmin (abs_distance axis x) = inr i) as Harg.
    { intros x. unfold abs_distance. destruct axis; [congruence|]. eexists. reflexivity. }
    destruct (bound_gtb a b); destruct a as [|x|], b as [|y|]; simpl;
      try (destruct (Harg x) as [i ->]); try (destruct (Harg y) as [j ->]);
      simpl; eexists; reflexivity.
  - destruct interval as [[|x|] [|y|]]; try reflexivity;
      unfold get_axis_slice_from_interval; simpl; destruct (x >? y)%Z; reflexivity.
Qed.

Lemma apply_model_weight_contents weight model_axis global_axis model_weight w w' :
  base weight < length (buffers w) ->
  apply_model_weight weight model_axis global_axis model_weight w = (inr tt, w') ->
  warnings w' = warnings w /\
  length (buffers w') = length (buffers w) /\
  ndarray.nrow (contents w' weight) = ndarray.nrow (contents w weight) /\
  ndarray.ncol (contents w' weight) = ndarray.ncol (contents w weight) /\
  forall i j,
    ndarray.item (contents w' weight) i j =
    if selected (model_interval model_weight) model_axis i &&
       selected (global_interval model_weight) global_axis j
    then (ndarray.item (contents w weight) i j * value model_weight)%Q
    else ndarray.item (contents w weight) i j.
Proof.
  intros Hbase Hrun. unfold apply_model_weight in Hrun.
  apply mbind_inr in Hrun. destruct Hrun as (global_slice & w1 & Hg & Hrun).
  apply mbind_inr in Hrun. destruct Hrun as (model_slice & w2 & Hm & Hrun).
  apply mbind_inr in Hrun. destruct Hrun as (a & w3 & Ha & Hrun).
  assert (w1 = w /\
          forall j, selected (global_interval model_weight) global_axis j =
                    ((fst global_slice <=? j) && (j <? snd global_slice))%nat)
    as [-> Hgs].
  { unfold selected. destruct (global_interval model_weight) as [interval|].
    - apply mbind_inr in Hg. destruct Hg as (sl & w4 & Hsl & Hg).
      apply lift_inr in Hsl. destruct Hsl as [-> ->].
      injection Hg as <- <-. split; [reflexivity|]. intros j.
      now destruct (slice_indices sl (length global_axis)).
    - injection Hg as <- <-. split; reflexivity. }
  assert (w2 = w /\
          forall i, selected (model_interval model_weight) model_axis i =
                    ((fst model_slice <=? i) && (i <? snd model_slice))%nat)
    as [-> Hms].
  { unfold selected. destruct (model_interval model_weight) as [interval|].
    - apply mbind_inr in Hm. destruct Hm as (sl & w4 & Hsl & Hm).
      apply lift_inr in Hsl. destruct Hsl as [-> ->].
      injection Hm as <- <-. split; [reflexivity|]. intros i.
      now destruct (slice_indices sl (length model_axis)).
    - injection Hm as <- <-. split; reflexivity. }
  unfold read in Ha. injection Ha as <- <-.
  assert (w' = snd (write weight
                      (ndarray.scale_slice (contents w weight) model_slice global_slice
                         (value model_weight)) w)) as -> by (now rewrite Hrun).
  rewrite contents_write by assumption.
  split; [reflexivity|]. split; [simpl; apply list_update_length|].
  split; [reflexivity|]. split; [reflexivity|].
  intros i j. simpl. rewrite Hms, Hgs.
  destruct (fst model_slice <=? i)%nat, (i <? snd model_slice)%nat,
           (fst global_slice <=? j)%nat, (j <? snd global_slice)%nat; reflexivity.
Qed.

Lemma apply_model_weights_contents weight model_axis global_axis model_weights :
  forall w w',
  base weight < length (buffers w) ->
  apply_model_weights weight model_axis global_axis model_weights w = (inr tt, w') ->
  warnings w' = warnings w /\
  length (buffers w') = length (buffers w) /\
  ndarray.nrow (contents w' weight) = ndarray.nrow (contents w weight) /\
  ndarray.ncol (contents w' weight) = ndarray.ncol (contents w weight) /\
  forall i j,
    ndarray.item (contents w' weight) i j =
    fold_left
      (fun acc model_weight =>
         if selected (model_interval model_weight) model_axis i &&
            selected (global_interval model_weight) global_axis j
         then (acc * value model_weight)%Q else acc)
      model_weights (ndarray.item (contents w weight) i j).
Proof.
  induction model_weights as [|model_weight rest IH]; intros w w' Hbase Hrun.
  - injection Hrun as <-. auto.
  - cbn [apply_model_weights] in Hrun.
    apply mbind_inr in Hrun. destruct Hrun as ([] & w1 & Hfirst & Hrest).
    apply apply_model_weight_contents in Hfirst; [|assumption].
    destruct Hfirst as (Hw1 & Hl1 & Hr1 & Hc1 & Hi1).
    apply IH in Hrest; [|lia].
    destruct Hrest as (Hw2 & Hl2 & Hr2 & Hc2 & Hi2).
    split; [congruence|]. split; [congruence|]. split; [congruence|].
    split; [congruence|].
    intros i j. rewrite Hi2, Hi1. reflexivity.
Qed.

(** X5.  When the dataset brings no weight of its own (the entry of the
    dataset is [None]) and weights of the model name the dataset,
    [add_model_weight] stores a new array of the shape (model axis, global
    axis) and issues no warning.  Each element of the array is the product
    of the values of those model weights whose model and global slices
    contain its position; an element that no slice contains is 1. *)
Theorem add_model_weight_builds self model_weights label md gd
    model_axis global_axis w self' w' :
  dict_get label (_weight self) = Some None ->
  dict_get label (_model_axes self) = Some model_axis ->
  dict_get label (_global_axes self) = Some global_axis ->
  filter (targets label) model_weights <> [] ->
  add_model_weight self model_weights label md gd w = (inr self', w') ->
  exists weight,
    get_weight self' label = inr (Some weight) /\
    base weight = length (buffers w) /\
    warnings w' = warnings w /\
    ndarray.nrow (contents w' weight) = length model_axis /\
    ndarray.ncol (contents w' weight) = length global_axis /\
    forall i j,
      ndarray.item (contents w' weight) i j =
      model_weight_at model_axis global_axis
        (filter (targets label) model_weights) i j.
Proof.
  intros Hweight Hmodel Hglobal Hne Hrun. unfold add_model_weight in Hrun.
  destruct (filter (targets label) model_weights) as [|mw0 mws] eqn:Ef; [congruence|].
  apply mbind_inr in Hrun. destruct Hrun as (current & w1 & H1 & Hrun).
  apply lift_inr in H1. destruct H1 as [Hcur ->]. apply getitem_inr in Hcur.
  rewrite Hweight in Hcur. injection Hcur as <-.
  apply mbind_inr in Hrun. destruct Hrun as (supplied & w1 & H1 & Hrun).
  injection H1 as <- <-.
  apply mbind_inr in Hrun. destruct Hrun as (model_axis' & w1 & H1 & Hrun).
  apply lift_inr in H1. destruct H1 as [H1 ->]. apply getitem_inr in H1.
  rewrite Hmodel in H1. injection H1 as <-.
  apply mbind_inr in Hrun. destruct Hrun as (global_axis' & w1 & H1 & Hrun).
  apply lift_inr in H1. destruct H1 as [H1 ->]. apply getitem_inr in H1.
  rewrite Hglobal in H1. injection H1 as <-.
  apply mbind_inr in Hrun. destruct Hrun as (weight & w1 & H1 & Hrun).
  unfold alloc in H1. injection H1 as <- <-.
  apply mbind_inr in Hrun. destruct Hrun as ([] & w1 & Happly & Hrun).
  injection Hrun as <- <-.
  apply apply_model_weights_contents in Happly;
    [|simpl; rewrite length_app; simpl; lia].
  destruct Happly as (Hw & Hl & Hr & Hc & Hi).
  eexists. split.
  { unfold get_weight, getitem. cbn [_weight set_weight].
    rewrite dict_get_set_eq. reflexivity. }
  assert (contents {| buffers := buffers w ++
                        [ndarray.ones (length model_axis) (length global_axis)];
                      warnings := warnings w |}
            {| base := length (buffers w); transposed := false |} =
          ndarray.ones (length model_axis) (length global_axis)) as Hones.
  { unfold contents, buffer, view. simpl.
    rewrite app_nth2, Nat.sub_diag by lia. reflexivity. }
  rewrite Hones in *.
  split; [reflexivity|]. split; [exact Hw|]. split; [exact Hr|]. split; [exact Hc|].
  intros i j. rewrite Hi. reflexivity.
Qed.

End ModelWeights.

(** ** The entries of a provider after [__init__] *)

Section ProviderEntries.
Import DataProvider.
Local Open Scope string_scope.

Lemma same_entries_refl label a : same_entries label a a.
Proof. repeat split. Qed.

Lemma same_entries_trans label a b c :
  same_entries label a b -> same_entries label b c -> same_entries label a c.
Proof.
  unfold same_entries. intros (A1 & A2 & A3 & A4 & A5 & A6 & A7 & A8)
    (B1 & B2 & B3 & B4 & B5 & B6 & B7 & B8).
  repeat split; congruence.
Qed.

(** What one iteration of the loop of [__init__] reads and stores. *)
Lemma init_dataset_fields scheme self label dataset_model w self' w' :
  init_dataset scheme self (label, dataset_model) w = (inr self', w') ->
  let md := get_model_dimension dataset_model in
  exists dataset variable model_axis gd global_axis r weight,
    dict_get label (scheme_data scheme) = Some dataset /\
    dict_get "data" (variables dataset) = Some variable /\
    dict_get md (coords dataset) = Some model_axis /\
    infer_global_dimension md (dims variable) = inr gd /\
    dict_get gd (coords dataset) = Some global_axis /\
    _model_axes self' = dict_set label model_axis (_model_axes self) /\
    _model_dimensions self' = dict_set label md (_model_dimensions self) /\
    _global_axes self' = dict_set label global_axis (_global_axes self) /\
    _global_dimensions self' = dict_set label gd (_global_dimensions self) /\
    _data self' = dict_set label r (_data self) /\
    _weight self' = dict_set label weight (_weight self) /\
    base r < length (buffers w') /\
    (forall wr, weight = Some wr -> base wr < length (buffers w')) /\
    if has_global_model dataset_model then
      _flattened_data self' =
        dict_set label (ndarray.flatten (ndarray.T (contents w' r)))
                 (_flattened_data self) /\
      _flattened_weight self' =
        dict_set label
          (option_map (fun wr => ndarray.flatten (ndarray.T (contents w' wr))) weight)
          (_flattened_weight self)
    else
      _flattened_data self' = _flattened_data self /\
      _flattened_weight self' = _flattened_weight self.
Proof.
  intros Hrun md. unfold init_dataset in Hrun. fold md in Hrun.
  apply mbind_inr in Hrun. destruct Hrun as (dataset & w1 & H1 & Hrun).
  apply lift_inr in H1. destruct H1 as [Hds ->]. apply getitem_inr in Hds.
  apply mbind_inr in Hrun. destruct Hrun as (model_axis & w1 & H1 & Hrun).
  apply lift_inr in H1. destruct H1 as [Hma ->]. apply getitem_inr in Hma.
  apply mbind_inr in Hrun. destruct Hrun as (variable & w1 & H1 & Hrun).
  apply lift_inr in H1. destruct H1 as [Hvar ->].
  destruct (dict_get "data" (variables dataset)) as [variable'|] eqn:Hdata;
    [|discriminate]. injection Hvar as ->.
  apply mbind_inr in Hrun. destruct Hrun as (gd & w1 & H1 & Hrun).
  apply lift_inr in H1. destruct H1 as [Hgd ->].
  apply mbind_inr in Hrun. destruct Hrun as (global_axis & w1 & H1 & Hrun).
  apply lift_inr in H1. destruct H1 as [Hga ->]. apply getitem_inr in Hga.
  set (self0 := set_axes self label md model_axis gd global_axis) in *.
  apply mbind_inr in Hrun. destruct Hrun as (weight0 & w1 & Hw1 & Hrun).
  apply mbind_inr in Hrun. destruct Hrun as (self1 & w2 & Hw2 & Hrun).
  apply mbind_inr in Hrun. destruct Hrun as (data & w3 & Hw3 & Hrun).
  destruct (get_from_dataset_copy dataset "data" md gd variable w2 Hdata)
    as (r & w3' & E3 & Hbase_r & Hbuf3 & _ & _).
  rewrite E3 in Hw3. injection Hw3 as <- <-.
  apply mbind_inr in Hrun. destruct Hrun as (weight & w4 & Hw4 & Hrun).
  apply lift_inr in Hw4. destruct Hw4 as [Hweight ->]. apply getitem_inr in Hweight.
  cbn [_weight set_data] in Hweight.
  apply mbind_inr in Hrun. destruct Hrun as ([] & w4 & Hw4 & Hrun).
  exists dataset, variable, model_axis, gd, global_axis, r, weight.
  assert (forall wr, weight0 = Some wr -> base wr < length (buffers w1)) as Hfresh0.
  { destruct (dict_get "weight" (variables dataset)) as [wv|] eqn:Hwv.
    - destruct (get_from_dataset_copy dataset "weight" md gd wv w Hwv)
        as (r0 & w1' & E1 & Hb0 & Hbuf1 & _ & _).
      rewrite E1 in Hw1. injection Hw1 as <- <-.
      intros wr [= <-]. rewrite Hbuf1, length_app. simpl. lia.
    - rewrite (get_from_dataset_absent _ _ _ _ _ Hwv) in Hw1. injection Hw1 as <- <-.
      discriminate. }
  assert (length (buffers w1) <= length (buffers w2)) as Hlen2.
  { pose proof (safe_add_model_weight 0
                  (set_weight self0 (dict_set label weight0 (_weight self0)))
                  (weights scheme) label md gd w1 (Nat.le_0_l _)) as [[Hu _] _].
    now rewrite Hw2 in Hu. }
  assert (_data self1 = _data self /\
          _weight self1 = dict_set label weight (_weight self) /\
          _flattened_data self1 = _flattened_data self /\
          _flattened_weight self1 = _flattened_weight self /\
          _model_axes self1 = _model_axes self0 /\
          _model_dimensions self1 = _model_dimensions self0 /\
          _global_axes self1 = _global_axes self0 /\
          _global_dimensions self1 = _global_dimensions self0 /\
          (forall wr, weight = Some wr -> base wr < length (buffers w2)))
    as (Hd1 & Hweight1 & Hfd1 & Hfw1 & Hma1 & Hmd1 & Hga1 & Hgd1 & Hfresh).
  { apply add_model_weight_inv in Hw2. cbn [_weight set_weight] in Hw2.
    destruct Hw2 as [(Hf & -> & ->)|[(Hf & (cur & Hcur) & -> & Hb & _)|(Hf & wr & -> & Hb1 & Hb2)]];
      cbn [_weight _data set_weight set_axes self0 _flattened_data _flattened_weight
           _model_axes _model_dimensions _global_axes _global_dimensions] in *.
    - rewrite dict_get_set_eq in Hweight. injection Hweight as <-.
      repeat (split; [reflexivity|]). assumption.
    - rewrite dict_get_set_eq in Hweight. injection Hweight as <-.
      repeat (split; [reflexivity|]). intros wr E. specialize (Hfresh0 wr E). lia.
    - rewrite dict_get_set_eq in Hweight. injection Hweight as <-.
      rewrite dict_set_set.
      repeat (split; [reflexivity|]). intros wr' [= <-]. lia. }
  assert (base r < length (buffers w3')) as Hr3
    by (rewrite Hbuf3, length_app; simpl; lia).
  assert (length (buffers w4) = length (buffers w3')) as Hlen4.
  { destruct weight as [wr|].
    - apply mbind_inr in Hw4. destruct Hw4 as (b & w5 & Hw5 & Hw4).
      unfold read in Hw5. injection Hw5 as <- <-.
      apply imul_inr in Hw4; [|assumption]. tauto.
    - now injection Hw4 as <-. }
  assert (forall wr, weight = Some wr -> base wr < length (buffers w4)) as Hfresh4.
  { intros wr E. specialize (Hfresh wr E). rewrite Hlen4, Hbuf3, length_app. lia. }
  destruct (has_global_model dataset_model).
  - apply mbind_inr in Hrun. destruct Hrun as (a & w5 & Hw5 & Hrun).
    unfold read in Hw5. injection Hw5 as <- <-.
    apply mbind_inr in Hrun. destruct Hrun as (fw & w5 & Hw5 & Hrun).
    assert (w5 = w4 /\
            fw = option_map (fun wr => ndarray.flatten (ndarray.T (contents w4 wr))) weight)
      as [-> ->].
    { destruct weight as [wr|].
      - apply mbind_inr in Hw5. destruct Hw5 as (b & w6 & Hw6 & Hw5).
        unfold read in Hw6. injection Hw6 as <- <-. now injection Hw5 as <- <-.
      - now injection Hw5 as <- <-. }
    injection Hrun as <- <-.
    cbn [_weight _data set_weight set_axes set_data set_flattened self0
         _flattened_data _flattened_weight
         _model_axes _model_dimensions _global_axes _global_dimensions] in *.
    rewrite Hd1, Hweight1, Hfd1, Hfw1, Hma1, Hmd1, Hga1, Hgd1.
    repeat (split; [first [assumption|reflexivity|lia]|]). split; reflexivity.
  - injection Hrun as <- <-.
    cbn [_weight _data set_weight set_axes set_data set_flattened self0
         _flattened_data _flattened_weight
         _model_axes _model_dimensions _global_axes _global_dimensions] in *.
    rewrite Hd1, Hweight1, Hfd1, Hfw1, Hma1, Hmd1, Hga1, Hgd1.
    repeat (split; [first [assumption|reflexivity|lia]|]). split; reflexivity.
Qed.

Lemma init_dataset_others scheme self label dataset_model w self' w' :
  init_dataset scheme self (label, dataset_model) w = (inr self', w') ->
  forall l, l <> label -> same_entries l self self'.
Proof.
  intros Hrun l Hl. apply init_dataset_fields in Hrun. cbv zeta in Hrun.
  destruct Hrun as (dataset & variable & model_axis & gd & global_axis & r & weight &
                    _ & _ & _ & _ & _ & E1 & E2 & E3 & E4 & E5 & E6 & _ & _ & Hflat).
  unfold same_entries. rewrite E1, E2, E3, E4, E5, E6.
  rewrite !dict_get_set_ne by congruence.
  destruct (has_global_model dataset_model); destruct Hflat as [-> ->];
    rewrite ?dict_get_set_ne by congruence; repeat split.
Qed.

(** Every dataset of the group went through one iteration of the loop,
    and what this iteration stored for the dataset is still there at the
    end, in a store whose buffers of that time are unchanged. *)
Lemma init_loop_each scheme items : forall self w self' w',
  NoDup (keys items) ->
  init_loop scheme items self w = (inr self', w') ->
  unchanged_below (length (buffers w)) w w' /\
  (forall l, ~ In l (keys items) -> same_entries l self self') /\
  (forall label dataset_model, In (label, dataset_model) items ->
     exists self0 w0 self1 w1,
       init_dataset scheme self0 (label, dataset_model) w0 = (inr self1, w1) /\
       unchanged_below (length (buffers w1)) w1 w' /\
       same_entries label self1 self').
Proof.
  induction items as [|[label0 dm0] rest IH]; intros self w self' w' Hnd Hrun.
  - injection Hrun as <- <-. split; [apply unchanged_below_refl|].
    split; [intros; apply same_entries_refl|]. intros label dm [].
  - cbn [init_loop] in Hrun. apply mbind_inr in Hrun.
    destruct Hrun as (self1 & w1 & Hfirst & Hrest).
    simpl in Hnd. apply NoDup_cons_iff in Hnd. destruct Hnd as [Hnotin Hnd].
    pose proof (IH _ _ _ _ Hnd Hrest) as (Hu2 & Hother2 & Heach2).
    assert (unchanged_below (length (buffers w)) w w1) as Hu1.
    { pose proof (safe_init_dataset (length (buffers w)) scheme self
                    (label0, dm0) w (Nat.le_refl _)) as [Hu _].
      now rewrite Hfirst in Hu. }
    split; [|split].
    + eapply unchanged_below_trans; [exact Hu1|].
      eapply unchanged_below_le; [|exact Hu2]. destruct Hu1; assumption.
    + intros l Hl. simpl in Hl.
      eapply same_entries_trans; [|apply Hother2; tauto].
      eapply init_dataset_others; [exact Hfirst|]. intros ->. tauto.
    + intros label dm [[= <- <-]|Hin].
      * exists self, w, self1, w1. split; [exact Hfirst|]. split; [exact Hu2|].
        now apply Hother2.
      * now apply Heach2.
Qed.

Lemma init_loop_keys scheme items : forall self w self' w',
  NoDup (keys items) ->
  (forall k, In k (keys items) -> ~ In k (keys (_global_axes self))) ->
  init_loop scheme items self w = (inr self', w') ->
  keys (_global_axes self') = (keys (_global_axes self) ++ keys items)%list.
Proof.
  induction items as [|[label0 dm0] rest IH]; intros self w self' w' Hnd Hfresh Hrun.
  - injection Hrun as <- <-. simpl. now rewrite app_nil_r.
  - cbn [init_loop] in Hrun. apply mbind_inr in Hrun.
    destruct Hrun as (self1 & w1 & Hfirst & Hrest).
    simpl in Hnd. apply NoDup_cons_iff in Hnd. destruct Hnd as [Hnotin Hnd].
    apply init_dataset_global_axes in Hfirst. destruct Hfirst as [axis E].
    rewrite dict_set_fresh in E by (apply Hfresh; simpl; auto).
    apply IH in Hrest; [|assumption|].
    + rewrite Hrest, E. unfold keys. rewrite map_app. simpl.
      now rewrite <- app_assoc.
    + intros k Hk. rewrite E. unfold keys. rewrite map_app. simpl.
      intros Hin. apply in_app_or in Hin. destruct Hin as [Hin|[<-|[]]].
      * apply (Hfresh k); simpl; auto.
      * contradiction.
Qed.

Lemma infer_global_dimension_inr md dimensions gd :
  infer_global_dimension md dimensions = inr gd ->
  gd <> md /\ (gd = fst dimensions \/ gd = snd dimensions).
Proof.
  unfold infer_global_dimension.
  destruct (String.eqb_spec (fst dimensions) md) as [E1|E1]; simpl.
  - destruct (String.eqb_spec (snd dimensions) md) as [E2|E2]; simpl; [discriminate|].
    intros [= <-]. auto.
  - intros [= <-]. auto.
Qed.

(** X6.  After [__init__] returned, the provider knows the datasets of
    the group in the order of the group, and for each of them
    [get_model_dimension] is the model dimension of its dataset model,
    [get_global_dimension] is a dimension of the dataset's data other than
    the model dimension, and [get_model_axis] and [get_global_axis] are
    the coordinates of the dataset for these two dimensions. *)
Theorem init_registers_axes scheme dataset_models w self w' :
  NoDup (keys dataset_models) ->
  init scheme dataset_models w = (inr self, w') ->
  keys (_global_axes self) = keys dataset_models /\
  forall label dataset_model,
    In (label, dataset_model) dataset_models ->
    let md := get_model_dimension dataset_model in
    exists dataset variable gd model_axis global_axis,
      dict_get label (scheme_data scheme) = Some dataset /\
      dict_get "data" (variables dataset) = Some variable /\
      gd <> md /\ (gd = fst (dims variable) \/ gd = snd (dims variable)) /\
      dict_get md (coords dataset) = Some model_axis /\
      dict_get gd (coords dataset) = Some global_axis /\
      DataProviderGetters.get_model_dimension self label = inr md /\
      DataProviderGetters.get_global_dimension self label = inr gd /\
      DataProviderGetters.get_model_axis self label = inr model_axis /\
      DataProviderGetters.get_global_axis self label = inr global_axis.
Proof.
  intros Hnd Hrun. split.
  { apply (init_loop_keys scheme dataset_models empty w self w' Hnd); [|exact Hrun].
    intros k _ []. }
  intros label dm Hin md.
  destruct (init_loop_each scheme dataset_models empty w self w' Hnd Hrun)
    as (_ & _ & Heach).
  destruct (Heach label dm Hin) as (self0 & w0 & self1 & w1 & Hstep & _ & Hsame).
  apply init_dataset_fields in Hstep. cbv zeta in Hstep. fold md in Hstep.
  destruct Hstep as (dataset & variable & model_axis & gd & global_axis & r & weight &
                     H1 & H2 & H3 & H4 & H5 & E1 & E2 & E3 & E4 & _).
  destruct Hsame as (_ & _ & _ & _ & S1 & S2 & S3 & S4).
  apply infer_global_dimension_inr in H4. destruct H4 as [Hne Hdim].
  exists dataset, variable, gd, model_axis, global_axis.
  unfold DataProviderGetters.get_model_dimension, DataProviderGetters.get_global_dimension,
    DataProviderGetters.get_model_axis, DataProviderGetters.get_global_axis, getitem.
  rewrite <- S1, <- S2, <- S3, <- S4, E1, E2, E3, E4, !dict_get_set_eq.
  repeat (split; [assumption|]). repeat split.
Qed.

Lemma init_loop_flattened_absent scheme items : forall self w self' w',
  init_loop scheme items self w = (inr self', w') ->
  forall l,
    (forall dataset_model, In (l, dataset_model) items ->
                           has_global_model dataset_model = false) ->
    dict_get l (_flattened_data self') = dict_get l (_flattened_data self) /\
    dict_get l (_flattened_weight self') = dict_get l (_flattened_weight self).
Proof.
  induction items as [|[label0 dm0] rest IH]; intros self w self' w' Hrun l Hl.
  - injection Hrun as <- <-. auto.
  - cbn [init_loop] in Hrun. apply mbind_inr in Hrun.
    destruct Hrun as (self1 & w1 & Hfirst & Hrest).
    destruct (IH _ _ _ _ Hrest l) as [E1 E2]; [intros dm Hdm; apply Hl; now right|].
    rewrite E1, E2. clear E1 E2.
    destruct (String.eqb_spec l label0) as [->|Hne].
    + apply init_dataset_fields in Hfirst. cbv zeta in Hfirst.
      destruct Hfirst as (dataset & variable & model_axis & gd & global_axis & r & weight &
                          _ & _ & _ & _ & _ & _ & _ & _ & _ & _ & _ & _ & _ & Hflat).
      rewrite (Hl dm0) in Hflat by (now left). destruct Hflat as [-> ->]. auto.
    + destruct (init_dataset_others _ _ _ _ _ _ _ Hfirst l Hne)
        as (_ & _ & E1 & E2 & _). auto.
Qed.

Lemma keys_functional {V} (d : dict V) k v v' :
  NoDup (keys d) -> In (k, v) d -> In (k, v') d -> v = v'.
Proof.
  induction d as [|[k0 v0] d IH]; simpl; intros Hnd H1 H2; [destruct H1|].
  apply NoDup_cons_iff in Hnd. destruct Hnd as [Hnotin Hnd].
  assert (forall x, In (k, x) d -> k0 <> k) as Habs.
  { intros x Hx ->. apply Hnotin. apply in_map_iff. exists (k, x). auto. }
  destruct H1 as [H1|H1], H2 as [H2|H2].
  - congruence.
  - injection H1 as E _. exfalso. now apply (Habs v').
  - injection H2 as E _. exfalso. now apply (Habs v).
  - auto.
Qed.

Lemma length_concat_rows (f : nat -> nat -> Q) m n : forall start,
  length (concat (map (fun i => map (f i) (seq 0 m)) (seq start n))) = (n * m)%nat.
Proof.
  induction n as [|n IH]; intros start; [reflexivity|].
  cbn [seq map concat]. now rewrite length_app, length_map, length_seq, IH.
Qed.

Lemma nth_concat_rows (f : nat -> nat -> Q) m n : forall start i j,
  i < n -> j < m ->
  nth (i * m + j) (concat (map (fun i => map (f i) (seq 0 m)) (seq start n))) 0%Q =
    f (start + i) j.
Proof.
  induction n as [|n IH]; intros start i j Hi Hj; [lia|].
  cbn [seq map concat]. destruct i as [|i].
  - rewrite app_nth1 by (rewrite length_map, length_seq; lia).
    rewrite Nat.add_0_r. cbn [Nat.mul Nat.add].
    rewrite (nth_indep _ 0%Q (f start 0)) by (rewrite length_map, length_seq; lia).
    now rewrite map_nth, seq_nth.
  - rewrite app_nth2 by (rewrite length_map, length_seq; cbn [Nat.mul]; lia).
    rewrite length_map, length_seq.
    replace (S i * m + j - m) with (i * m + j) by (cbn [Nat.mul]; lia).
    rewrite IH by lia. f_equal. lia.
Qed.

(** [a.T.flatten()] reads the array seen through a view column by
    column. *)
Lemma flatten_T_view w r :
  let flattened := ndarray.flatten (ndarray.T (contents w r)) in
  length flattened = view_nrow w r * view_ncol w r /\
  forall i j, i < view_nrow w r -> j < view_ncol w r ->
    nth (j * view_nrow w r + i) flattened 0%Q = view_item w r i j.
Proof.
  destruct (contents_view w r) as (Er & Ec & Ei).
  unfold ndarray.flatten, ndarray.to_rows. cbn [ndarray.T ndarray.nrow ndarray.ncol
    ndarray.item]. rewrite Er, Ec. split.
  - rewrite (length_concat_rows (fun i j => ndarray.item (contents w r) j i)). lia.
  - intros i j Hi Hj.
    rewrite (nth_concat_rows (fun i j => ndarray.item (contents w r) j i)) by assumption.
    apply Ei.
Qed.

(** X7.  After [__init__] returned, a dataset with a global model has
    flattened data: the elements of the array that [get_data] returns,
    read global index by global index, so that the element at the model
    index [i] and the global index [j] is found at the position
    [j * rows + i].  Its flattened weight is the weight read in the same
    order, or [None] when the dataset has no weight.  For a dataset without
    global model, [get_flattened_data] and [get_flattened_weight] raise
    [KeyError]. *)
Theorem init_flattens_global_models scheme dataset_models w self w' :
  NoDup (keys dataset_models) ->
  init scheme dataset_models w = (inr self, w') ->
  forall label dataset_model,
    In (label, dataset_model) dataset_models ->
    if has_global_model dataset_model then
      exists r weight flattened_data flattened_weight,
        get_data self label = inr r /\
        get_weight self label = inr weight /\
        DataProviderGetters.get_flattened_data self label = inr flattened_data /\
        DataProviderGetters.get_flattened_weight self label = inr flattened_weight /\
        length flattened_data = view_nrow w' r * view_ncol w' r /\
        (forall i j, i < view_nrow w' r -> j < view_ncol w' r ->
           nth (j * view_nrow w' r + i) flattened_data 0%Q = view_item w' r i j) /\
        match weight with
        | Some wr =>
            exists values,
              flattened_weight = Some values /\
              length values = view_nrow w' wr * view_ncol w' wr /\
              forall i j, i < view_nrow w' wr -> j < view_ncol w' wr ->
                nth (j * view_nrow w' wr + i) values 0%Q = view_item w' wr i j
        | None => flattened_weight = None
        end
    else
      DataProviderGetters.get_flattened_data self label = inl KeyError /\
      DataProviderGetters.get_flattened_weight self label = inl KeyError.
Proof.
  intros Hnd Hrun label dm Hin.
  destruct (has_global_model dm) eqn:Hglobal.
  - destruct (init_loop_each scheme dataset_models empty w self w' Hnd Hrun)
      as (_ & _ & Heach).
    destruct (Heach label dm Hin) as (self0 & w0 & self1 & w1 & Hstep & Hu & Hsame).
    apply init_dataset_fields in Hstep. cbv zeta in Hstep.
    destruct Hstep as (dataset & variable & model_axis & gd & global_axis & r & weight &
                       _ & _ & _ & _ & _ & _ & _ & _ & _ & E1 & E2 & Hr & Hw & Hflat).
    rewrite Hglobal in Hflat. destruct Hflat as [E3 E4].
    destruct Hsame as (S1 & S2 & S3 & S4 & _).
    exists r, weight, (ndarray.flatten (ndarray.T (contents w' r))),
      (option_map (fun wr => ndarray.flatten (ndarray.T (contents w' wr))) weight).
    unfold get_data, get_weight, DataProviderGetters.get_flattened_data,
      DataProviderGetters.get_flattened_weight, getitem.
    rewrite <- S1, <- S2, <- S3, <- S4, E1, E2, E3, E4, !dict_get_set_eq.
    split; [reflexivity|]. split; [reflexivity|].
    split; [now rewrite (unchanged_below_contents _ _ _ r Hu Hr)|].
    split.
    { destruct weight as [wr|]; [|reflexivity]. simpl.
      now rewrite (unchanged_below_contents _ _ _ wr Hu (Hw wr eq_refl)). }
    destruct (flatten_T_view w' r) as [Hlen Hnth].
    split; [exact Hlen|]. split; [exact Hnth|].
    destruct weight as [wr|]; [|reflexivity].
    destruct (flatten_T_view w' wr) as [Hlenw Hnthw].
    eexists. split; [reflexivity|]. split; [exact Hlenw|exact Hnthw].
  - destruct (init_loop_flattened_absent scheme dataset_models empty w self w' Hrun label)
      as [E1 E2].
    { intros dm' Hin'. now rewrite (keys_functional _ _ _ _ Hnd Hin' Hin). }
    unfold DataProviderGetters.get_flattened_data,
      DataProviderGetters.get_flattened_weight, getitem.
    rewrite E1, E2. split; reflexivity.
Qed.

End ProviderEntries.

(** ** The directed methods on a sorted axis *)

Section DirectedAlignment.
Import DataProviderLinked.
Local Open Scope Z_scope.

Lemma filter_map_commute {A B} (f : A -> B) (p : B -> bool) (l : list A) :
  filter p (map f l) = map f (filter (fun a => p (f a)) l).
Proof.
  induction l as [|a l IH]; simpl; [reflexivity|].
  destruct (p (f a)); simpl; now rewrite IH.
Qed.

Lemma filter_none {A} (p : A -> bool) (l : list A) :
  (forall a, In a l -> p a = false) -> filter p l = [].
Proof.
  induction l as [|a l IH]; intros H; simpl; [reflexivity|].
  rewrite (H a) by (now left). apply IH. intros b Hb. apply H. now right.
Qed.

(** On a sorted axis the elements at or below a value form a prefix. *)
Lemma filter_le_prefix (axis : list Z) (x : Z) :
  StronglySorted Z.le axis ->
  exists k, filter (fun a => a - x <=? 0) axis = firstn k axis.
Proof.
  induction 1 as [|a l Hs [k IH] Hall]; [exists 0%nat; reflexivity|]. simpl.
  destruct (Z.leb_spec (a - x) 0) as [Hle|Hgt].
  - exists (S k). simpl. now rewrite IH.
  - exists 0%nat. simpl.
    apply filter_none. intros b Hb.
    rewrite Forall_forall in Hall. specialize (Hall b Hb).
    apply Z.leb_gt. lia.
Qed.

Lemma argmin_lt_length l i : np.argmin l = inr i -> (i < length l)%nat.
Proof.
  intros H. apply argmin_spec in H. destruct H as (m & _ & H).
  apply nth_error_Some. congruence.
Qed.

Lemma nth_firstn_lt {A} (l : list A) k i d :
  (i < length (firstn k l))%nat -> nth i (firstn k l) d = nth i l d.
Proof.
  revert k i. induction l as [|a l IH]; intros [|k] [|i]; simpl; intros H;
    try lia; try reflexivity.
  apply IH. lia.
Qed.

Lemma align_index_backward_prefix index axis tolerance :
  StronglySorted Z.le axis ->
  exists k,
    filter (fun a => a - index <=? 0) axis = firstn k axis /\
    align_index index axis tolerance backward =
    align_index index (firstn k axis) tolerance nearest.
Proof.
  intros Hs. destruct (filter_le_prefix axis index Hs) as [k Hk].
  exists k. split; [exact Hk|].
  unfold align_index.
  rewrite (filter_map_commute (fun a => a - index) (fun d => d <=? 0)), Hk.
  destruct (np.amin _) as [e|m]; [reflexivity|].
  destruct (np.argmin _) as [e|i] eqn:Hi; [reflexivity|].
  apply argmin_lt_length in Hi. rewrite !length_map in Hi.
  now rewrite nth_firstn_lt.
Qed.

Lemma align_index_backward_closest index target_axis tolerance :
  StronglySorted Z.le target_axis ->
  closest_within backward index target_axis tolerance
    (align_index index target_axis tolerance backward).
Proof.
  intros Hs.
  destruct (align_index_backward_prefix index target_axis tolerance Hs) as (k & Hk & ->).
  assert (forall a, In a (firstn k target_axis) <-> In a target_axis /\ a <= index) as Hin.
  { intros a. rewrite <- Hk, filter_In. rewrite Z.leb_le. intuition lia. }
  destruct (align_index_nearest index (firstn k target_axis) tolerance) as [H1 H2].
  unfold candidate in *. split.
  - intros (a & Ha & Hc & Hclose).
    destruct H1 as (A1 & _ & A3 & A4); [exists a; rewrite Hin; auto|].
    apply Hin in A1. destruct A1 as [A1 A2].
    repeat (split; [assumption|]).
    intros b Hb Hbc. apply A4; [apply Hin; auto|exact I].
  - intros Hfar. apply H2. intros a Ha _. apply Hin in Ha. apply Hfar; tauto.
Qed.

(** X8.  On a sorted target axis the method "backward" does what is asked
    of [align_index]: it returns the element at or below the value that is
    closest to it when that element lies within the tolerance, and the
    value itself otherwise. *)
Theorem align_index_backward_sorted index target_axis tolerance :
  StronglySorted Z.le target_axis ->
  closest_within backward index target_axis tolerance
    (align_index index target_axis tolerance backward).
Proof. apply align_index_backward_closest. Qed.

Lemma align_index_backward_sorted_witness :
  closest_within backward 7 [1; 5; 10] 2 (align_index 7 [1; 5; 10] 2 backward).
Proof.
  apply (align_index_backward_sorted 7 [1; 5; 10] 2).
  repeat constructor; lia.
Defined.

Lemma strongly_sorted_filter (p : Z -> bool) (l : list Z) :
  StronglySorted Z.le l -> StronglySorted Z.le (filter p l).
Proof.
  induction 1 as [|a l Hs IH Hall]; simpl; [constructor|].
  destruct (p a); [|assumption]. constructor; [assumption|].
  rewrite Forall_forall in *. intros b Hb. apply filter_In in Hb. apply Hall. tauto.
Qed.

Lemma argmin_from_head l : forall best_i best i,
  (forall y, In y l -> best <= y) -> np.argmin_from best_i best i l = best_i.
Proof.
  induction l as [|x l IH]; intros best_i best i Hle; simpl; [reflexivity|].
  destruct (Z.ltb_spec x best) as [Hlt|_].
  - specialize (Hle x (or_introl eq_refl)). lia.
  - apply IH. intros y Hy. apply Hle. now right.
Qed.

Lemma fold_min_head l : forall best,
  (forall y, In y l -> best <= y) -> fold_left Z.min l best = best.
Proof.
  induction l as [|x l IH]; intros best Hle; simpl; [reflexivity|].
  rewrite Z.min_l by (apply Hle; now left). apply IH. intros y Hy. apply Hle. now right.
Qed.

Lemma align_index_forward_head index target_axis tolerance :
  StronglySorted Z.le target_axis ->
  align_index index target_axis tolerance forward =
    if existsb (fun a => (index <=? a) && (a - index <=? tolerance)) target_axis
    then hd index target_axis
    else index.
Proof.
  intros Hs. unfold align_index.
  rewrite (filter_map_commute (fun a => a - index) (fun d => d >=? 0)), map_map.
  pose proof (strongly_sorted_filter (fun a => a - index >=? 0) target_axis Hs) as Hsf.
  assert (forall a, In a (filter (fun a => a - index >=? 0) target_axis) <->
                    In a target_axis /\ index <= a) as Hin.
  { intros a. rewrite filter_In, Z.geb_le. intuition lia. }
  destruct (filter (fun a => a - index >=? 0) target_axis) as [|c rest] eqn:Hf.
  - simpl.
    destruct (existsb _ target_axis) eqn:Hex; [|reflexivity].
    apply existsb_exists in Hex. destruct Hex as (a & Ha & Hc).
    apply andb_true_iff in Hc. destruct Hc as [Hc _]. apply Z.leb_le in Hc.
    destruct (proj2 (Hin a) (conj Ha Hc)).
  - assert (index <= c) as Hc by (apply Hin; now left).
    assert (forall y, In y (map (fun a => Z.abs (a - index)) rest) ->
                      Z.abs (c - index) <= y) as Hmin.
    { intros y Hy. apply in_map_iff in Hy. destruct Hy as (a & <- & Ha).
      inversion Hsf as [|? ? _ Hall]; subst. rewrite Forall_forall in Hall.
      specialize (Hall a Ha). lia. }
    cbn [map np.amin np.argmin ret]. rewrite fold_min_head, argmin_from_head by assumption.
    assert (In c target_axis) as Hc_in by (apply Hin; now left).
    destruct target_axis as [|a0 axis']; [destruct Hc_in|]. cbn [nth hd].
    destruct (Z.leb_spec (Z.abs (c - index)) tolerance) as [Htol|Htol].
    + replace (existsb _ (a0 :: axis')) with true; [reflexivity|].
      symmetry. apply existsb_exists. exists c. split; [assumption|].
      apply andb_true_iff. rewrite !Z.leb_le. lia.
    + replace (existsb _ (a0 :: axis')) with false; [reflexivity|].
      symmetry. apply not_true_is_false. intros Hex.
      apply existsb_exists in Hex. destruct Hex as (a & Ha & Hac).
      apply andb_true_iff in Hac. rewrite !Z.leb_le in Hac. destruct Hac as [Hac1 Hac2].
      assert (In a (c :: rest)) as Hacr by (apply Hin; auto).
      destruct Hacr as [<-|Hacr]; [lia|].
      inversion Hsf as [|? ? _ Hall]; subst. rewrite Forall_forall in Hall.
      specialize (Hall a Hacr). lia.
Qed.

(** X9.  On a sorted target axis the method "forward" returns the first
    element of the axis, whatever the value, as soon as some element at or
    above the value lies within the tolerance; otherwise it returns the
    value itself. *)
Theorem align_index_forward_sorted index target_axis tolerance :
  StronglySorted Z.le target_axis ->
  align_index index target_axis tolerance forward =
    if existsb (fun a => (index <=? a) && (a - index <=? tolerance)) target_axis
    then hd index target_axis
    else index.
Proof. apply align_index_forward_head. Qed.

Lemma align_index_forward_sorted_witness :
  align_index 9 [1; 5; 10] 2 forward =
    if existsb (fun a => (9 <=? a) && (a - 9 <=? 2)) [1; 5; 10]
    then hd 9 [1; 5; 10]
    else 9.
Proof.
  apply (align_index_forward_sorted 9 [1; 5; 10] 2).
  repeat constructor; lia.
Defined.

End DirectedAlignment.

(** ** What the alignment does to the axes of the datasets *)

Section AlignedAxes.
Import DataProviderLinked.
Local Open Scope Z_scope.

Variables (tolerance : Z) (method : link_method).

(** [P] is a property of the shared coordinates that [np.unique]
    establishes. *)
Variable P : list Z -> Prop.
Hypothesis P_unique : forall l, P (np.unique l).

Lemma align_loop_each items : forall st st' axis_values,
  aligned_axis_values st = Some axis_values ->
  P axis_values ->
  NoDup (keys items) ->
  (forall k, In k (keys items) -> ~ In k (keys (aligned_global_axes st))) ->
  align_loop tolerance method items st = inr st' ->
  exists new,
    aligned_global_axes st' = aligned_global_axes st ++ new /\
    Forall2 (fun original aligned =>
               fst aligned = fst original /\
               exists target_axis,
                 P target_axis /\
                 snd aligned =
                   map (fun index => align_index index target_axis tolerance method)
                       (snd original))
            items new.
Proof.
  induction items as [|[label global_axis] items IH];
    intros st st' vals Hv HP Hnd Hfresh Hrun.
  - simpl in Hrun. inversion Hrun; subst. exists []. rewrite app_nil_r. auto.
  - cbn [align_loop] in Hrun.
    destruct (align_step_some tolerance method st vals label global_axis Hv)
      as [[_ E]|[Hal E]]; rewrite E in Hrun; [discriminate|].
    simpl in Hnd. apply NoDup_cons_iff in Hnd. destruct Hnd as [Hnotin Hnd].
    rewrite dict_set_fresh in Hrun by (apply Hfresh; simpl; auto).
    eapply IH in Hrun; [| reflexivity | apply P_unique | assumption |].
    + destruct Hrun as (new & Hd & Hall). simpl in Hd.
      eexists. split; [rewrite Hd, <- app_assoc; reflexivity|].
      constructor; [|assumption]. split; [reflexivity|]. exists vals. auto.
    + simpl. intros k Hk Hin. unfold keys in Hin. rewrite map_app in Hin.
      apply in_app_or in Hin. destruct Hin as [Hin|Hin].
      * apply (Hfresh k); simpl; auto.
      * simpl in Hin. destruct Hin as [<-|[]]. contradiction.
Qed.

Lemma create_aligned_global_axes_each (global_axes : dict (list Z)) res :
  NoDup (keys global_axes) ->
  (forall label axis, nth_error global_axes 0 = Some (label, axis) -> P axis) ->
  create_aligned_global_axes tolerance method global_axes = inr res ->
  nth_error res 0 = nth_error global_axes 0 /\
  Forall2 (fun original aligned =>
             fst aligned = fst original /\
             exists target_axis,
               P target_axis /\
               snd aligned =
                 map (fun index => align_index index target_axis tolerance method)
                     (snd original))
          (tl global_axes) (tl res).
Proof.
  intros Hnd HP Hres. unfold create_aligned_global_axes in Hres.
  destruct (align_loop tolerance method global_axes align_init) as [e|st] eqn:Hrun;
    [discriminate|]. inversion Hres; subst res; clear Hres.
  destruct global_axes as [|[label0 axis0] others].
  - simpl in Hrun. inversion Hrun; subst. simpl. split; constructor.
  - simpl in Hrun. simpl in Hnd. apply NoDup_cons_iff in Hnd.
    destruct Hnd as [Hnotin Hnd].
    eapply align_loop_each in Hrun;
      [| reflexivity | apply (HP label0); reflexivity | assumption |].
    + destruct Hrun as (new & Hd & Hall). simpl in Hd. rewrite Hd.
      simpl. split; [reflexivity|assumption].
    + simpl. intros k Hk [<-|[]]. contradiction.
Qed.

End AlignedAxes.

Section AlignedAxesTolerance.
Import DataProviderLinked.
Local Open Scope Z_scope.

Lemma closest_within_near method index target_axis tolerance aligned :
  closest_within method index target_axis tolerance aligned ->
  Z.abs (aligned - index) <= Z.max tolerance 0 /\ candidate method index aligned.
Proof.
  intros [H1 H2].
  set (near := fun a =>
         match method with
         | forward => index <=? a
         | backward => a <=? index
         | nearest => true
         end && (Z.abs (a - index) <=? tolerance)).
  assert (forall a, near a = true <->
                    candidate method index a /\ Z.abs (a - index) <= tolerance) as Hnear.
  { intros a. unfold near, candidate. rewrite andb_true_iff, Z.leb_le.
    destruct method; rewrite ?Z.leb_le; intuition. }
  destruct (existsb near target_axis) eqn:Hex.
  - apply existsb_exists in Hex. destruct Hex as (a & Ha & Hn). apply Hnear in Hn.
    destruct H1 as (_ & Hc & Hclose & _); [exists a; tauto|]. split; [lia|assumption].
  - rewrite H2.
    + split; [lia|]. unfold candidate. destruct method; auto; lia.
    + intros a Ha Hc. apply Z.nle_gt. intros Hle.
      assert (existsb near target_axis = true); [|congruence].
      apply existsb_exists. exists a. split; [assumption|]. apply Hnear. auto.
Qed.

Lemma strongly_sorted_lt_le l : StronglySorted Z.lt l -> StronglySorted Z.le l.
Proof.
  induction 1 as [|a l Hs IH Hall]; constructor; [assumption|].
  rewrite Forall_forall in *. intros b Hb. specialize (Hall b Hb). lia.
Qed.

(** X10.  With the method "nearest", and with the method "backward" when
    the global axis of the first dataset is sorted, a successful alignment
    keeps the labels and the lengths of the axes, leaves the axis of the
    first dataset as it is, and moves no coordinate of a later dataset by
    more than the tolerance (not at all when the tolerance is negative);
    with "backward" no coordinate moves upwards. *)
Theorem create_aligned_global_axes_within_tolerance
    tolerance method (global_axes : dict (list Z)) res :
  NoDup (keys global_axes) ->
  method = nearest \/
  (method = backward /\
   forall label axis, nth_error global_axes 0 = Some (label, axis) ->
                      StronglySorted Z.le axis) ->
  create_aligned_global_axes tolerance method global_axes = inr res ->
  nth_error res 0 = nth_error global_axes 0 /\
  Forall2 (fun original aligned =>
             fst aligned = fst original /\
             Forall2 (fun x y => Z.abs (y - x) <= Z.max tolerance 0 /\
                                 candidate method x y)
                     (snd original) (snd aligned))
          (tl global_axes) (tl res).
Proof.
  intros Hnd Hmethod Hres.
  set (P := fun target_axis : list Z =>
              method = nearest \/ (method = backward /\ StronglySorted Z.le target_axis)).
  destruct (create_aligned_global_axes_each tolerance method P) with (2 := Hnd) (4 := Hres)
    as [Hfirst Hrest].
  { intros l. unfold P. destruct Hmethod as [->|[-> _]]; [now left|right].
    split; [reflexivity|]. apply strongly_sorted_lt_le, unique_sorted. }
  { intros label axis H. unfold P. destruct Hmethod as [->|[-> Hs]]; [now left|right].
    split; [reflexivity|]. eapply Hs; eassumption. }
  split; [exact Hfirst|].
  eapply Forall2_impl; [|exact Hrest].
  intros [l a] [l' a'] (Hl & target_axis & HP & Ha). simpl in *.
  split; [assumption|]. rewrite Ha. clear Ha.
  induction a as [|x a IH]; simpl; constructor; [|assumption].
  apply (closest_within_near method x target_axis).
  destruct HP as [->|[-> Hs]].
  - apply align_index_nearest.
  - now apply align_index_backward_closest.
Qed.

Lemma two_datasets_sorted label axis :
  nth_error two_datasets 0 = Some (label, axis) -> StronglySorted Z.le axis.
Proof. intros [= <- <-]. repeat constructor; lia. Defined.

Lemma create_aligned_global_axes_within_tolerance_witness :
  exists res,
    create_aligned_global_axes 1 backward two_datasets = inr res /\
    nth_error res 0 = nth_error two_datasets 0 /\
    Forall2 (fun original aligned =>
               fst aligned = fst original /\
               Forall2 (fun x y => Z.abs (y - x) <= Z.max 1 0 /\
                                   candidate backward x y)
                       (snd original) (snd aligned))
            (tl two_datasets) (tl res).
Proof.
  eexists. split; [reflexivity|].
  apply (create_aligned_global_axes_within_tolerance 1 backward two_datasets).
  - exact two_datasets_keys.
  - right. split; [reflexivity|]. exact two_datasets_sorted.
  - reflexivity.
Defined.

(** X11.  With the method "forward" and a sorted global axis of the first
    dataset, the second dataset cannot be aligned as soon as two of its
    coordinates each have an element of the first axis at or above them
    within the tolerance: both are sent to the first element of that axis,
    and [create_aligned_global_axes] raises [AlignDatasetError]. *)
Theorem create_aligned_global_axes_forward_collapses
    tolerance label1 axis1 label2 axis2 others i j x y :
  StronglySorted Z.le axis1 ->
  nth_error axis2 i = Some x -> nth_error axis2 j = Some y -> i <> j ->
  (exists a, In a axis1 /\ x <= a <= x + tolerance) ->
  (exists b, In b axis1 /\ y <= b <= y + tolerance) ->
  create_aligned_global_axes tolerance forward
    ((label1, axis1) :: (label2, axis2) :: others) = inl AlignDatasetError.
Proof.
  intros Hs Hi Hj Hij Hx Hy.
  assert (forall v, (exists a, In a axis1 /\ v <= a <= v + tolerance) ->
            align_index v axis1 tolerance forward = hd 0 axis1) as Hhead.
  { intros v (a & Ha & Hle). rewrite align_index_forward_head by assumption.
    replace (existsb _ axis1) with true.
    - destruct axis1; [destruct Ha|reflexivity].
    - symmetry. apply existsb_exists. exists a. split; [assumption|].
      apply andb_true_iff. rewrite !Z.leb_le. lia. }
  apply (create_aligned_global_axes_ambiguous tolerance forward
           [(label1, axis1)] label2 axis2 others
           {| aligned_axis_values := Some axis1;
              aligned_global_axes := dict_set label1 axis1 [] |}
           axis1 i j x y); auto.
  now rewrite !Hhead.
Qed.

Lemma create_aligned_global_axes_forward_collapses_witness :
  create_aligned_global_axes 0 forward
    [("dataset1"%string, [1; 5]); ("dataset2"%string, [1; 5])] = inl AlignDatasetError.
Proof.
  apply (create_aligned_global_axes_forward_collapses 0 "dataset1"%string [1; 5]
           "dataset2"%string [1; 5] [] 0%nat 1%nat 1 5).
  - repeat constructor; lia.
  - reflexivity.
  - reflexivity.
  - discriminate.
  - exists 1. simpl. split; [auto|lia].
  - exists 5. simpl. split; [auto|lia].
Defined.

End AlignedAxesTolerance.

(** ** Labels: [all], [get] and [has] *)

Section ParameterLabels.
Import ParameterGroup ParameterGroupLabels.
Local Open Scope string_scope.

Lemma group_induction (P : t -> Prop) :
  (forall l parameters subgroups,
     Forall (fun item => P (snd item)) subgroups -> P (Group l parameters subgroups)) ->
  forall g, P g.
Proof.
  intros H. fix IH 1. intros [l parameters subgroups]. apply H.
  induction subgroups as [|[k sub] rest IHrest]; constructor; [apply IH|exact IHrest].
Qed.

Lemma append_assoc (a b c : string) : (a ++ b) ++ c = a ++ (b ++ c).
Proof. induction a as [|x a IH]; simpl; [reflexivity|now rewrite IH]. Qed.

Lemma append_nil_r (a : string) : a ++ "" = a.
Proof. induction a as [|x a IH]; simpl; [reflexivity|now rewrite IH]. Qed.

Lemma append_inj_l (a b c : string) : a ++ b = a ++ c -> b = c.
Proof. induction a as [|x a IH]; simpl; [auto|]. intros [= H]. auto. Qed.

Lemma split_from_no_dot s : forall current,
  no_dot s = true -> split_from current s = [current ++ s].
Proof.
  induction s as [|c s IH]; intros current H; simpl in *.
  - now rewrite append_nil_r.
  - apply andb_true_iff in H. destruct H as [Hc Hs].
    destruct (Ascii.eqb c "."); [discriminate|].
    rewrite IH by assumption. now rewrite append_assoc.
Qed.

Lemma split_from_dot k rest : forall current,
  no_dot k = true ->
  split_from current (k ++ "." ++ rest) = (current ++ k) :: split_from "" rest.
Proof.
  induction k as [|c k IH]; intros current H; simpl in *.
  - now rewrite append_nil_r.
  - apply andb_true_iff in H. destruct H as [Hc Hk].
    destruct (Ascii.eqb c "."); [discriminate|].
    rewrite IH by assumption. now rewrite append_assoc.
Qed.

Lemma split_from_not_nil s : forall current, split_from current s <> [].
Proof.
  induction s as [|c s IH]; intros current; simpl; [discriminate|].
  destruct (Ascii.eqb c "."); [discriminate|apply IH].
Qed.

(** A label has no separator, or splits at its first separator. *)
Lemma first_dot s :
  no_dot s = true \/ exists k rest, s = k ++ "." ++ rest /\ no_dot k = true.
Proof.
  induction s as [|c s IH]; [now left|]. simpl.
  destruct (Ascii.eqb_spec c ".") as [->|Hne]; simpl.
  - right. exists "", s. auto.
  - destruct IH as [IH|(k & rest & -> & Hk)]; [now left|].
    right. exists (String c k), rest. split; [reflexivity|]. simpl.
    destruct (Ascii.eqb_spec c "."); [contradiction|]. assumption.
Qed.

Lemma find_no_dot g k :
  no_dot k = true -> find g k = dict_get k (_parameters g).
Proof.
  intros H. unfold find, split. rewrite split_from_no_dot by assumption. reflexivity.
Qed.

Lemma find_dot g k rest :
  no_dot k = true ->
  find g (k ++ "." ++ rest) =
  match dict_get k (groups g) with
  | Some sub => find sub rest
  | None => None
  end.
Proof.
  intros H. unfold find, split. rewrite split_from_dot by assumption. simpl "++".
  pose proof (split_from_not_nil rest "") as Hne.
  destruct (split_from "" rest) as [|x p] eqn:E; [congruence|].
  cbn [removelast last descend].
  destruct (dict_get k (groups g)); reflexivity.
Qed.

Lemma distinct_NoDup l : distinct l = true -> NoDup l.
Proof.
  induction l as [|x l IH]; simpl; intros H; constructor.
  - apply andb_true_iff in H. destruct H as [H _]. apply negb_true_iff in H.
    intros Hin. assert (existsb (String.eqb x) l = true); [|congruence].
    apply existsb_exists. exists x. split; [assumption|apply String.eqb_refl].
  - apply IH. apply andb_true_iff in H. tauto.
Qed.

Lemma dict_get_In_iff {V} (d : dict V) k v :
  NoDup (keys d) -> (In (k, v) d <-> dict_get k d = Some v).
Proof.
  intros Hnd. split; [|apply dict_get_In].
  induction d as [|[k0 v0] d IH]; simpl; intros Hin; [destruct Hin|].
  simpl in Hnd. apply NoDup_cons_iff in Hnd. destruct Hnd as [Hnotin Hnd].
  destruct (String.eqb_spec k k0) as [->|Hne].
  - destruct Hin as [[= <-]|Hin]; [reflexivity|].
    exfalso. apply Hnotin. apply in_map_iff. exists (k0, v). auto.
  - destruct Hin as [[= <- <-]|Hin]; [congruence|auto].
Qed.

(** The labels that [all] yields for a group are the labels under which
    [get] finds its parameters, behind the prefix of the group. *)
Lemma all_from_find g : forall root l r,
  well_labelled g = true ->
  let prefix := match root with
                | Some root => root ++ str (label g) ++ "."
                | None => ""
                end in
  In (l, r) (all_from root "." g) <->
  exists l', l = prefix ++ l' /\ find g l' = Some r.
Proof.
  induction g as [lbl parameters subgroups IH] using group_induction.
  intros root l r Hwf prefix. cbn [all_from label] in *. fold prefix.
  cbn [well_labelled] in Hwf.
  apply andb_true_iff in Hwf. destruct Hwf as [Hwf Hsub].
  apply andb_true_iff in Hwf. destruct Hwf as [Hwf Hgk].
  apply andb_true_iff in Hwf. destruct Hwf as [Hpk Hpd].
  apply distinct_NoDup in Hpk, Hgk.
  rewrite forallb_forall in Hpd, Hsub. rewrite Forall_forall in IH.
  rewrite in_app_iff, in_map_iff, in_flat_map. split.
  - intros [([k r'] & [= <- <-] & Hin)|([k sub] & Hin & Hl)]; simpl in *.
    + exists k. split; [reflexivity|].
      rewrite find_no_dot by (apply (Hpd (k, r') Hin)).
      now apply dict_get_In_iff.
    + specialize (Hsub (k, sub) Hin). simpl in Hsub.
      apply andb_true_iff in Hsub. destruct Hsub as [Hsub Hwf].
      apply andb_true_iff in Hsub. destruct Hsub as [Hk Hlabel].
      destruct (label sub) as [lsub|] eqn:Els; [|discriminate].
      apply String.eqb_eq in Hlabel. subst lsub.
      apply (IH (k, sub) Hin (Some prefix) l r Hwf) in Hl.
      destruct Hl as (l' & -> & Hfind). cbn [snd] in *. rewrite Els. simpl str.
      exists (k ++ "." ++ l'). split; [now rewrite !append_assoc|].
      rewrite find_dot by assumption. cbn [groups].
      now rewrite (proj1 (dict_get_In_iff subgroups k sub Hgk) Hin).
  - intros (l' & -> & Hfind).
    destruct (first_dot l') as [Hnd|(k & rest & -> & Hk)].
    + left. rewrite find_no_dot in Hfind by assumption. cbn [_parameters] in Hfind.
      exists (l', r). split; [reflexivity|]. now apply dict_get_In.
    + right. rewrite find_dot in Hfind by assumption. cbn [groups] in Hfind.
      destruct (dict_get k subgroups) as [sub|] eqn:Hsubk; [|discriminate].
      apply dict_get_In in Hsubk. exists (k, sub). split; [assumption|]. simpl.
      specialize (Hsub (k, sub) Hsubk). simpl in Hsub.
      apply andb_true_iff in Hsub. destruct Hsub as [Hsub Hwf].
      apply andb_true_iff in Hsub. destruct Hsub as [_ Hlabel].
      destruct (label sub) as [lsub|] eqn:Els; [|discriminate].
      apply String.eqb_eq in Hlabel. subst lsub.
      apply (IH (k, sub) Hsubk (Some prefix) _ r Hwf). cbn [snd].
      exists rest. rewrite Els. simpl str. split; [now rewrite !append_assoc|assumption].
Qed.

Lemma all_find g l r :
  well_labelled g = true -> (In (l, r) (all g) <-> find g l = Some r).
Proof.
  intros Hwf. unfold all. rewrite (all_from_find g None l r Hwf). simpl. split.
  - intros (l' & -> & H). exact H.
  - intros H. eauto.
Qed.

(** X12.  In a tree whose labels contain no separator, whose dictionaries
    have distinct keys and whose subgroups are stored under their own
    labels, [all] and [get] agree: [get] finds a parameter under a label
    exactly when [all] yields that parameter with that label, and [has]
    tells whether the label is among the labels that [all] yields. *)
Theorem all_agrees_with_get (g : t) :
  well_labelled g = true ->
  forall (l : string) (s : store),
    (forall r, In (l, r) (all g) <-> fst (get g l s) = inr (Some r)) /\
    fst (has g l s) = inr (existsb (String.eqb l) (map fst (all g))).
Proof.
  intros Hwf l s. split.
  - intros r. rewrite get_result, all_find by assumption.
    split; [now intros ->|now intros [= ->]].
  - unfold has, mbind. pose proof (get_result g l s) as Hres.
    destruct (get g l s) as [res s']. simpl in Hres. subst res.
    destruct (find g l) as [r|] eqn:Hfind; simpl; f_equal; symmetry.
    + apply existsb_exists. exists l. split; [|apply String.eqb_refl].
      apply in_map_iff. exists (l, r). split; [reflexivity|]. now apply all_find.
    + apply not_true_is_false. intros Hex. apply existsb_exists in Hex.
      destruct Hex as (l' & Hin & Heq). apply String.eqb_eq in Heq. subst l'.
      apply in_map_iff in Hin. destruct Hin as ([l' r] & Hl & Hin). simpl in Hl. subst l'.
      apply all_find in Hin; [congruence|assumption].
Qed.

Lemma all_agrees_with_get_witness :
  (forall r, In ("b.2", r) (all branching) <->
             fst (get branching "b.2" branching_store) = inr (Some r)) /\
  fst (has branching "b.2" branching_store) =
    inr (existsb (String.eqb "b.2") (map fst (all branching))).
Proof.
  apply (all_agrees_with_get branching); reflexivity.
Defined.

End ParameterLabels.

(** ** Copies of a group *)

Section GroupCopies.
Import ParameterGroup ParameterGroupCopy Expressions.

Variable valid_label : string -> bool.

Lemma all_from_snd g : forall root root' separator separator',
  map snd (all_from root separator g) = map snd (all_from root' separator' g).
Proof.
  induction g as [lbl parameters subgroups IH] using group_induction.
  intros root root' separator separator'. cbn [all_from].
  rewrite !map_app, !map_map. cbn [snd]. f_equal.
  rewrite Forall_forall in IH.
  induction subgroups as [|[k sub] rest IHrest]; [reflexivity|].
  cbn [flat_map]. rewrite !map_app. f_equal.
  - apply (IH (k, sub)). now left.
  - apply IHrest. intros x Hx. apply IH. now right.
Qed.

Lemma all_from_fst_length g root separator :
  length (all_from root separator g) = length (all g).
Proof.
  rewrite <- (length_map snd), <- (length_map snd (all g)).
  unfold all. now rewrite (all_from_snd g root None separator "."%string).
Qed.

Lemma combine_app {A B} (l1 l2 : list A) (l1' l2' : list B) :
  length l1 = length l1' ->
  combine (l1 ++ l2) (l1' ++ l2') = combine l1 l1' ++ combine l2 l2'.
Proof.
  revert l1'. induction l1 as [|a l1 IH]; intros [|b l1'] H; simpl in *;
    try discriminate; [reflexivity|].
  f_equal. apply IH. lia.
Qed.

Lemma map_combine_fst {A} (f : string -> string) (l : list (string * A)) : forall n,
  map (fun item => (f (fst item), snd item)) (combine (map fst l) (seq n (length l))) =
  combine (map (fun x => f (fst x)) l) (seq n (length l)).
Proof.
  induction l as [|[k v] l IH]; intros n; simpl; [reflexivity|].
  f_equal. apply IH.
Qed.

Lemma param_app (s u : store) r : r < length s -> param (s ++ u) r = param s r.
Proof. intros H. unfold param. now apply app_nth1. Qed.

Lemma copy_parameters_spec (s : store) parameters : forall u,
  (forall item, In item parameters -> snd item < length s) ->
  copy_parameters parameters (s ++ u) =
    (inr (combine (map fst parameters) (seq (length (s ++ u)) (length parameters))),
     (s ++ u) ++ map (fun item => param s (snd item)) parameters).
Proof.
  induction parameters as [|[l r] rest IH]; intros u Hin.
  - simpl. now rewrite app_nil_r.
  - cbn [copy_parameters]. unfold mbind, copy_parameter at 1.
    rewrite param_app by (apply (Hin (l, r)); now left).
    rewrite <- app_assoc. rewrite IH by (intros item Hitem; apply Hin; now right).
    unfold mret. cbn [map length seq combine fst snd]. f_equal.
    + do 3 f_equal. f_equal. rewrite !length_app. simpl. lia.
    + now rewrite <- !app_assoc.
Qed.

(** The copy of a group, in a store that has grown by [u] since the
    parameters of the group were found in [s]. *)
Lemma copy_spec g : forall (s u : store),
  labels_valid valid_label g = true ->
  (forall r, In r (map snd (all g)) -> r < length s) ->
  exists g',
    copy valid_label g (s ++ u) =
      (inr g', (s ++ u) ++ map (param s) (map snd (all g))) /\
    label g' = label g /\
    forall root,
      all_from root "."%string g' =
      combine (map fst (all_from root "."%string g))
              (seq (length (s ++ u)) (length (all g))).
Proof.
  induction g as [lbl parameters subgroups IH] using group_induction.
  intros s u Hvalid Hrefs. cbn [labels_valid] in Hvalid.
  apply andb_true_iff in Hvalid. destruct Hvalid as [Hlbl Hsub].
  cbn [copy]. unfold mbind at 1, lift.
  assert (new_group valid_label lbl = inr (Group lbl [] [])) as ->.
  { unfold new_group. destruct lbl as [l|]; [now rewrite Hlbl|reflexivity]. }
  unfold mbind at 1.
  unfold all in Hrefs. cbn [all_from] in Hrefs.
  rewrite map_app, map_map in Hrefs. cbn [snd] in Hrefs.
  rewrite copy_parameters_spec.
  2:{ intros item Hitem. apply Hrefs. apply in_or_app. left. now apply in_map. }
  set (copy_groups :=
         fix copy_groups (subgroups : dict t) : State store (dict t) :=
           match subgroups with
           | [] => mret []
           | (k, group) :: rest =>
               (group' <- copy valid_label group ;;
                rest' <- copy_groups rest ;;
                mret ((k, group') :: rest'))%M
           end).
  rewrite <- app_assoc.
  set (u1 := u ++ map (fun item => param s (snd item)) parameters).
  assert (forall v,
            exists subgroups',
              copy_groups subgroups (s ++ v) =
                (inr subgroups',
                 (s ++ v) ++
                 map (param s)
                     (map snd (flat_map (fun item => all_from (Some ""%string) "."%string (snd item))
                                        subgroups))) /\
              keys subgroups' = keys subgroups /\
              forall root,
                flat_map (fun item => all_from (Some root) "."%string (snd item)) subgroups' =
                combine
                  (map fst (flat_map (fun item => all_from (Some root) "."%string (snd item))
                                     subgroups))
                  (seq (length (s ++ v))
                       (length (flat_map (fun item => all_from (Some ""%string) "."%string (snd item))
                                         subgroups)))) as Hgroups.
  { clear u1. rewrite Forall_forall in IH. rewrite forallb_forall in Hsub.
    assert (forall r,
              In r (map snd (flat_map (fun item => all_from (Some ""%string) "."%string (snd item))
                                      subgroups)) -> r < length s) as Hrefs'.
    { intros r Hr. apply Hrefs. apply in_or_app. now right. }
    clear Hrefs Hlbl.
    induction subgroups as [|[k sub] rest IHrest]; intros v.
    - exists []. simpl. rewrite app_nil_r. auto.
    - cbn [flat_map] in *. rewrite map_app in Hrefs'.
      destruct (IH (k, sub) (or_introl eq_refl) s v) as (sub' & Hcopy & Hlabel & Hall).
      { apply (Hsub (k, sub)). now left. }
      { intros r Hr. apply Hrefs'. apply in_or_app. left. cbn [snd] in *.
        now rewrite (all_from_snd sub (Some ""%string) None "."%string "."%string). }
      cbn [snd] in *.
      set (v1 := v ++ map (param s) (map snd (all sub))).
      destruct (IHrest) with (v := v1) as (rest' & Hrest & Hkeys & Hflat).
      { intros x Hx. apply IH. now right. }
      { intros x Hx. apply Hsub. now right. }
      { intros r Hr. apply Hrefs'. apply in_or_app. now right. }
      exists ((k, sub') :: rest').
      cbn [copy_groups]. unfold mbind at 1. rewrite Hcopy.
      unfold mbind at 1. rewrite <- app_assoc. fold v1. rewrite Hrest.
      unfold mret. split; [|split].
      + f_equal. unfold v1. rewrite !map_app, <- !app_assoc. do 3 f_equal.
        now rewrite (all_from_snd sub (Some ""%string) None "."%string "."%string).
      + simpl. now rewrite Hkeys.
      + intros root. cbn [flat_map snd]. rewrite Hall, Hflat.
        rewrite map_app, !length_app, seq_app.
        rewrite (all_from_fst_length sub (Some ""%string) "."%string).
        rewrite combine_app.
        2:{ rewrite length_map, length_seq. apply all_from_fst_length. }
        f_equal. f_equal. f_equal. unfold v1.
        rewrite !length_app, !length_map. lia. }
  destruct (Hgroups u1) as (subgroups' & Hcopy & Hkeys & Hflat).
  unfold mbind. rewrite Hcopy. unfold mret.
  exists (Group lbl (combine (map fst parameters)
                       (seq (length (s ++ u)) (length parameters))) subgroups').
  split; [|split; [reflexivity|]].
  - cbn [label]. f_equal. unfold all. cbn [all_from].
    rewrite !map_app, !map_map. cbn [snd]. unfold u1.
    rewrite <- !app_assoc. reflexivity.
  - intros root. cbn [all_from].
    set (prefix := match root with
                   | Some r => (r ++ str lbl ++ ".")%string
                   | None => ""%string
                   end).
    rewrite Hflat. unfold all. cbn [all_from].
    rewrite !map_app, !length_app, seq_app, !length_map.
    rewrite combine_app by (now rewrite !length_map, length_seq).
    f_equal.
    + rewrite map_map. cbn [fst].
      apply (map_combine_fst (fun x => (prefix ++ x)%string)).
    + do 2 f_equal. unfold u1. rewrite !length_app, !length_map. lia.
Qed.

(** X13.  [copy] of a group whose labels are valid and whose parameters
    exist returns a group with the same labels in the same order.  Each of
    its parameters is a new parameter, added to the store behind the
    existing ones with the attributes that the parameter of the original
    has; the parameters of the original are left as they are. *)
Theorem copy_makes_new_parameters (g : t) (s : store) :
  labels_valid valid_label g = true ->
  in_store g s ->
  exists g',
    copy valid_label g s = (inr g', s ++ map (fun item => param s (snd item)) (all g)) /\
    label g' = label g /\
    all g' = combine (map fst (all g)) (seq (length s) (length (all g))).
Proof.
  intros Hvalid Hstore.
  destruct (copy_spec g s [] Hvalid) as (g' & Hcopy & Hlabel & Hall).
  { intros r Hr. apply in_map_iff in Hr. destruct Hr as ([l r'] & <- & Hin).
    eapply Hstore. eassumption. }
  rewrite app_nil_r in *. exists g'.
  rewrite map_map in Hcopy. split; [exact Hcopy|]. split; [exact Hlabel|].
  apply (Hall None).
Qed.

End GroupCopies.

Section GroupCopyExample.
Import ParameterGroup ParameterGroupCopy Expressions.

Lemma copy_makes_new_parameters_witness :
  exists g',
    copy (fun _ => true) branching branching_store =
      (inr g', branching_store ++
               map (fun item => param branching_store (snd item)) (all branching)) /\
    label g' = label branching /\
    all g' = combine (map fst (all branching))
               (seq (length branching_store) (length (all branching))).
Proof.
  apply (copy_makes_new_parameters (fun _ => true) branching branching_store).
  - reflexivity.
  - exact branching_in_store.
Defined.

End GroupCopyExample.

(** ** Writing the values of the optimizer back *)

Section SetValues.
Import ParameterGroup ParameterGroupLabels ParameterGroupValues Expressions.

Variable F : Type.
Variable transform : Param.t -> F * F * F.
Variable set_value_from_optimization : Param.t -> F -> Param.t.
Variable g : ParameterGroup.t.

Lemma list_update_same {A} (l : list A) i d :
  list_update i (nth i l d) l = l.
Proof.
  revert i. induction l as [|x l IH]; intros [|i]; simpl; try reflexivity.
  now rewrite IH.
Qed.

Lemma relabelled_sym s s' : relabelled s s' -> relabelled s' s.
Proof. intros [H1 H2]. split; [congruence|]. intros r. now rewrite H2. Qed.

Lemma with_value_same p : Param.with_value (Param.value p) p = p.
Proof. destruct p. reflexivity. Qed.

Lemma param_set_full_label (s : store) r l :
  r < length s ->
  param (snd (set_full_label r l s)) r = Param.with_full_label l (param s r).
Proof.
  intros Hr. simpl. rewrite param_update, Nat.eqb_refl.
  apply Nat.ltb_lt in Hr. now rewrite Hr.
Qed.

(** Writing back to each selected parameter the value that was read from
    it leaves the store as it is, up to the full labels. *)
Lemma set_values_read s0 selected : forall s,
  well_labelled g = true ->
  (forall p, set_value_from_optimization p (fst (fst (transform p))) = p) ->
  (forall item, In item selected -> In item (all g) /\ snd item < length s0) ->
  relabelled s0 s ->
  exists s',
    set_values F set_value_from_optimization g
      (combine (map fst selected)
               (map (fun item => fst (fst (transform (read_item s0 item)))) selected)) s =
      (inr (Some tt), s') /\
    relabelled s0 s'.
Proof.
  intros s Hwf Hinv. revert s.
  induction selected as [|[l r] rest IH]; intros s Hin R.
  - exists s. split; [reflexivity|assumption].
  - destruct (Hin (l, r) (or_introl eq_refl)) as [Hall Hr]. cbn [snd] in Hr.
    cbn [map combine fst set_values]. unfold mbind at 1.
    pose proof (get_result g l s) as Hres.
    assert (find g l = Some r) as Hfind by (now apply all_find).
    assert (snd (get g l s) = snd (set_full_label r l s)) as Hstate
      by (unfold get; rewrite Hfind; reflexivity).
    destruct (get g l s) as [res sa]. cbn [fst snd] in Hres, Hstate. subst res sa.
    rewrite Hfind.
    pose proof (set_full_label_relabelled r l s) as Ra.
    set (sa := snd (set_full_label r l s)) in *.
    assert (relabelled s0 sa) as R0a by (eapply relabelled_trans; eassumption).
    assert (param sa r = read_item s0 (l, r)) as Hread.
    { unfold sa. rewrite param_set_full_label by (destruct R as [-> _]; assumption).
      unfold read_item. cbn [fst snd]. now apply relabelled_with_full_label. }
    unfold mbind at 1. cbn [get_param fst snd]. unfold mbind at 1.
    unfold set_parameter. rewrite Hread, Hinv, <- Hread.
    unfold param. rewrite list_update_same.
    apply IH; [|assumption]. intros item Hitem. apply Hin. now right.
Qed.

(** In a store in which every parameter with an expression has the value
    of its expression, the update of the expressions changes nothing but
    full labels. *)
Lemma for_all_update_settled s0 items : forall s,
  (forall l r e, In (l, r) items -> Param.expression (param s0 r) = Some e ->
     fst (evaluator g e s0) = inr (Some (Param.value (param s0 r)))) ->
  relabelled s0 s ->
  exists s',
    for_all items (update_parameter g) tt s = (inr tt, s') /\ relabelled s0 s'.
Proof.
  induction items as [|[l r] rest IH]; intros s Hsettled R.
  - exists s. split; [reflexivity|assumption].
  - cbn [for_all]. unfold mbind at 1.
    pose proof (set_full_label_relabelled r l s) as Ra.
    destruct (set_full_label r l s) as [[ex|[]] sa] eqn:Ea;
      [unfold set_full_label in Ea; discriminate|].
    cbn [snd] in Ra.
    assert (relabelled s0 sa) as R0a by (eapply relabelled_trans; eassumption).
    assert (exists sb, update_parameter g l r tt sa = (inr tt, sb) /\ relabelled s0 sb)
      as (sb & Hb & R0b).
    { unfold update_parameter, mbind, get_param. cbn [fst snd].
      rewrite (relabelled_expression s0 sa) by assumption.
      destruct (Param.expression (param s0 r)) as [e|] eqn:He;
        [|exists sa; split; [reflexivity|assumption]].
      pose proof (evaluator_relabelled g e sa) as Rb.
      assert (fst (evaluator g e sa) = inr (Some (Param.value (param s0 r)))) as Hv.
      { rewrite <- (Hsettled l r e (or_introl eq_refl) He).
        apply evaluator_ext. intros l' r' _ _. now apply relabelled_value. }
      destruct (evaluator g e sa) as [res sb]. cbn [fst snd] in Hv, Rb. subst res.
      assert (relabelled s0 sb) as R0b by (eapply relabelled_trans; eassumption).
      unfold set_value. rewrite <- (relabelled_value s0 sb) by assumption.
      rewrite with_value_same. unfold param. rewrite list_update_same.
      exists sb. split; [reflexivity|assumption]. }
    unfold mbind. rewrite Hb.
    apply IH; [|assumption]. intros l' r' e Hin. apply (Hsettled l'). now right.
Qed.

(** X14.  In a group with well-formed labels, distinct parameters and
    expressions that only look back, and with a write path of the
    parameters that inverts their read path, writing back the labels and
    values that [get_label_value_and_bounds_arrays] has just returned
    succeeds and changes no parameter, except for full labels. *)
Theorem set_from_label_and_value_arrays_round_trip
    exclude_non_vary s labels values lower_bounds upper_bounds s1 :
  well_labelled g = true ->
  in_store g s ->
  NoDup (map snd (all g)) ->
  ordered g s ->
  (forall p, set_value_from_optimization p (fst (fst (transform p))) = p) ->
  get_label_value_and_bounds_arrays F transform g exclude_non_vary s =
    (inr (labels, values, lower_bounds, upper_bounds), s1) ->
  exists s2,
    set_from_label_and_value_arrays F set_value_from_optimization g labels values s1 =
      (inr (Some tt), s2) /\
    relabelled s1 s2.
Proof.
  intros Hwf Hstore Hnd Hord Hinv Hrun.
  unfold get_label_value_and_bounds_arrays in Hrun.
  apply mbind_inr in Hrun. destruct Hrun as ([] & su & Hupdate & Hrun).
  pose proof (for_all_update_same_flags g (all g) s) as Hflags.
  unfold update_parameter_expression in Hupdate. rewrite Hupdate in Hflags.
  cbn [snd] in Hflags. destruct Hflags as [Hlen Hflags].
  assert (forall l r, In (l, r) (all g) -> r < length su) as Hstore_u.
  { intros l r Hin. rewrite Hlen. eapply Hstore. eassumption. }
  destruct (for_all_append F transform exclude_non_vary (all g) ([], [], [], []) su su
              (relabelled_refl su) Hstore_u) as (s1' & R1 & E).
  rewrite E in Hrun. injection Hrun as <- <- _ _ <-. cbn [app].
  set (selected := filter (selects exclude_non_vary su) (all g)).
  (* every expression has its value in [su] *)
  destruct (for_all_update g s (all g) [] s su (static_refl s)) as [Hstatic Hsettled]; auto.
  { intros r' e' []. }
  assert (forall l r e, In (l, r) (all g) -> Param.expression (param su r) = Some e ->
            fst (evaluator g e su) = inr (Some (Param.value (param su r)))) as Hcons.
  { intros l r e Hin He. apply (Hsettled r e).
    - simpl. change r with (snd (l, r)). now apply in_map.
    - destruct (proj2 Hstatic r) as [<- _]. assumption. }
  (* the values are written back *)
  destruct (set_values_read su selected s1' Hwf Hinv) as (sw & Hset & Rw); [|assumption|].
  { intros [l r] Hitem. apply filter_In in Hitem. destruct Hitem as [Hitem _].
    split; [assumption|]. eapply Hstore_u. eassumption. }
  destruct (for_all_update_settled su (all g) sw Hcons Rw) as (s2 & Hup2 & R2).
  exists s2. split.
  - unfold set_from_label_and_value_arrays. rewrite !length_map, Nat.eqb_refl.
    cbn [negb]. unfold mbind at 1. rewrite Hset.
    unfold mbind, update_parameter_expression. rewrite Hup2. reflexivity.
  - eapply relabelled_trans; [apply relabelled_sym; exact R1|exact R2].
Qed.

Lemma set_values_found items : forall s,
  exists s',
    set_values F set_value_from_optimization g items s =
      (inr (if forallb (fun item => negb (is_none (find g (fst item)))) items
            then Some tt else None), s').
Proof.
  induction items as [|[l v] rest IH]; intros s; [eexists; reflexivity|].
  cbn [set_values forallb fst]. unfold mbind at 1.
  pose proof (get_result g l s) as Hres.
  destruct (get g l s) as [res sa]. cbn [fst] in Hres. subst res.
  destruct (find g l) as [r|]; cbn [is_none negb andb]; [|eexists; reflexivity].
  unfold mbind. cbn [get_param set_parameter]. apply IH.
Qed.

(** X18.  [set_from_label_and_value_arrays] raises [ValueError], and
    changes nothing, when the numbers of labels and of values differ.
    When they agree, it ends with the exception of [get] exactly when one
    of the labels is not the label of a parameter of the group. *)
Theorem set_from_label_and_value_arrays_raises (labels : list string) (values : list F)
    (s : store) :
  (length labels <> length values ->
   set_from_label_and_value_arrays F set_value_from_optimization g labels values s =
     (inl ValueError, s)) /\
  (length labels = length values ->
   (fst (set_from_label_and_value_arrays F set_value_from_optimization g labels values s) =
      inr None <->
    exists l, In l labels /\ find g l = None)).
Proof.
  unfold set_from_label_and_value_arrays. split.
  - intros Hne. apply Nat.eqb_neq in Hne. now rewrite Hne.
  - intros Heq. rewrite Heq, Nat.eqb_refl. cbn [negb]. unfold mbind at 1.
    destruct (set_values_found (combine labels values) s) as (s' & ->).
    assert (forallb (fun item : string * F => negb (is_none (find g (fst item))))
                    (combine labels values) = false <->
            exists l, In l labels /\ find g l = None) as Hiff.
    { rewrite <- not_true_iff_false, forallb_forall. split.
      - intros Hnot.
        destruct (existsb (fun l => is_none (find g l)) labels) eqn:Hex.
        + apply existsb_exists in Hex. destruct Hex as (l & Hl & Hn).
          exists l. split; [assumption|]. now destruct (find g l).
        + exfalso. apply Hnot. intros [l v] Hin. apply in_combine_l in Hin. cbn [fst].
          apply negb_true_iff. apply not_true_is_false. intros Hn.
          assert (existsb (fun l => is_none (find g l)) labels = true); [|congruence].
          apply existsb_exists. eauto.
      - intros (l & Hl & Hn) Hall.
        apply In_nth_error in Hl. destruct Hl as [i Hi].
        destruct (nth_error values i) as [v|] eqn:Hv.
        + assert (In (l, v) (combine labels values)) as Hin.
          { apply (nth_error_In _ i).
            clear -Hi Hv. revert values i Hi Hv.
            induction labels as [|l0 ls IH]; intros [|v0 vs] [|i] Hi Hv;
              simpl in *; try discriminate; [congruence|now apply IH]. }
          specialize (Hall (l, v) Hin). cbn [fst] in Hall. rewrite Hn in Hall.
          discriminate.
        + apply nth_error_None in Hv.
          assert (i < length labels) by (apply nth_error_Some; congruence). lia. }
    destruct (forallb _ (combine labels values)) eqn:Hall.
    + split.
      * unfold mbind. destruct (update_parameter_expression g s') as [[e|[]] s2];
          discriminate.
      * intros H. apply Hiff in H. discriminate.
    + split; [intros _; now apply Hiff|reflexivity].
Qed.

End SetValues.

(** ** The aligned lists of a linked provider *)

Section AlignedLists.
Import DataProvider DataProviderLinked.
Local Open Scope Z_scope.

Lemma get_loc_Some x index k :
  get_loc x index = Some k -> nth_error index k = Some x.
Proof.
  revert k. induction index as [|y index IH]; intros k; simpl; [discriminate|].
  destruct (Z.eqb_spec x y) as [->|Hne].
  - intros [= <-]. reflexivity.
  - destruct (get_loc x index) as [k'|]; [|discriminate].
    intros [= <-]. simpl. now apply IH.
Qed.

Lemma get_loc_None x index : get_loc x index = None -> ~ In x index.
Proof.
  induction index as [|y index IH]; simpl; [tauto|].
  destruct (Z.eqb_spec x y) as [->|Hne]; [discriminate|].
  destruct (get_loc x index); [discriminate|].
  intros _ [E|Hin]; [congruence|]. now apply IH.
Qed.

Lemma forallb_array_equal first others :
  forallb (array_equal first) others = true -> forall a, In a others -> a = first.
Proof.
  rewrite forallb_forall. intros H a Ha. symmetry. apply array_equal_spec. auto.
Qed.

(** What [xr.concat] takes from each array, position by position. *)
Lemma concat_indexers_spec axes axis indexers :
  concat_indexers axes = inr (axis, indexers) ->
  concat_global_coordinate axes = inr axis /\
  Forall2 (fun a indexer =>
             length indexer = length axis /\
             forall i x, nth_error axis i = Some x ->
               match nth i indexer None with
               | Some k => nth_error a k = Some x
               | None => ~ In x a
               end) axes indexers.
Proof.
  unfold concat_indexers.
  destruct (concat_global_coordinate axes) as [e|axis'] eqn:Hconcat; [discriminate|].
  cbn [bind ret]. intros [= <- <-]. split; [reflexivity|].
  unfold concat_global_coordinate in Hconcat.
  destruct axes as [|first others]; [constructor|].
  destruct (forallb (array_equal first) others) eqn:Heq.
  - injection Hconcat as <-.
    assert (forall a, In a (first :: others) -> a = first) as Hall.
    { intros a [<-|Ha]; [reflexivity|]. eapply forallb_array_equal; eassumption. }
    clear Heq. induction (first :: others) as [|a l IH]; simpl; constructor.
    + rewrite (Hall a) by (now left). rewrite length_map, length_seq.
      split; [reflexivity|]. intros i x Hi.
      assert (i < length first)%nat as Hlt by (apply nth_error_Some; congruence).
      rewrite (nth_indep _ None (Some 0%nat)) by (now rewrite length_map, length_seq).
      rewrite map_nth, seq_nth by assumption. exact Hi.
    + apply IH. intros b Hb. apply Hall. now right.
  - destruct (forallb is_unique (first :: others)) eqn:Huniq; [|discriminate].
    injection Hconcat as <-.
    set (axis := fold_left index_union others first).
    clear Heq Huniq. induction (first :: others) as [|a l IH]; simpl; constructor;
      [|exact IH].
    unfold get_indexer. rewrite length_map. split; [reflexivity|].
    intros i x Hi.
    rewrite (nth_indep _ None (get_loc 0 a))
      by (rewrite length_map; apply nth_error_Some; congruence).
    rewrite (map_nth (fun x => get_loc x a)), (nth_error_nth _ _ 0 Hi).
    destruct (get_loc x a) as [k|] eqn:Hloc;
      [now apply get_loc_Some|now apply get_loc_None].
Qed.

Lemma abind_inr {A B} (r : aligned_result A) (k : A -> aligned_result B) b :
  abind r k = inr b -> exists a, r = inr a /\ k a = inr b.
Proof. destruct r as [e|a]; [discriminate|]. eauto. Qed.

Lemma raised_inr {A} (r : result A) a : raised r = inr a -> r = inr a.
Proof. destruct r; [discriminate|]. now intros [= ->]. Qed.

Lemma bind_inr {A B} (r : result A) (k : A -> result B) b :
  bind r k = inr b -> exists a, r = inr a /\ k a = inr b.
Proof. destruct r as [e|a]; [discriminate|]. eauto. Qed.

(** The parts of a successful [__init__]. *)
Lemma init_inr scheme dataset_models w self w' :
  __init__ scheme dataset_models w = (inr self, w') ->
  exists aligned_global_axes,
    DataProvider.init scheme dataset_models w = (inr (provider self), w') /\
    create_aligned_global_axes (clp_link_tolerance scheme) (clp_link_method scheme)
      (_global_axes (provider self)) = inr aligned_global_axes /\
    align_data w' (provider self) aligned_global_axes =
      inr (_aligned_global_axis self, _aligned_data self) /\
    align_dataset_indices (_aligned_global_axis self) aligned_global_axes =
      inr (_aligned_dataset_indices self) /\
    align_groups aligned_global_axes =
      inr (_aligned_group_labels self, _group_definitions self) /\
    align_weights w' (provider self) (_aligned_global_axis self)
      (_aligned_group_labels self) (_group_definitions self) aligned_global_axes =
      inr (_aligned_weights self).
Proof.
  unfold __init__.
  destruct (DataProvider.init scheme dataset_models w) as [[e|p] w1]; [discriminate|].
  intros [= H <-].
  apply abind_inr in H. destruct H as (axes & Hcreate & H). apply raised_inr in Hcreate.
  apply abind_inr in H. destruct H as ([axis data] & Hdata & H). apply raised_inr in Hdata.
  apply abind_inr in H. destruct H as (indices & Hindices & H).
  apply abind_inr in H. destruct H as ([labels defs] & Hgroups & H).
  apply raised_inr in Hgroups.
  apply abind_inr in H. destruct H as (weights & Hweights & H).
  injection H as <-. cbn [provider _aligned_global_axis _aligned_data
    _aligned_dataset_indices _aligned_group_labels _group_definitions
    _aligned_weights fst snd] in *.
  exists axes. auto 10.
Qed.

Lemma traverse_isel {A} (columns : nat -> A) size count : forall start,
  (start + count <= size)%nat ->
  traverse (isel size columns) (seq start count) = inr (map columns (seq start count)).
Proof.
  induction count as [|count IH]; intros start Hle; [reflexivity|].
  cbn [seq traverse map]. unfold isel at 1.
  replace (start <? size)%nat with true by (symmetry; apply Nat.ltb_lt; lia).
  cbn [abind]. rewrite IH by lia. reflexivity.
Qed.

Lemma has_coordinate_In x item : has_coordinate x item = true <-> In x (snd item).
Proof.
  unfold has_coordinate. rewrite existsb_exists. split.
  - intros (y & Hy & E). apply Z.eqb_eq in E. now subst.
  - intros H. exists x. split; [assumption|apply Z.eqb_refl].
Qed.

Lemma align_data_inr w self aligned_global_axes axis data :
  align_data w self aligned_global_axes = inr (axis, data) ->
  exists indexers,
    concat_indexers (values aligned_global_axes) = inr (axis, indexers) /\
    data =
      map (fun i =>
             concat (map (fun array_indexer =>
                            match nth i (snd array_indexer) None with
                            | Some k => column (fst array_indexer) k
                            | None => []
                            end)
                         (combine (map (fun item => data_of w self (fst item))
                                       aligned_global_axes) indexers)))
          (seq 0 (length axis)).
Proof.
  unfold align_data. intros H.
  apply bind_inr in H. destruct H as (arrays & Harrays & H).
  apply bind_inr in H. destruct H as ([axis' indexers] & Hconcat & H).
  injection H as <- <-. exists indexers. split; [assumption|].
  assert (arrays = map (fun item => data_of w self (fst item)) aligned_global_axes) as ->;
    [|reflexivity].
  clear Hconcat. revert arrays Harrays.
  induction aligned_global_axes as [|[label a] rest IH]; intros arrays Harrays.
  - now injection Harrays as <-.
  - apply bind_inr in Harrays. destruct Harrays as (r & Hr & Harrays).
    apply bind_inr in Harrays. destruct Harrays as (array & Harray & Harrays).
    apply bind_inr in Harrays. destruct Harrays as (others & Hothers & Harrays).
    injection Harrays as <-. cbn [map fst]. f_equal; [|now apply IH].
    unfold data_of. rewrite Hr. unfold DataArray_with_global in Harray.
    destruct (_ =? _)%nat; [|discriminate]. now injection Harray as <-.
Qed.

(** The positions that the indexers give for a coordinate are positions
    of the coordinate, one for each dataset that has it. *)
Lemma indexers_at (axes : dict (list Z)) indexers axis i x :
  Forall2 (fun a indexer =>
             length indexer = length axis /\
             forall i x, nth_error axis i = Some x ->
               match nth i indexer None with
               | Some k => nth_error a k = Some x
               | None => ~ In x a
               end) (values axes) indexers ->
  nth_error axis i = Some x ->
  let ks := flat_map (fun indexer => match nth i indexer None with
                                     | Some k => [k]
                                     | None => []
                                     end) indexers in
  Forall2 (fun item k => nth_error (snd item) k = Some x) (datasets_at x axes) ks /\
  (forall (B : Type) (f : string -> nat -> list B),
     concat (map (fun item_indexer =>
                    match nth i (snd item_indexer) None with
                    | Some k => f (fst item_indexer) k
                    | None => []
                    end) (combine (keys axes) indexers)) =
     concat (map (fun item_k => f (fst (fst item_k)) (snd item_k))
                 (combine (datasets_at x axes) ks))) /\
  map (fun item_indexer =>
         match nth i (snd item_indexer) None with
         | Some _ => fst item_indexer
         | None => ""%string
         end) (combine (keys axes) indexers) =
  map (fun item => if has_coordinate x item then fst item else ""%string) axes.
Proof.
  intros Hall Hi. revert indexers Hall.
  induction axes as [|[label a] rest IH]; intros indexers Hall;
    inversion Hall as [|a' indexer rest' indexers' [_ Hfirst] Hrest]; subst.
  - simpl. repeat split; constructor.
  - destruct (IH indexers' Hrest) as (IH1 & IH2 & IH3). clear IH.
    specialize (Hfirst i x Hi). cbn [flat_map datasets_at filter keys map combine fst snd].
    destruct (nth i indexer None) as [k|] eqn:Hk.
    + assert (has_coordinate x (label, a) = true) as ->.
      { apply has_coordinate_In. simpl. eapply nth_error_In. eassumption. }
      split; [|split].
      * simpl. constructor; assumption.
      * intros B f. cbn [app combine map concat fst snd]. f_equal. apply IH2.
      * f_equal. exact IH3.
    + assert (has_coordinate x (label, a) = false) as ->.
      { apply not_true_is_false. rewrite has_coordinate_In. exact Hfirst. }
      split; [|split].
      * exact IH1.
      * intros B f. cbn [app combine map concat fst snd]. apply IH2.
      * f_equal. exact IH3.
Qed.

Lemma combine_map_fst {A B C} (f : A -> B) (l : list A) (l' : list C) :
  combine (map f l) l' = map (fun p => (f (fst p), snd p)) (combine l l').
Proof.
  revert l'. induction l as [|a l IH]; intros [|c l']; simpl; try reflexivity.
  now rewrite IH.
Qed.

Lemma getitem_at_position {A} (l : list A) i a :
  nth_error l i = Some a -> getitem_at l (Z.of_nat i) = inr a.
Proof.
  intros H. unfold getitem_at.
  assert (i < length l)%nat as Hlt by (apply nth_error_Some; congruence).
  replace (0 <=? Z.of_nat i) with true by (symmetry; apply Z.leb_le; lia).
  replace (Z.of_nat i <? Z.of_nat (length l)) with true
    by (symmetry; apply Z.ltb_lt; lia).
  cbn [andb]. unfold item_at. now rewrite Nat2Z.id, H.
Qed.

Lemma nth_error_map_seq {A} (f : nat -> A) n i :
  (i < n)%nat -> nth_error (map f (seq 0 n)) i = Some (f i).
Proof.
  intros H. rewrite nth_error_map, nth_error_seq.
  apply Nat.ltb_lt in H. rewrite H. reflexivity.
Qed.

Lemma concat_indexers_values (axes : dict (list Z)) axis indexers :
  concat_indexers (values axes) = inr (axis, indexers) ->
  length indexers = length axes.
Proof.
  intros H. apply concat_indexers_spec in H. destruct H as [_ H].
  apply Forall2_length in H. unfold values in H. now rewrite length_map in H.
Qed.

(** The aligned dataset indices of a successful [__init__]. *)
Lemma init_dataset_indices scheme dataset_models w self w' aligned_global_axes :
  __init__ scheme dataset_models w = (inr self, w') ->
  create_aligned_global_axes (clp_link_tolerance scheme) (clp_link_method scheme)
    (_global_axes (provider self)) = inr aligned_global_axes ->
  exists indexers,
    concat_indexers (values aligned_global_axes) =
      inr (_aligned_global_axis self, indexers) /\
    _aligned_dataset_indices self =
      map (fun i => flat_map (fun indexer => match nth i indexer None with
                                             | Some k => [k]
                                             | None => []
                                             end) indexers)
          (seq 0 (length (_aligned_global_axis self))).
Proof.
  intros Hinit Hcreate. apply init_inr in Hinit.
  destruct Hinit as (axes & _ & Hcreate' & Hdata & Hindices & _).
  rewrite Hcreate in Hcreate'. injection Hcreate' as <-.
  apply align_data_inr in Hdata. destruct Hdata as (indexers & Hconcat & _).
  exists indexers. split; [assumption|].
  unfold align_dataset_indices in Hindices. rewrite Hconcat in Hindices.
  cbn [raised abind] in Hindices.
  rewrite traverse_isel in Hindices by lia. now injection Hindices as <-.
Qed.

(** X15.  After the construction of a linked provider, there is one list
    of aligned dataset indices for each coordinate of the aligned global
    axis.  The list of a coordinate has one position for each dataset
    whose aligned global axis has the coordinate, in the order of the
    group, and the position is the place of the coordinate on that axis;
    at least one dataset has the coordinate. *)
Theorem aligned_dataset_indices_locate scheme dataset_models w self w' :
  __init__ scheme dataset_models w = (inr self, w') ->
  exists aligned_global_axes,
    create_aligned_global_axes (clp_link_tolerance scheme) (clp_link_method scheme)
      (_global_axes (provider self)) = inr aligned_global_axes /\
    length (_aligned_dataset_indices self) = length (aligned_global_axis self) /\
    forall i x,
      nth_error (aligned_global_axis self) i = Some x ->
      exists ks,
        get_aligned_dataset_indices self (Z.of_nat i) = inr ks /\
        ks <> [] /\
        Forall2 (fun item k => nth_error (snd item) k = Some x)
                (datasets_at x aligned_global_axes) ks.
Proof.
  intros Hinit. destruct (init_inr _ _ _ _ _ Hinit) as (axes & _ & Hcreate & _).
  exists axes. split; [assumption|].
  destruct (init_dataset_indices _ _ _ _ _ _ Hinit Hcreate) as (indexers & Hconcat & E).
  unfold aligned_global_axis, get_aligned_dataset_indices. rewrite E.
  split; [now rewrite length_map, length_seq|].
  intros i x Hi.
  assert (i < length (_aligned_global_axis self))%nat as Hlt
    by (apply nth_error_Some; congruence).
  eexists. split; [apply getitem_at_position, nth_error_map_seq; assumption|].
  destruct (concat_indexers_spec _ _ _ Hconcat) as [Haxis Hall].
  destruct (indexers_at axes indexers _ i x Hall Hi) as (Hks & _ & _).
  split; [|exact Hks].
  intros Hnil. rewrite Hnil in Hks. inversion Hks as [Hnone|]; subst.
  destruct (concat_global_coordinate_spec _ _ Haxis) as [Hset _].
  apply nth_error_In in Hi. apply Hset in Hi. destruct Hi as (a & Ha & Hx).
  unfold values in Ha. apply in_map_iff in Ha. destruct Ha as ([label a'] & <- & Hin).
  assert (In (label, a') (datasets_at x axes)) as Habs.
  { apply filter_In. split; [assumption|]. now apply has_coordinate_In. }
  rewrite <- Hnone in Habs. destruct Habs.
Qed.

Lemma column_view w r k :
  column (contents w r) k =
  map (fun i => view_item w r i k) (seq 0 (view_nrow w r)).
Proof.
  destruct (contents_view w r) as (Er & _ & Ei).
  unfold column. rewrite Er. apply map_ext. intros i. apply Ei.
Qed.

Lemma column_data_of w self label k :
  column (data_of w self label) k = data_column w self label k.
Proof.
  unfold data_of, data_column. destruct (get_data self label) as [e|r].
  - reflexivity.
  - apply column_view.
Qed.

(** X16.  After the construction of a linked provider, the aligned data of
    a coordinate of the aligned global axis are the columns that the data
    of the datasets have at the coordinate, one after the other: the
    datasets are those whose aligned global axis has the coordinate, in
    the order of the group, and the column of each one is read, element by
    element along the model axis, at the position that
    [get_aligned_dataset_indices] gives for it. *)
Theorem aligned_data_concatenates_columns scheme dataset_models w self w' :
  __init__ scheme dataset_models w = (inr self, w') ->
  exists aligned_global_axes,
    create_aligned_global_axes (clp_link_tolerance scheme) (clp_link_method scheme)
      (_global_axes (provider self)) = inr aligned_global_axes /\
    length (_aligned_data self) = length (aligned_global_axis self) /\
    forall i x,
      nth_error (aligned_global_axis self) i = Some x ->
      exists ks,
        get_aligned_dataset_indices self (Z.of_nat i) = inr ks /\
        get_aligned_data self (Z.of_nat i) =
          inr (concat
                 (map (fun item_k =>
                         data_column w' (provider self) (fst (fst item_k))
                                     (snd item_k))
                      (combine (datasets_at x aligned_global_axes) ks))).
Proof.
  intros Hinit. destruct (init_inr _ _ _ _ _ Hinit) as (axes & _ & Hcreate & Hdata & _).
  exists axes. split; [assumption|].
  destruct (init_dataset_indices _ _ _ _ _ _ Hinit Hcreate) as (indexers & Hconcat & E).
  apply align_data_inr in Hdata. destruct Hdata as (indexers' & Hconcat' & Edata).
  rewrite Hconcat in Hconcat'. injection Hconcat' as <-.
  unfold aligned_global_axis, get_aligned_dataset_indices, get_aligned_data.
  rewrite E, Edata.
  split; [now rewrite length_map, length_seq|].
  intros i x Hi.
  assert (i < length (_aligned_global_axis self))%nat as Hlt
    by (apply nth_error_Some; congruence).
  eexists. split; [apply getitem_at_position, nth_error_map_seq; assumption|].
  erewrite getitem_at_position by (apply nth_error_map_seq; assumption).
  f_equal.
  destruct (concat_indexers_spec _ _ _ Hconcat) as [_ Hall].
  destruct (indexers_at axes indexers _ i x Hall Hi) as (_ & Hcolumns & _).
  rewrite <- (Hcolumns Q (fun label k => data_column w' (provider self) label k)).
  f_equal. unfold keys. rewrite !combine_map_fst, !map_map.
  apply map_ext. intros [item indexer]. cbn [fst snd].
  destruct (nth i indexer None); [apply column_data_of|reflexivity].
Qed.

Lemma define_groups_get labelled : forall group_definitions l,
  dict_get l (define_groups labelled group_definitions) =
  match dict_get l group_definitions with
  | Some members => Some members
  | None =>
      option_map (filter (fun l => negb (String.eqb l ""))) (dict_get l labelled)
  end.
Proof.
  induction labelled as [|[group_label members] rest IH]; intros defs l.
  - simpl. destruct (dict_get l defs); reflexivity.
  - cbn [define_groups]. rewrite IH. cbn [dict_get].
    destruct (String.eqb_spec l group_label) as [->|Hne].
    + destruct (dict_get group_label defs) as [m|] eqn:E.
      * now rewrite E.
      * now rewrite dict_get_set_eq.
    + destruct (dict_get group_label defs) as [m|] eqn:E; [reflexivity|].
      now rewrite dict_get_set_ne by congruence.
Qed.

Lemma dict_get_combine_first {V} (ks : list string) : forall (vs : list V) i k,
  length ks = length vs ->
  nth_error ks i = Some k ->
  exists j v,
    (j <= i)%nat /\ nth_error ks j = Some k /\ nth_error vs j = Some v /\
    dict_get k (combine ks vs) = Some v.
Proof.
  induction ks as [|k0 ks IH]; intros [|v0 vs] i k Hlen Hi; simpl in Hlen;
    try discriminate; [destruct i; discriminate|].
  cbn [combine dict_get].
  destruct (String.eqb_spec k k0) as [->|Hne].
  - exists 0%nat, v0. repeat split; auto. lia.
  - destruct i as [|i]; simpl in Hi; [congruence|].
    destruct (IH vs i k) as (j & v & Hj & Hk & Hv & Hget); [lia|assumption|].
    exists (S j), v. repeat split; auto. lia.
Qed.

Lemma concat_cons (x : string) (xs : list string) :
  String.concat "" (x :: xs) = (x ++ String.concat "" xs)%string.
Proof. destruct xs; simpl; [now rewrite append_nil_r|reflexivity]. Qed.

(** The fillers of a group vanish in its label and in its definition. *)
Lemma group_of_datasets_at x (axes : dict (list Z)) :
  let row := map (fun item => if has_coordinate x item then fst item else ""%string)
                 axes in
  String.concat "" row = String.concat "" (map fst (datasets_at x axes)) /\
  filter (fun l => negb (String.eqb l "")) row =
  filter (fun l => negb (String.eqb l "")) (map fst (datasets_at x axes)).
Proof.
  induction axes as [|item rest [IH1 IH2]]; [split; reflexivity|].
  cbn [map datasets_at filter]. rewrite concat_cons.
  destruct (has_coordinate x item).
  - cbn [map]. rewrite concat_cons. cbn [filter]. split; [now f_equal|].
    destruct (negb _); [f_equal|]; exact IH2.
  - split; [exact IH1|exact IH2].
Qed.

(** X17.  After the construction of a linked provider, the group label of
    a coordinate of the aligned global axis is the concatenation of the
    labels of the datasets whose aligned global axis has the coordinate.
    The definition of a group label lists the labels of the datasets of
    the first coordinate that has this group label, without empty
    labels. *)
Theorem aligned_groups_name_datasets scheme dataset_models w self w' :
  __init__ scheme dataset_models w = (inr self, w') ->
  exists aligned_global_axes,
    create_aligned_global_axes (clp_link_tolerance scheme) (clp_link_method scheme)
      (_global_axes (provider self)) = inr aligned_global_axes /\
    length (_aligned_group_labels self) = length (aligned_global_axis self) /\
    forall i x,
      nth_error (aligned_global_axis self) i = Some x ->
      let group_label x :=
        String.concat "" (map fst (datasets_at x aligned_global_axes)) in
      get_aligned_group_label self (Z.of_nat i) = inr (group_label x) /\
      exists j y,
        (j <= i)%nat /\
        nth_error (aligned_global_axis self) j = Some y /\
        group_label y = group_label x /\
        dict_get (group_label x) (group_definitions self) =
          Some (filter (fun l => negb (String.eqb l ""))
                       (map fst (datasets_at y aligned_global_axes))).
Proof.
  intros Hinit.
  destruct (init_inr _ _ _ _ _ Hinit) as (axes & _ & Hcreate & _ & _ & Hgroups & _).
  exists axes. split; [assumption|].
  destruct (init_dataset_indices _ _ _ _ _ _ Hinit Hcreate) as (indexers & Hconcat & _).
  unfold align_groups in Hgroups. rewrite Hconcat in Hgroups. cbn [bind ret] in Hgroups.
  injection Hgroups as Elabels Edefs.
  set (axis := _aligned_global_axis self) in *.
  set (row := fun i =>
         map (fun label_indexer : string * list (option nat) =>
                match nth i (snd label_indexer) None with
                | Some _ => fst label_indexer
                | None => ""%string
                end) (combine (keys axes) indexers)) in *.
  destruct (concat_indexers_spec _ _ _ Hconcat) as [_ Hall].
  assert (forall i x, nth_error axis i = Some x ->
            row i = map (fun item => if has_coordinate x item then fst item
                                     else ""%string) axes) as Hrow.
  { intros i x Hi. destruct (indexers_at axes indexers axis i x Hall Hi) as (_ & _ & E).
    exact E. }
  assert (forall i x, nth_error axis i = Some x ->
            nth_error (_aligned_group_labels self) i =
              Some (String.concat "" (map fst (datasets_at x axes)))) as Hlabel.
  { intros i x Hi. rewrite <- Elabels, map_map, nth_error_map_seq
      by (apply nth_error_Some; congruence).
    rewrite (Hrow i x Hi). f_equal. apply group_of_datasets_at. }
  unfold aligned_global_axis, get_aligned_group_label, group_definitions. fold axis.
  split; [now rewrite <- Elabels, !length_map, length_seq|].
  intros i x Hi. cbv zeta.
  set (group_label := fun x => String.concat "" (map fst (datasets_at x axes))).
  change (getitem_at (_aligned_group_labels self) (Z.of_nat i) = inr (group_label x) /\
          exists j y,
            (j <= i)%nat /\ nth_error axis j = Some y /\
            group_label y = group_label x /\
            dict_get (group_label x) (_group_definitions self) =
              Some (filter (fun l => negb (String.eqb l ""))
                           (map fst (datasets_at y axes)))).
  split; [apply getitem_at_position; now apply Hlabel|].
  destruct (dict_get_combine_first (_aligned_group_labels self)
              (map row (seq 0 (length axis))) i (group_label x))
    as (j & members & Hj & Hkj & Hvj & Hget).
  { now rewrite <- Elabels, !length_map. }
  { now apply Hlabel. }
  assert (j < length axis)%nat as Hjlt.
  { assert (i < length axis)%nat by (apply nth_error_Some; congruence). lia. }
  destruct (nth_error axis j) as [y|] eqn:Hy;
    [|apply nth_error_None in Hy; lia].
  exists j, y. split; [assumption|]. split; [exact Hy|].
  rewrite (Hlabel j y Hy) in Hkj. injection Hkj as Hkj.
  split; [exact Hkj|].
  rewrite <- Edefs, define_groups_get. cbn [dict_get].
  rewrite <- Elabels in Hget. rewrite Hget. cbn [option_map]. f_equal.
  rewrite nth_error_map_seq in Hvj by assumption. injection Hvj as <-.
  rewrite (Hrow j y Hy). apply group_of_datasets_at.
Qed.

End AlignedLists.

(** ** Examples of the properties above *)

Section ExtraExamples.
Import DataProvider DataProviderLinked.
Import ParameterGroup ParameterGroupLabels ParameterGroupValues Expressions.
Local Open Scope string_scope.

Lemma add_model_weight_builds_witness :
  exists self' w' weight,
    add_model_weight unweighted_provider [example_weight] "dataset1" "time" "spectral"
      example_store = (inr self', w') /\
    get_weight self' "dataset1" = inr (Some weight) /\
    base weight = length (buffers example_store) /\
    warnings w' = warnings example_store /\
    ndarray.nrow (contents w' weight) = length [0; 1]%Z /\
    ndarray.ncol (contents w' weight) = length [10; 20]%Z /\
    forall i j,
      ndarray.item (contents w' weight) i j =
      model_weight_at [0; 1]%Z [10; 20]%Z
        (filter (targets "dataset1") [example_weight]) i j.
Proof.
  assert (exists self' w',
            add_model_weight unweighted_provider [example_weight] "dataset1" "time"
              "spectral" example_store = (inr self', w')) as (self' & w' & E)
    by (do 2 eexists; vm_compute; reflexivity).
  destruct (add_model_weight_builds unweighted_provider [example_weight] "dataset1"
              "time" "spectral" [0; 1]%Z [10; 20]%Z example_store self' w'
              eq_refl eq_refl eq_refl) as (weight & H); [discriminate|exact E|].
  exists self', w', weight. split; [exact E|exact H].
Defined.

Lemma init_registers_axes_witness :
  exists self w',
    DataProvider.init (example_scheme false [example_weight]) example_models example_store =
      (inr self, w') /\
    keys (_global_axes self) = keys example_models /\
    forall label dataset_model,
      In (label, dataset_model) example_models ->
      let md := get_model_dimension dataset_model in
      exists dataset variable gd model_axis global_axis,
        dict_get label (scheme_data (example_scheme false [example_weight])) =
          Some dataset /\
        dict_get "data" (variables dataset) = Some variable /\
        gd <> md /\ (gd = fst (dims variable) \/ gd = snd (dims variable)) /\
        dict_get md (coords dataset) = Some model_axis /\
        dict_get gd (coords dataset) = Some global_axis /\
        DataProviderGetters.get_model_dimension self label = inr md /\
        DataProviderGetters.get_global_dimension self label = inr gd /\
        DataProviderGetters.get_model_axis self label = inr model_axis /\
        DataProviderGetters.get_global_axis self label = inr global_axis.
Proof.
  assert (exists self w',
            DataProvider.init (example_scheme false [example_weight]) example_models example_store =
              (inr self, w')) as (self & w' & E)
    by (do 2 eexists; vm_compute; reflexivity).
  exists self, w'. split; [exact E|].
  exact (init_registers_axes _ _ _ _ _ example_models_keys E).
Defined.

Lemma global_models_keys : NoDup (keys global_models).
Proof. repeat constructor; simpl; tauto. Defined.

Lemma init_flattens_global_models_witness :
  exists self w',
    DataProvider.init (example_scheme false [example_weight]) global_models example_store =
      (inr self, w') /\
    DataProviderGetters.get_flattened_data self "dataset1" = inr [6; 12; 3; 5]%Q /\
    DataProviderGetters.get_flattened_weight self "dataset1" = inr (Some [3; 3; 1; 1]%Q) /\
    forall label dataset_model,
      In (label, dataset_model) global_models ->
      if has_global_model dataset_model then
        exists r weight flattened_data flattened_weight,
          get_data self label = inr r /\
          get_weight self label = inr weight /\
          DataProviderGetters.get_flattened_data self label = inr flattened_data /\
          DataProviderGetters.get_flattened_weight self label = inr flattened_weight /\
          length flattened_data = (view_nrow w' r * view_ncol w' r)%nat /\
          (forall i j, (i < view_nrow w' r)%nat -> (j < view_ncol w' r)%nat ->
             nth (j * view_nrow w' r + i) flattened_data 0%Q = view_item w' r i j) /\
          match weight with
          | Some wr =>
              exists values,
                flattened_weight = Some values /\
                length values = (view_nrow w' wr * view_ncol w' wr)%nat /\
                forall i j, (i < view_nrow w' wr)%nat -> (j < view_ncol w' wr)%nat ->
                  nth (j * view_nrow w' wr + i) values 0%Q = view_item w' wr i j
          | None => flattened_weight = None
          end
      else
        DataProviderGetters.get_flattened_data self label = inl KeyError /\
        DataProviderGetters.get_flattened_weight self label = inl KeyError.
Proof.
  let v := eval vm_compute in
    (DataProvider.init (example_scheme false [example_weight]) global_models example_store) in
  match v with
  | (inr ?self, ?w') =>
      assert (DataProvider.init (example_scheme false [example_weight]) global_models
                example_store = (inr self, w'))
        as E by (vm_compute; reflexivity);
      exists self, w'
  end.
  split; [exact E|]. split; [vm_compute; reflexivity|]. split; [vm_compute; reflexivity|].
  exact (init_flattens_global_models _ _ _ _ _ global_models_keys E).
Defined.

Lemma plain_value_inverts (p : Param.t) :
  plain_value p (fst (fst (plain_bounds p))) = p.
Proof. destruct p. reflexivity. Defined.

Lemma set_from_label_and_value_arrays_round_trip_witness :
  exists labels values lower_bounds upper_bounds s1 s2,
    get_label_value_and_bounds_arrays _ plain_bounds branching true branching_store =
      (inr (labels, values, lower_bounds, upper_bounds), s1) /\
    set_from_label_and_value_arrays _ plain_value branching labels values s1 =
      (inr (Some tt), s2) /\
    relabelled s1 s2.
Proof.
  assert (exists labels values lower_bounds upper_bounds s1,
            get_label_value_and_bounds_arrays _ plain_bounds branching true
              branching_store =
            (inr (labels, values, lower_bounds, upper_bounds), s1))
    as (labels & values & lower_bounds & upper_bounds & s1 & E)
    by (do 5 eexists; vm_compute; reflexivity).
  destruct (set_from_label_and_value_arrays_round_trip _ plain_bounds plain_value
              branching true branching_store labels values lower_bounds upper_bounds s1
              eq_refl branching_in_store branching_distinct eq_refl
              plain_value_inverts E) as (s2 & H).
  exists labels, values, lower_bounds, upper_bounds, s1, s2. split; [exact E|exact H].
Defined.

Lemma aligned_dataset_indices_locate_witness :
  exists self w' aligned_global_axes,
    __init__ linked_scheme linked_models linked_store = (inr self, w') /\
    create_aligned_global_axes (clp_link_tolerance linked_scheme)
      (clp_link_method linked_scheme) (_global_axes (provider self)) =
      inr aligned_global_axes /\
    length (_aligned_dataset_indices self) = length (aligned_global_axis self) /\
    forall i x,
      nth_error (aligned_global_axis self) i = Some x ->
      exists ks,
        get_aligned_dataset_indices self (Z.of_nat i) = inr ks /\
        ks <> [] /\
        Forall2 (fun item k => nth_error (snd item) k = Some x)
                (datasets_at x aligned_global_axes) ks.
Proof.
  assert (exists self w',
            __init__ linked_scheme linked_models linked_store = (inr self, w'))
    as (self & w' & E) by (do 2 eexists; vm_compute; reflexivity).
  destruct (aligned_dataset_indices_locate _ _ _ _ _ E) as (axes & H).
  exists self, w', axes. split; [exact E|exact H].
Defined.

Lemma aligned_data_concatenates_columns_witness :
  exists self w' aligned_global_axes,
    __init__ linked_scheme linked_models linked_store = (inr self, w') /\
    map (get_aligned_data self) [0; 1; 2]%Z =
      [inr [2; 4; 1; 4]; inr [3; 5; 2; 5]; inr [3; 6]]%Q /\
    create_aligned_global_axes (clp_link_tolerance linked_scheme)
      (clp_link_method linked_scheme) (_global_axes (provider self)) =
      inr aligned_global_axes /\
    length (_aligned_data self) = length (aligned_global_axis self) /\
    forall i x,
      nth_error (aligned_global_axis self) i = Some x ->
      exists ks,
        get_aligned_dataset_indices self (Z.of_nat i) = inr ks /\
        get_aligned_data self (Z.of_nat i) =
          inr (concat
                 (map (fun item_k =>
                         data_column w' (provider self) (fst (fst item_k))
                                     (snd item_k))
                      (combine (datasets_at x aligned_global_axes) ks))).
Proof.
  let v := eval vm_compute in (__init__ linked_scheme linked_models linked_store) in
  match v with
  | (inr ?self, ?w') =>
      assert (__init__ linked_scheme linked_models linked_store = (inr self, w'))
        as E by (vm_compute; reflexivity);
      destruct (aligned_data_concatenates_columns _ _ _ _ _ E) as (axes & H);
      exists self, w', axes
  end.
  split; [exact E|]. split; [vm_compute; reflexivity|exact H].
Defined.

Lemma aligned_groups_name_datasets_witness :
  exists self w' aligned_global_axes,
    __init__ linked_scheme linked_models linked_store = (inr self, w') /\
    create_aligned_global_axes (clp_link_tolerance linked_scheme)
      (clp_link_method linked_scheme) (_global_axes (provider self)) =
      inr aligned_global_axes /\
    length (_aligned_group_labels self) = length (aligned_global_axis self) /\
    forall i x,
      nth_error (aligned_global_axis self) i = Some x ->
      let group_label x :=
        String.concat "" (map fst (datasets_at x aligned_global_axes)) in
      get_aligned_group_label self (Z.of_nat i) = inr (group_label x) /\
      exists j y,
        (j <= i)%nat /\
        nth_error (aligned_global_axis self) j = Some y /\
        group_label y = group_label x /\
        dict_get (group_label x) (group_definitions self) =
          Some (filter (fun l => negb (String.eqb l ""))
                       (map fst (datasets_at y aligned_global_axes))).
Proof.
  assert (exists self w',
            __init__ linked_scheme linked_models linked_store = (inr self, w'))
    as (self & w' & E) by (do 2 eexists; vm_compute; reflexivity).
  destruct (aligned_groups_name_datasets _ _ _ _ _ E) as (axes & H).
  exists self, w', axes. split; [exact E|exact H].
Defined.

End ExtraExamples.

(** ** The aligned weights of a linked provider *)

Section AlignedWeights.
Import DataProvider DataProviderLinked.
Local Open Scope Z_scope.

Lemma init_loop_weight_keys scheme items : forall self w self' w',
  NoDup (keys (_weight self)) ->
  init_loop scheme items self w = (inr self', w') ->
  NoDup (keys (_weight self')).
Proof.
  induction items as [|[label dm] rest IH]; intros self w self' w' Hnd Hrun.
  - now injection Hrun as <- _.
  - cbn [init_loop] in Hrun. apply mbind_inr in Hrun.
    destruct Hrun as (self1 & w1 & Hfirst & Hrest).
    apply init_dataset_fields in Hfirst. cbv zeta in Hfirst.
    destruct Hfirst as (dataset & variable & model_axis & gd & global_axis & r & weight &
                        _ & _ & _ & _ & _ & _ & _ & _ & _ & _ & E & _).
    eapply IH; [|exact Hrest]. rewrite E. now apply dict_set_keys.
Qed.

(** The dictionary [all_weights] has the datasets for which the provider
    holds a weight. *)
Lemma all_weights_get w (aligned_global_axes : dict (list Z)) :
  forall (entries : dict (option ref)) ws,
  NoDup (keys entries) ->
  all_weights w entries aligned_global_axes = inr ws ->
  (forall label, In label (keys ws) -> In label (keys entries)) /\
  forall label,
    match dict_get label entries with
    | Some (Some weight) =>
        exists axis,
          dict_get label aligned_global_axes = Some axis /\
          dict_get label ws = Some (contents w weight, axis)
    | _ => dict_get label ws = None
    end.
Proof.
  induction entries as [|[label0 [weight0|]] rest IH]; intros ws Hnd Hall.
  - injection Hall as <-. split; [intros label []|reflexivity].
  - cbn [all_weights] in Hall.
    apply bind_inr in Hall. destruct Hall as (axis & Haxis & Hall).
    apply bind_inr in Hall. destruct Hall as (array & Harray & Hall).
    apply bind_inr in Hall. destruct Hall as (others & Hothers & Hall).
    injection Hall as <-.
    simpl in Hnd. apply NoDup_cons_iff in Hnd. destruct Hnd as [Hnotin Hnd].
    destruct (IH others Hnd Hothers) as [Hkeys Hget].
    split.
    + intros label [<-|Hin]; [now left|right; now apply Hkeys].
    + intros label. cbn [dict_get].
      destruct (String.eqb_spec label label0) as [->|Hne]; [|apply Hget].
      exists axis. split; [now apply getitem_inr|].
      unfold DataArray_with_global in Harray.
      destruct (_ =? _)%nat; [|discriminate]. now injection Harray as <-.
  - cbn [all_weights] in Hall.
    simpl in Hnd. apply NoDup_cons_iff in Hnd. destruct Hnd as [Hnotin Hnd].
    destruct (IH ws Hnd Hall) as [Hkeys Hget].
    split.
    + intros label Hin. right. now apply Hkeys.
    + intros label. cbn [dict_get].
      destruct (String.eqb_spec label label0) as [->|Hne]; [|apply Hget].
      destruct (dict_get label0 ws) as [v|] eqn:E; [|reflexivity].
      exfalso. apply Hnotin, Hkeys. apply dict_get_In in E.
      apply in_map_iff. exists (label0, v). auto.
Qed.

Lemma traverse_nth {A B} (f : A -> aligned_result B) : forall l bs,
  traverse f l = inr bs ->
  length bs = length l /\
  forall i a, nth_error l i = Some a ->
    exists b, nth_error bs i = Some b /\ f a = inr b.
Proof.
  induction l as [|a0 l IH]; intros bs H.
  - injection H as <-. split; [reflexivity|]. intros [|i] a; discriminate.
  - cbn [traverse] in H.
    apply abind_inr in H. destruct H as (b0 & Hb0 & H).
    apply abind_inr in H. destruct H as (bs' & Hbs' & H).
    injection H as <-. destruct (IH bs' Hbs') as [Hlen Hnth].
    split; [simpl; now rewrite Hlen|].
    intros [|i] a Hi; simpl in Hi.
    + injection Hi as <-. exists b0. auto.
    + now apply Hnth.
Qed.

Lemma get_locs_NoDup (index : list Z) k x :
  NoDup index -> nth_error index k = Some x -> get_locs x index = [k].
Proof.
  intros Hnd Hk. unfold get_locs.
  assert (k < length index)%nat as Hlt by (apply nth_error_Some; congruence).
  replace (length index) with (k + S (length index - S k))%nat by lia.
  rewrite seq_app, filter_app. cbn [seq filter Nat.add].
  rewrite (nth_error_nth _ _ _ Hk), Z.eqb_refl.
  assert (forall j, (j < length index)%nat -> j <> k ->
                    (nth j index (x + 1) =? x) = false) as Hother.
  { intros j Hj Hne. apply Z.eqb_neq. intros E. apply Hne.
    rewrite NoDup_nth_error in Hnd. apply Hnd; [assumption|].
    rewrite Hk. rewrite <- E. now apply nth_error_nth'. }
  rewrite !filter_none; [reflexivity| |].
  - intros j Hj. apply in_seq in Hj. apply Hother; lia.
  - intros j Hj. apply in_seq in Hj. apply Hother; lia.
Qed.

Lemma concatenate_vectors (vs : list (list Q)) :
  vs <> [] -> concatenate (map vector vs) = inr (vector (concat vs)).
Proof.
  induction vs as [|v vs IH]; [congruence|]. intros _.
  destruct vs as [|v' vs]; [simpl; now rewrite app_nil_r|].
  change (concatenate (map vector (v :: v' :: vs)))
    with (bind (concatenate (map vector (v' :: vs))) (fun b => concatenate2 (vector v) b)).
  rewrite IH by discriminate. reflexivity.
Qed.

(** The axes that [xr.concat] accepts have no repeated coordinate when the
    joined axis has none. *)
Lemma concat_global_coordinate_NoDup axes axis :
  concat_global_coordinate axes = inr axis ->
  NoDup axis -> forall a, In a axes -> NoDup a.
Proof.
  unfold concat_global_coordinate. destruct axes as [|first others]; [discriminate|].
  destruct (forallb (array_equal first) others) eqn:Heq.
  - intros [= <-] Hnd a [<-|Ha]; [assumption|].
    now rewrite (forallb_array_equal _ _ Heq a Ha).
  - destruct (forallb is_unique (first :: others)) eqn:Huniq; [|discriminate].
    intros _ _ a Ha. apply is_unique_spec.
    rewrite forallb_forall in Huniq. now apply Huniq.
Qed.

(** The group label of a coordinate of the aligned global axis. *)
Lemma init_group_label scheme dataset_models w self w' aligned_global_axes i x :
  __init__ scheme dataset_models w = (inr self, w') ->
  create_aligned_global_axes (clp_link_tolerance scheme) (clp_link_method scheme)
    (_global_axes (provider self)) = inr aligned_global_axes ->
  nth_error (_aligned_global_axis self) i = Some x ->
  length (_aligned_group_labels self) = length (_aligned_global_axis self) /\
  nth_error (_aligned_group_labels self) i =
    Some (String.concat "" (map fst (datasets_at x aligned_global_axes))).
Proof.
  intros Hinit Hcreate Hi.
  destruct (init_inr _ _ _ _ _ Hinit) as (axes & _ & Hcreate' & _ & _ & Hgroups & _).
  rewrite Hcreate in Hcreate'. injection Hcreate' as <-.
  destruct (init_dataset_indices _ _ _ _ _ _ Hinit Hcreate) as (indexers & Hconcat & _).
  unfold align_groups in Hgroups. rewrite Hconcat in Hgroups. cbn [bind ret] in Hgroups.
  injection Hgroups as Elabels _.
  destruct (concat_indexers_spec _ _ _ Hconcat) as [_ Hall].
  destruct (indexers_at aligned_global_axes indexers _ i x Hall Hi) as (_ & _ & Erow).
  rewrite <- Elabels. split; [now rewrite !length_map, length_seq|].
  rewrite map_map, nth_error_map_seq by (apply nth_error_Some; congruence).
  rewrite Erow. f_equal. apply group_of_datasets_at.
Qed.

(** What the loop of [align_weights] collects for the datasets of a
    group, each with the position of the coordinate on its axis. *)
Lemma index_weights_columns w self (axis : list Z) i x
    (aligned_global_axes : dict (list Z)) (ws : dict (ndarray.t * list Z)) :
  nth_error axis i = Some x ->
  NoDup (keys aligned_global_axes) ->
  (forall label,
     match dict_get label (_weight self) with
     | Some (Some weight) =>
         exists a,
           dict_get label aligned_global_axes = Some a /\
           dict_get label ws = Some (contents w weight, a)
     | _ => dict_get label ws = None
     end) ->
  forall (members : dict (list Z)) ks index_weights,
  (forall item, In item members -> In item aligned_global_axes /\ NoDup (snd item)) ->
  Forall2 (fun item k => nth_error (snd item) k = Some x) members ks ->
  traverse
    (fun label =>
       match dict_get label ws with
       | Some (array, a) =>
           abind (item_at axis i) (fun x => raised (sel array a x))
       | None =>
           abind (raised (getitem label (_model_axes self)))
                 (fun model_axis => inr (vector (repeat 1%Q (length model_axis))))
       end) (map fst members) = inr index_weights ->
  index_weights =
    map vector
        (map (fun item_k => weight_column w self (fst (fst item_k)) (snd item_k))
             (combine members ks)).
Proof.
  intros Hi Hnd Hws members ks index_weights Hmembers Hks. revert index_weights.
  induction Hks as [|[label a] k members ks Hk Hks IH]; intros index_weights Htr.
  - now injection Htr as <-.
  - cbn [map traverse fst] in Htr.
    apply abind_inr in Htr. destruct Htr as (b & Hb & Htr).
    apply abind_inr in Htr. destruct Htr as (bs & Hbs & Htr).
    injection Htr as <-. cbn [combine map fst snd]. f_equal.
    + destruct (Hmembers (label, a)) as [Hin Hnda]; [now left|].
      cbn [snd] in Hk, Hnda.
      specialize (Hws label). unfold weight_column, get_weight, getitem.
      destruct (dict_get label (_weight self)) as [[weight|]|] eqn:Hweight.
      * destruct Hws as (a' & Ha' & Hget). rewrite Hget in Hb.
        apply dict_get_In_iff in Hin; [|assumption]. rewrite Hin in Ha'.
        injection Ha' as <-.
        unfold item_at in Hb. rewrite Hi in Hb. cbn [abind] in Hb.
        unfold sel in Hb. rewrite (get_locs_NoDup a k x Hnda Hk) in Hb.
        injection Hb as <-. now rewrite column_view.
      * rewrite Hws in Hb. apply abind_inr in Hb. destruct Hb as (model_axis & Hm & Hb).
        apply raised_inr in Hm. unfold DataProviderGetters.get_model_axis.
        rewrite Hm. now injection Hb as <-.
      * rewrite Hws in Hb. apply abind_inr in Hb. destruct Hb as (model_axis & Hm & Hb).
        apply raised_inr in Hm. unfold DataProviderGetters.get_model_axis.
        rewrite Hm. now injection Hb as <-.
    + apply IH; [|exact Hbs]. intros item Hitem. apply Hmembers. now right.
Qed.

(** X19.  After the construction of a linked provider whose aligned
    global axis has no repeated coordinate, take a coordinate whose group
    definition lists the datasets that have the coordinate.  Its aligned
    weight is [None] when the provider holds no weight for any of these
    datasets.  Otherwise it is laid out as the aligned data: for each
    dataset of the group, in the order of the group, the column of the
    dataset's weight, read element by element along the model axis at the
    position that [get_aligned_dataset_indices] gives for it, and ones for
    the length of the model axis of a dataset without weight. *)
Theorem aligned_weights_follow_indices scheme dataset_models w self w'
    aligned_global_axes i x :
  __init__ scheme dataset_models w = (inr self, w') ->
  create_aligned_global_axes (clp_link_tolerance scheme) (clp_link_method scheme)
    (_global_axes (provider self)) = inr aligned_global_axes ->
  NoDup (aligned_global_axis self) ->
  nth_error (aligned_global_axis self) i = Some x ->
  dict_get (String.concat "" (map fst (datasets_at x aligned_global_axes)))
           (group_definitions self) =
    Some (map fst (datasets_at x aligned_global_axes)) ->
  length (_aligned_weights self) = length (aligned_global_axis self) /\
  exists ks,
    get_aligned_dataset_indices self (Z.of_nat i) = inr ks /\
    get_aligned_weight self (Z.of_nat i) =
      inr (if existsb (fun item => has_weight (provider self) (fst item))
                      (datasets_at x aligned_global_axes)
           then
             Some (vector
                     (concat
                        (map (fun item_k =>
                                weight_column w' (provider self) (fst (fst item_k))
                                              (snd item_k))
                             (combine (datasets_at x aligned_global_axes) ks))))
           else None).
Proof.
  unfold aligned_global_axis, group_definitions, get_aligned_dataset_indices,
    get_aligned_weight.
  intros Hinit Hcreate Hnd Hi Hdef.
  destruct (init_inr _ _ _ _ _ Hinit)
    as (axes & Hprovider & Hcreate' & _ & _ & _ & Hweights).
  rewrite Hcreate in Hcreate'. injection Hcreate' as <-.
  destruct (init_dataset_indices _ _ _ _ _ _ Hinit Hcreate) as (indexers & Hconcat & E).
  destruct (init_group_label _ _ _ _ _ _ _ _ Hinit Hcreate Hi) as [Hlabels Hlabel].
  set (axis := _aligned_global_axis self) in *.
  set (members := datasets_at x aligned_global_axes) in *.
  assert (i < length axis)%nat as Hlt by (apply nth_error_Some; congruence).
  destruct (concat_indexers_spec _ _ _ Hconcat) as [Haxis Hall].
  destruct (indexers_at aligned_global_axes indexers axis i x Hall Hi) as (Hks & _ & _).
  fold members in Hks.
  set (ks := flat_map (fun indexer : list (option nat) =>
                         match nth i indexer None with
                         | Some k => [k]
                         | None => []
                         end) indexers) in *.
  assert (NoDup (keys (_global_axes (provider self)))) as Hkeys0.
  { eapply (init_loop_global_axes scheme dataset_models empty); [constructor|exact Hprovider]. }
  assert (NoDup (keys aligned_global_axes)) as Hkeys.
  { destruct (create_aligned_global_axes_success _ _ _ _ Hkeys0 Hcreate) as [-> _].
    exact Hkeys0. }
  assert (NoDup (keys (_weight (provider self)))) as Hwkeys.
  { eapply (init_loop_weight_keys scheme dataset_models empty); [constructor|exact Hprovider]. }
  assert (forall item, In item members ->
            In item aligned_global_axes /\ NoDup (snd item)) as Hmembers.
  { intros item Hitem. apply filter_In in Hitem. destruct Hitem as [Hitem _].
    split; [assumption|].
    apply (concat_global_coordinate_NoDup _ _ Haxis Hnd).
    unfold values. now apply in_map. }
  unfold align_weights in Hweights.
  apply abind_inr in Hweights. destruct Hweights as (ws & Hws & Hweights).
  apply raised_inr in Hws.
  destruct (all_weights_get _ _ _ _ Hwkeys Hws) as [_ Hget].
  assert (forall label,
            match dict_get label ws with Some _ => true | None => false end =
            has_weight (provider self) label) as Hhas.
  { intros label. specialize (Hget label). unfold has_weight, get_weight, getitem.
    destruct (dict_get label (_weight (provider self))) as [[weight|]|].
    - destruct Hget as (a & _ & ->). reflexivity.
    - now rewrite Hget.
    - now rewrite Hget. }
  assert (existsb (fun label => match dict_get label ws with
                                | Some _ => true
                                | None => false
                                end) (map fst members) =
          existsb (fun item => has_weight (provider self) (fst item)) members) as Hex.
  { clear -Hhas. induction members as [|item rest IH]; [reflexivity|].
    cbn [map existsb]. now rewrite IH, Hhas. }
  rewrite E.
  assert (nth_error (_aligned_weights self) i =
            Some (if existsb (fun item => has_weight (provider self) (fst item)) members
                  then
                    Some (vector
                            (concat
                               (map (fun item_k =>
                                       weight_column w' (provider self)
                                         (fst (fst item_k)) (snd item_k))
                                    (combine members ks))))
                  else None) /\
          length (_aligned_weights self) = length axis) as [Hweight Hlength].
  { destruct ws as [|entry ws'].
    - injection Hweights as <-. rewrite repeat_length. split; [|reflexivity].
      rewrite nth_error_repeat by assumption.
      rewrite <- Hex. f_equal. clear. induction (map fst members); simpl; auto.
    - set (found := entry :: ws') in *.
      apply abind_inr in Hweights. destruct Hweights as (set & Hset & Hweights).
      injection Hweights as <-.
      destruct (traverse_nth _ _ _ Hset) as [Hlen Hnth].
      rewrite length_combine, length_seq, Nat.min_id, Hlabels in Hlen.
      rewrite Hlen, Nat.sub_diag, app_nil_r. cbn [repeat].
      rewrite firstn_all2 by lia. split; [|exact Hlen].
      destruct (Hnth i (i, String.concat "" (map fst members))) as (b & -> & Hb).
      { clear -Hlabel Hlt Hlabels.
        assert (forall (l : list string) start j v,
                  nth_error l j = Some v ->
                  nth_error (combine (seq start (length l)) l) j =
                    Some ((start + j)%nat, v)) as Hcombine.
        { induction l as [|v0 l IH]; intros start [|j] v Hj; simpl in Hj;
            try discriminate.
          - injection Hj as <-. simpl. now rewrite Nat.add_0_r.
          - simpl. rewrite (IH (S start) j v Hj). f_equal. f_equal. lia. }
        now rewrite (Hcombine _ 0%nat i _ Hlabel). }
      f_equal. cbn [fst snd] in Hb. unfold align_weight in Hb.
      unfold getitem in Hb. rewrite Hdef in Hb. cbn [raised abind ret] in Hb.
      rewrite Hex in Hb.
      destruct (existsb _ members) eqn:Hany; [|now injection Hb as <-].
      apply abind_inr in Hb. destruct Hb as (index_weights & Hindex & Hb).
      apply abind_inr in Hb. destruct Hb as (aligned & Hconcatenate & Hb).
      apply raised_inr in Hconcatenate.
      apply Nat.ltb_lt in Hlt. rewrite Hlt in Hb. injection Hb as <-.
      rewrite (index_weights_columns w' (provider self) axis i x aligned_global_axes
                 found Hi Hkeys Hget members ks index_weights Hmembers Hks Hindex)
        in Hconcatenate.
      rewrite concatenate_vectors in Hconcatenate.
      + now injection Hconcatenate as <-.
      + destruct members as [|item rest]; [discriminate|].
        inversion Hks; subst. discriminate. }
  split; [exact Hlength|].
  exists ks. split.
  - apply getitem_at_position, nth_error_map_seq. assumption.
  - now apply getitem_at_position.
Qed.

End AlignedWeights.

Section AlignedWeightExample.
Import DataProvider DataProviderLinked.
Local Open Scope string_scope.

Lemma aligned_weights_follow_indices_witness :
  exists self w' aligned_global_axes ks,
    __init__ weighted_scheme linked_models weighted_store = (inr self, w') /\
    create_aligned_global_axes (clp_link_tolerance weighted_scheme)
      (clp_link_method weighted_scheme) (_global_axes (provider self)) =
      inr aligned_global_axes /\
    nth_error (aligned_global_axis self) 0 = Some 1%Z /\
    get_aligned_dataset_indices self 0 = inr ks /\
    map (get_aligned_weight self) [0; 1; 2]%Z =
      [inr (Some (vector [1 # 2; 1; 1; 1]%Q));
       inr (Some (vector [1; 1 # 4; 1; 1]%Q));
       inr None] /\
    get_aligned_weight self 0 =
      inr (if existsb (fun item => has_weight (provider self) (fst item))
                      (datasets_at 1 aligned_global_axes)
           then
             Some (vector
                     (concat
                        (map (fun item_k =>
                                weight_column w' (provider self) (fst (fst item_k))
                                              (snd item_k))
                             (combine (datasets_at 1 aligned_global_axes) ks))))
           else None).
Proof.
  let v := eval vm_compute in (__init__ weighted_scheme linked_models weighted_store) in
  match v with
  | (inr ?self, ?w') =>
      assert (__init__ weighted_scheme linked_models weighted_store = (inr self, w'))
        as E by (vm_compute; reflexivity);
      exists self, w'
  end.
  exists [("dataset1", [1; 5]%Z); ("dataset2", [1; 5; 9]%Z)].
  match goal with
  | |- exists ks, ?A /\ ?B /\ ?C /\ _ =>
      assert (B) as Hcreate by (vm_compute; reflexivity);
      assert (C) as Hi by reflexivity
  end.
  match type of E with
  | _ = (inr ?self, _) =>
      assert (NoDup (aligned_global_axis self)) as Hnd
        by (vm_compute; repeat constructor; simpl; intuition discriminate)
  end.
  destruct (aligned_weights_follow_indices _ _ _ _ _ _ 0%nat 1%Z E Hcreate Hnd Hi)
    as (_ & ks & Hks & Hweight); [vm_compute; reflexivity|].
  exists ks. split; [exact E|]. split; [exact Hcreate|]. split; [exact Hi|].
  split; [exact Hks|]. split; [vm_compute; reflexivity|exact Hweight].
Defined.

End AlignedWeightExample.

(** ** The group of a parameter *)

Section GroupPaths.
Import ParameterGroup ParameterGroupCopy ParameterGroupPaths.

Variable valid_label : string -> bool.

Lemma descend_app (p q : list string) : forall g,
  descend g (p ++ q) =
  match descend g p with
  | Some group => descend group q
  | None => None
  end.
Proof.
  induction p as [|e p IH]; intros g; [reflexivity|].
  cbn [app descend]. destruct (dict_get e (groups g)); [apply IH|reflexivity].
Qed.

Lemma descend_update_at (f : t -> t) (cursor : list string) : forall g group,
  descend g cursor = Some group ->
  descend (update_at cursor f g) cursor = Some (f group).
Proof.
  induction cursor as [|e cursor IH]; intros g group H.
  - injection H as <-. reflexivity.
  - cbn [descend update_at] in *.
    destruct (dict_get e (groups g)) as [sub|] eqn:E; [|discriminate].
    cbn [groups]. rewrite dict_get_set_eq. now apply IH.
Qed.

(** Every group that is reached in [a] is reached in [b], with the same
    parameters. *)
Definition kept (a b : t) : Prop :=
  forall p group,
    descend a p = Some group ->
    exists group', descend b p = Some group' /\ _parameters group' = _parameters group.

Lemma kept_refl a : kept a a.
Proof. intros p group H. eauto. Qed.

Lemma kept_trans a b c : kept a b -> kept b c -> kept a c.
Proof.
  intros Hab Hbc p group H.
  destruct (Hab p group H) as (group' & H' & E').
  destruct (Hbc p group' H') as (group'' & H'' & E'').
  exists group''. split; [assumption|congruence].
Qed.

Lemma kept_update_at (f : t -> t) :
  (forall group, _parameters (f group) = _parameters group) ->
  forall cursor g,
  (forall group, descend g cursor = Some group ->
     forall k sub, dict_get k (groups group) = Some sub ->
                   dict_get k (groups (f group)) = Some sub) ->
  kept g (update_at cursor f g).
Proof.
  intros Hparameters.
  induction cursor as [|c cursor IH]; intros g Hgroups p group Hp.
  - cbn [update_at]. destruct p as [|e p].
    + injection Hp as <-. exists (f g). split; [reflexivity|apply Hparameters].
    + cbn [descend] in *.
      destruct (dict_get e (groups g)) as [sub|] eqn:E; [|discriminate].
      rewrite (Hgroups g eq_refl e sub E). eauto.
  - cbn [update_at].
    destruct (dict_get c (groups g)) as [sub|] eqn:Ec; [|eauto].
    destruct p as [|e p].
    + injection Hp as <-. eexists. split; [reflexivity|]. reflexivity.
    + cbn [descend groups] in *.
      destruct (dict_get e (groups g)) as [sub_e|] eqn:Ee; [|discriminate].
      destruct (string_dec c e) as [->|Hne].
      * rewrite dict_get_set_eq. rewrite Ec in Ee. injection Ee as <-.
        apply IH; [|exact Hp].
        intros group0 H0. apply Hgroups. cbn [descend]. now rewrite Ec.
      * rewrite dict_get_set_ne by assumption. rewrite Ee. eauto.
Qed.

Lemma flat_map_dict_set_same {V B} (h : string * V -> list B) k v' : forall d v,
  dict_get k d = Some v ->
  h (k, v') = h (k, v) ->
  flat_map h (dict_set k v' d) = flat_map h d.
Proof.
  induction d as [|[k0 v0] d IH]; intros v Hget Hh; [discriminate|].
  cbn [dict_get dict_set] in *.
  destruct (String.eqb_spec k k0) as [->|Hne].
  - injection Hget as <-. cbn [flat_map]. now rewrite Hh.
  - cbn [flat_map]. f_equal. now apply (IH v).
Qed.

Lemma all_from_update_at separator (f : t -> t) : forall cursor g group root,
  descend g cursor = Some group ->
  (forall root, all_from root separator (f group) = all_from root separator group) ->
  all_from root separator (update_at cursor f g) = all_from root separator g.
Proof.
  induction cursor as [|c cursor IH]; intros g group root Hgroup Hf.
  - injection Hgroup as <-. apply Hf.
  - cbn [descend update_at] in *.
    destruct (dict_get c (groups g)) as [sub|] eqn:Ec; [|discriminate].
    destruct g as [l parameters subgroups]. cbn [label _parameters groups] in *.
    cbn [all_from]. f_equal.
    apply (flat_map_dict_set_same _ _ _ _ sub Ec). cbn [snd].
    now apply (IH sub group).
Qed.

Lemma dict_get_None_keys {V} k (d : dict V) : dict_get k d = None -> ~ In k (keys d).
Proof.
  induction d as [|[k0 v0] d IH]; simpl; [tauto|].
  destruct (String.eqb_spec k k0) as [->|Hne]; [discriminate|].
  intros H [E|Hin]; [congruence|]. now apply IH.
Qed.

(** An empty group that is added under a key that is not there brings no
    parameter and hides no group. *)
Lemma add_empty_group separator group_label (group : t) l :
  dict_get group_label (groups group) = None ->
  let group' :=
    Group (label group) (_parameters group)
          (dict_set group_label (Group l [] []) (groups group)) in
  (forall root, all_from root separator group' = all_from root separator group) /\
  (forall k sub, dict_get k (groups group) = Some sub ->
                 dict_get k (groups group') = Some sub).
Proof.
  intros Habsent group'. split.
  - intros root. destruct group as [l0 parameters subgroups].
    cbn [label _parameters groups group' all_from] in *.
    rewrite dict_set_fresh by now apply dict_get_None_keys.
    rewrite flat_map_app. cbn [flat_map all_from map snd]. now rewrite !app_nil_r.
  - intros k sub Hk. cbn [group' groups].
    rewrite dict_get_set_ne; [assumption|]. intros ->. congruence.
Qed.

Lemma new_group_inr l group :
  new_group valid_label (Some l) = inr group ->
  valid_label l = true /\ group = Group (Some l) [] [].
Proof.
  unfold new_group. destruct (valid_label l); [|discriminate].
  now intros [= <-].
Qed.

(** Without creation, the loop follows the groups that exist. *)
Lemma get_group_loop_finds path : forall cursor self group,
  descend self cursor = Some group ->
  get_group_loop valid_label false path cursor self =
    (match descend group path with
     | Some _ => inr (cursor ++ path)%list
     | None => inl KeyError
     end, self).
Proof.
  induction path as [|e path IH]; intros cursor self group Hcursor.
  - cbn [get_group_loop descend]. now rewrite app_nil_r.
  - cbn [get_group_loop descend]. unfold mbind at 1. unfold contains at 1.
    rewrite Hcursor.
    destruct (dict_get e (groups group)) as [sub|] eqn:E.
    + unfold mbind, mret. rewrite (IH (cursor ++ [e])%list self sub).
      * now rewrite <- app_assoc.
      * rewrite descend_app, Hcursor. cbn [descend]. now rewrite E.
    + reflexivity.
Qed.

(** With creation, the loop adds the groups that are missing, which are
    empty. *)
Lemma get_group_loop_creates path : forall cursor self group,
  descend self cursor = Some group ->
  (forall e, In e path -> valid_label e = true) ->
  exists self' group',
    get_group_loop valid_label true path cursor self =
      (inr (cursor ++ path)%list, self') /\
    descend self' (cursor ++ path) = Some group' /\
    kept self self' /\
    forall root separator,
      all_from root separator self' = all_from root separator self.
Proof.
  induction path as [|e path IH]; intros cursor self group Hcursor Hvalid.
  - exists self, group. cbn [get_group_loop]. rewrite app_nil_r.
    repeat split; [assumption|apply kept_refl].
  - cbn [get_group_loop]. unfold mbind at 1. unfold contains at 1.
    rewrite Hcursor.
    destruct (dict_get e (groups group)) as [sub|] eqn:E.
    + unfold mbind at 1. unfold mret at 1.
      destruct (IH (cursor ++ [e])%list self sub) as (self' & group' & Hrun & H1 & H2 & H3).
      * rewrite descend_app, Hcursor. cbn [descend]. now rewrite E.
      * intros e' He'. apply Hvalid. now right.
      * exists self', group'. rewrite <- app_assoc in Hrun, H1. auto.
    + unfold mbind at 1. unfold mbind at 1. unfold lift at 1. unfold new_group.
      rewrite (Hvalid e) by (now left). cbn [ret label]. unfold add_group at 1.
      set (f := fun group0 : t =>
                  Group (label group0) (_parameters group0)
                        (dict_set e (Group (Some e) [] []) (groups group0))).
      set (self1 := update_at cursor f self).
      destruct (add_empty_group "."%string e group (Some e) E) as [_ Hgroups].
      destruct (IH (cursor ++ [e])%list self1 (Group (Some e) [] []))
        as (self' & group' & Hrun & H1 & H2 & H3).
      * rewrite descend_app. unfold self1.
        rewrite (descend_update_at f cursor self group Hcursor).
        cbn [descend f groups]. now rewrite dict_get_set_eq.
      * intros e' He'. apply Hvalid. now right.
      * exists self', group'. rewrite <- app_assoc in Hrun, H1.
        split; [exact Hrun|]. split; [exact H1|]. split.
        -- eapply kept_trans; [|exact H2]. unfold self1.
           apply kept_update_at; [reflexivity|].
           intros group0 H0 k sub Hk. rewrite Hcursor in H0. injection H0 as <-.
           now apply Hgroups.
        -- intros root separator. rewrite H3. unfold self1.
           apply (all_from_update_at separator f cursor self group root Hcursor).
           apply (add_empty_group separator e group (Some e) E).
Qed.

(** X20.  Without [create_if_not_exist],
    [get_group_for_parameter_by_label] leaves the tree as it is; it
    returns the group that the labels before the last separator lead to,
    and raises [KeyError] exactly when one of these subgroups does not
    exist.  This is the group in which [get] looks for the parameter: the
    group is returned for every label that [get] finds. *)
Theorem get_group_for_parameter_by_label_finds (parameter_label : string) (self : t) :
  let path := removelast (split parameter_label) in
  get_group_for_parameter_by_label valid_label parameter_label false self =
    (match descend self path with
     | Some _ => inr path
     | None => inl KeyError
     end, self) /\
  (forall r, find self parameter_label = Some r ->
     exists group,
       descend self path = Some group /\
       dict_get (last (split parameter_label) ""%string) (_parameters group) = Some r /\
       get_group_for_parameter_by_label valid_label parameter_label false self =
         (inr path, self)).
Proof.
  intros path.
  assert (get_group_for_parameter_by_label valid_label parameter_label false self =
            (match descend self path with
             | Some _ => inr path
             | None => inl KeyError
             end, self)) as Hrun.
  { unfold get_group_for_parameter_by_label. fold path.
    now rewrite (get_group_loop_finds path [] self self eq_refl). }
  split; [exact Hrun|].
  intros r Hfind. unfold find in Hfind. fold path in Hfind.
  destruct (descend self path) as [group|] eqn:E; [|discriminate].
  exists group. auto.
Qed.

(** X21.  With [create_if_not_exist], and when the labels before the last
    separator are valid group labels, [get_group_for_parameter_by_label]
    returns a group that exists afterwards.  The groups it adds are empty:
    [all] yields the same labels and parameters as before, every label
    that [get] found is still found, with the same parameter, and a second
    call finds the group without creating anything. *)
Theorem get_group_for_parameter_by_label_creates (parameter_label : string) (self : t) :
  let path := removelast (split parameter_label) in
  (forall e, In e path -> valid_label e = true) ->
  exists self' group,
    get_group_for_parameter_by_label valid_label parameter_label true self =
      (inr path, self') /\
    descend self' path = Some group /\
    all self' = all self /\
    (forall l r, find self l = Some r -> find self' l = Some r) /\
    get_group_for_parameter_by_label valid_label parameter_label false self' =
      (inr path, self') /\
    get_group_for_parameter_by_label valid_label parameter_label true self' =
      (inr path, self').
Proof.
  intros path Hvalid.
  destruct (get_group_loop_creates path [] self self eq_refl Hvalid)
    as (self' & group & Hrun & Hgroup & Hkept & Hall).
  cbn [app] in Hrun, Hgroup.
  exists self', group. split; [exact Hrun|]. split; [exact Hgroup|].
  split; [apply Hall|]. split; [|split].
  - intros l r Hfind. unfold find in *.
    destruct (descend self (removelast (split l))) as [g1|] eqn:E; [|discriminate].
    destruct (Hkept _ _ E) as (g1' & -> & ->). exact Hfind.
  - unfold get_group_for_parameter_by_label. fold path.
    rewrite (get_group_loop_finds path [] self' self' eq_refl). now rewrite Hgroup.
  - unfold get_group_for_parameter_by_label. fold path.
    assert (forall p cursor g0,
              descend self' cursor = Some g0 ->
              (exists g1, descend g0 p = Some g1) ->
              get_group_loop valid_label true p cursor self' =
                (inr (cursor ++ p)%list, self')) as Hagain.
    { induction p as [|e p IH]; intros cursor g0 Hcursor [g1 Hp].
      - cbn [get_group_loop]. now rewrite app_nil_r.
      - cbn [get_group_loop descend] in *. unfold mbind at 1. unfold contains at 1.
        rewrite Hcursor.
        destruct (dict_get e (groups g0)) as [sub|] eqn:E; [|discriminate].
        unfold mbind, mret. rewrite (IH (cursor ++ [e])%list sub).
        + now rewrite <- app_assoc.
        + rewrite descend_app, Hcursor. cbn [descend]. now rewrite E.
        + eauto. }
    apply (Hagain path [] self' eq_refl). eauto.
Qed.

End GroupPaths.

Section GroupPathExample.
Import ParameterGroup ParameterGroupLabels ParameterGroupCopy ParameterGroupPaths.
Local Open Scope string_scope.

Lemma get_group_for_parameter_by_label_creates_witness :
  exists self' group,
    get_group_for_parameter_by_label no_dot "rates.slow.1" true branching =
      (inr ["rates"; "slow"], self') /\
    descend self' ["rates"; "slow"] = Some group /\
    all self' = all branching /\
    (forall l r, find branching l = Some r -> find self' l = Some r) /\
    get_group_for_parameter_by_label no_dot "rates.slow.1" false self' =
      (inr ["rates"; "slow"], self') /\
    get_group_for_parameter_by_label no_dot "rates.slow.1" true self' =
      (inr ["rates"; "slow"], self').
Proof.
  apply (get_group_for_parameter_by_label_creates no_dot "rates.slow.1" branching).
  intros e [<-|[<-|[]]]; reflexivity.
Defined.

End GroupPathExample.

(** ** The datasets that a provider knows *)

Section ProviderLabels.
Import DataProvider.
Local Open Scope string_scope.

(** X22.  After [__init__] returned, the provider answers for the datasets
    of the group and for no other label: [get_data], [get_weight],
    [get_model_axis], [get_model_dimension], [get_global_axis] and
    [get_global_dimension] return for a dataset of the group, and all the
    accessors, [get_flattened_data] and [get_flattened_weight] included,
    raise [KeyError] for a label that is not in the group. *)
Theorem getters_know_the_group scheme dataset_models w self w' :
  NoDup (keys dataset_models) ->
  init scheme dataset_models w = (inr self, w') ->
  forall label,
    (In label (keys dataset_models) ->
     exists r weight model_axis md global_axis gd,
       get_data self label = inr r /\
       get_weight self label = inr weight /\
       DataProviderGetters.get_model_axis self label = inr model_axis /\
       DataProviderGetters.get_model_dimension self label = inr md /\
       DataProviderGetters.get_global_axis self label = inr global_axis /\
       DataProviderGetters.get_global_dimension self label = inr gd) /\
    (~ In label (keys dataset_models) ->
     get_data self label = inl KeyError /\
     get_weight self label = inl KeyError /\
     DataProviderGetters.get_flattened_data self label = inl KeyError /\
     DataProviderGetters.get_flattened_weight self label = inl KeyError /\
     DataProviderGetters.get_model_axis self label = inl KeyError /\
     DataProviderGetters.get_model_dimension self label = inl KeyError /\
     DataProviderGetters.get_global_axis self label = inl KeyError /\
     DataProviderGetters.get_global_dimension self label = inl KeyError).
Proof.
  intros Hnd Hrun label.
  destruct (init_loop_each scheme dataset_models empty w self w' Hnd Hrun)
    as (_ & Hother & Heach).
  unfold get_data, get_weight, DataProviderGetters.get_flattened_data,
    DataProviderGetters.get_flattened_weight, DataProviderGetters.get_model_axis,
    DataProviderGetters.get_model_dimension, DataProviderGetters.get_global_axis,
    DataProviderGetters.get_global_dimension, getitem.
  split.
  - intros Hin. apply in_map_iff in Hin. destruct Hin as ([l dm] & <- & Hin).
    cbn [fst].
    destruct (Heach l dm Hin) as (self0 & w0 & self1 & w1 & Hstep & _ & Hsame).
    apply init_dataset_fields in Hstep. cbv zeta in Hstep.
    destruct Hstep as (dataset & variable & model_axis & gd & global_axis & r & weight &
                       _ & _ & _ & _ & _ & E1 & E2 & E3 & E4 & E5 & E6 & _).
    destruct Hsame as (S1 & S2 & _ & _ & S5 & S6 & S7 & S8).
    exists r, weight, model_axis, (get_model_dimension dm), global_axis, gd.
    rewrite <- S1, <- S2, <- S5, <- S6, <- S7, <- S8, E1, E2, E3, E4, E5, E6,
      !dict_get_set_eq.
    repeat split.
  - intros Hnotin.
    destruct (Hother label Hnotin) as (S1 & S2 & S3 & S4 & S5 & S6 & S7 & S8).
    rewrite <- S1, <- S2, <- S3, <- S4, <- S5, <- S6, <- S7, <- S8.
    repeat split.
Qed.

End ProviderLabels.

Section ProviderLabelsExample.
Import DataProvider.
Local Open Scope string_scope.

Lemma getters_know_the_group_witness :
  exists self w',
    init (example_scheme true []) example_models example_store = (inr self, w') /\
    forall label,
      (In label (keys example_models) ->
       exists r weight model_axis md global_axis gd,
         get_data self label = inr r /\
         get_weight self label = inr weight /\
         DataProviderGetters.get_model_axis self label = inr model_axis /\
         DataProviderGetters.get_model_dimension self label = inr md /\
         DataProviderGetters.get_global_axis self label = inr global_axis /\
         DataProviderGetters.get_global_dimension self label = inr gd) /\
      (~ In label (keys example_models) ->
       get_data self label = inl KeyError /\
       get_weight self label = inl KeyError /\
       DataProviderGetters.get_flattened_data self label = inl KeyError /\
       DataProviderGetters.get_flattened_weight self label = inl KeyError /\
       DataProviderGetters.get_model_axis self label = inl KeyError /\
       DataProviderGetters.get_model_dimension self label = inl KeyError /\
       DataProviderGetters.get_global_axis self label = inl KeyError /\
       DataProviderGetters.get_global_dimension self label = inl KeyError).
Proof.
  assert (exists self w',
            init (example_scheme true []) example_models example_store = (inr self, w'))
    as (self & w' & E) by (do 2 eexists; vm_compute; reflexivity).
  exists self, w'. split; [exact E|].
  exact (getters_know_the_group _ _ _ _ _ example_models_keys E).
Defined.

End ProviderLabelsExample.
